(** * Content-based deduplication scripts: a shallow embedding

    The development models the two scripts of the repository,

    - [deduplicate_keep_newest_in_place.py] (pipeline A, module [Dedup]) and
    - [move_unique_from_older.py] (pipeline B, module [Mover]),

    over one model of a POSIX file system: a finite map from absolute paths
    to nodes.  The calls into [pathlib], [os] and [shutil] are modelled by
    what these library functions do; the functions of the scripts are
    translated statement by statement on top of them.

    What the model leaves out: logging, progress lines and printing (the
    log file included); the content of files beyond the digest that hashing
    yields; times of directories.  What it fixes: one device (a move is a
    rename); link targets are absolute paths; times are rational numbers;
    a lookup follows at most [SYMLOOP_MAX] links; names are sequences of
    bytes, which Python reads as UTF-8.

    The file has three parts: the model and the two scripts; the predicates
    and example stores that the statements use; the lemmas and theorems. *)

From Stdlib Require Import QArith Qabs Lqa DecimalString DecimalNat.
From stdpp Require Import gmap strings list fin_maps sorting lexico.

#[local] Set Warnings "-clear-no-such-hyp".

Local Open Scope string_scope.
Local Open Scope list_scope.

(** ** Paths *)

(** An absolute path is the list of its components below [/]; the empty
    list is [/] itself.  Components are plain names (no [.], no [..], no
    separator), which is what [pathlib] keeps after parsing. *)
Abbreviation path := (list string).

(** [Path.parent] and [Path.name]. *)
Definition parent (p : path) : path := removelast p.
Definition name (p : path) : string := List.last p "".

(** The bytes of [str(p)]: the components joined by the separator. *)
Fixpoint path_str (p : path) : string :=
  match p with
  | [] => ""
  | c :: r => "/" ++ c ++ path_str r
  end.

(** ** Python strings

    A name of the file system is a sequence of bytes.  The [str] that Python
    makes of it ([os.fsdecode]: UTF-8 with the [surrogateescape] handler) is
    a sequence of characters, given here by their code points: [len] counts
    characters and [<] compares them.  A well-formed UTF-8 sequence of one
    to four bytes is one character; any other byte [b] is the one character
    [0xDC00 + b]. *)
Definition in_range (lo hi b : N) : bool := ((lo <=? b) && (b <=? hi))%N.

(** A continuation byte, [0x80 .. 0xBF]. *)
Definition continuation (b : N) : bool := in_range 128 191 b.

(** The second byte of a sequence of three: no overlong form after [0xE0],
    no surrogate after [0xED]. *)
Definition second_of_three (b b1 : N) : bool :=
  if (b =? 224)%N then in_range 160 191 b1
  else if (b =? 237)%N then in_range 128 159 b1
  else continuation b1.

(** The second byte of a sequence of four: no overlong form after [0xF0],
    nothing above [U+10FFFF] after [0xF4]. *)
Definition second_of_four (b b1 : N) : bool :=
  if (b =? 240)%N then in_range 144 191 b1
  else if (b =? 244)%N then in_range 128 143 b1
  else continuation b1.

(** The well-formed sequence that starts with the byte [b], followed by
    [r]: the number of bytes it takes from [r], and its character. *)
Definition utf8_head (b : N) (r : list N) : option (nat * N) :=
  if (b <? 128)%N then Some (0%nat, b)
  else
    match r with
    | [] => None
    | b1 :: r1 =>
        if in_range 194 223 b && continuation b1
        then Some (1%nat, (b - 192) * 64 + (b1 - 128))%N
        else
          match r1 with
          | [] => None
          | b2 :: r2 =>
              if in_range 224 239 b && second_of_three b b1 && continuation b2
              then Some (2%nat, (b - 224) * 4096 + (b1 - 128) * 64 + (b2 - 128))%N
              else
                match r2 with
                | [] => None
                | b3 :: _ =>
                    if in_range 240 244 b && second_of_four b b1
                       && continuation b2 && continuation b3
                    then Some (3%nat, (b - 240) * 262144 + (b1 - 128) * 4096
                                      + (b2 - 128) * 64 + (b3 - 128))%N
                    else None
                end
          end
    end.

(** The characters of a sequence of bytes, after the first [skip] bytes. *)
Fixpoint utf8_decode (skip : nat) (l : list N) : list N :=
  match l with
  | [] => []
  | b :: r =>
      match skip with
      | S k => utf8_decode k r
      | O =>
          match utf8_head b r with
          | Some (k, c) => c :: utf8_decode k r
          | None => (56320 + b)%N :: utf8_decode 0 r
          end
      end
  end.

(** [os.fsdecode]. *)
Definition fsdecode (s : string) : list N :=
  utf8_decode 0 (Ascii.N_of_ascii <$> String.list_ascii_of_string s).

(** [str(p)]. *)
Definition str (p : path) : list N := fsdecode (path_str p).

(** [a < b] on [str]: the order of the first character that differs, a
    proper prefix being smaller. *)
Fixpoint str_ltb (a b : list N) : bool :=
  match a, b with
  | _, [] => false
  | [], _ :: _ => true
  | x :: a', y :: b' => (x <? y)%N || ((x =? y)%N && str_ltb a' b')
  end.

(** [p.relative_to(root)]: the components of [p] below [root], or
    [ValueError] ([None]) when [root] is not a prefix of [p]. *)
Fixpoint relative_to (p root : path) {struct root} : option path :=
  match root with
  | [] => Some p
  | c :: root' =>
      match p with
      | [] => None
      | d :: p' => if decide (c = d) then relative_to p' root' else None
      end
  end.

(** ** File-system nodes and the store *)

(** A regular file carries what the scripts can observe of it: the digest
    that hashing it yields ([None]: the file cannot be read, hashing raises)
    and the modification time that [stat] yields ([None]: [stat] raises).
    A symbolic link carries its target, an absolute path. *)
Inductive node : Type :=
  | File (digest : option string) (mtime : option Q)
  | Symlink (target : path)
  | Dir.

Global Instance node_inhabited : Inhabited node := populate Dir.

Abbreviation fs := (gmap path node).

(** [lstat]: the entry at a path whose directory part holds no link.  The
    root directory always exists. *)
Definition lstat (m : fs) (p : path) : option node :=
  match p with
  | [] => Some Dir
  | _ => m !! p
  end.

(** The number of symbolic links the kernel follows in one lookup. *)
Definition SYMLOOP_MAX : nat := 40.

(** Path resolution.  [resolve_from budget m done rest] walks the
    components [rest] from the resolved directory [done], following at most
    [budget] links.  A missing component is kept as it is spelled
    ([Path.resolve] with [strict=False]); running out of budget is the
    loop error ([None]). *)
Fixpoint resolve_from (budget : nat) (m : fs) (done rest : path) {struct budget}
  : option path :=
  (fix go (done rest : path) {struct rest} : option path :=
     match rest with
     | [] => Some done
     | c :: rest' =>
         match m !! (done ++ [c]) with
         | Some (Symlink t) =>
             match budget with
             | O => None
             | S budget' => resolve_from budget' m [] (t ++ rest')
             end
         | _ => go (done ++ [c]) rest'
         end
     end) done rest.

(** [Path.resolve()]. *)
Definition resolve (m : fs) (p : path) : option path :=
  resolve_from SYMLOOP_MAX m [] p.

(** [stat]: the node a path leads to after following every link. *)
Definition stat (m : fs) (p : path) : option node :=
  match resolve m p with
  | Some q => lstat m q
  | None => None
  end.

(** [lstat] of a path as the scripts spell it: the directory part is
    resolved, the last component is not followed. *)
Definition lstat_path (m : fs) (p : path) : option node :=
  match p with
  | [] => Some Dir
  | _ =>
      match resolve m (parent p) with
      | Some q => lstat m (q ++ [name p])
      | None => None
      end
  end.

(** [Path.exists], [Path.is_file], [Path.is_dir] follow links;
    [Path.is_symlink] does not.  None of them raises. *)
Definition exists_ (m : fs) (p : path) : bool :=
  match stat m p with Some _ => true | None => false end.

Definition is_file (m : fs) (p : path) : bool :=
  match stat m p with Some (File _ _) => true | _ => false end.

Definition is_dir (m : fs) (p : path) : bool :=
  match stat m p with Some Dir => true | _ => false end.

Definition is_symlink (m : fs) (p : path) : bool :=
  match lstat_path m p with Some (Symlink _) => true | _ => false end.

(** ** Names: stem, suffix and the numbered variant *)

(** [str.rfind('.')]: the index of the last dot. *)
Fixpoint rfind_dot (s : string) : option nat :=
  match s with
  | EmptyString => None
  | String c s' =>
      match rfind_dot s' with
      | Some i => Some (S i)
      | None => if Ascii.eqb c (Ascii.ascii_of_nat 46) then Some 0%nat else None
      end
  end.

(** The index at which [pathlib] splits a name into stem and suffix: the
    last dot, unless it is the first or the last character. *)
Definition split_index (nm : string) : option nat :=
  match rfind_dot nm with
  | Some i =>
      if (0 <? i)%nat && (i <? String.length nm - 1)%nat then Some i else None
  | None => None
  end.

(** [PurePath.suffix] and [PurePath.stem]. *)
Definition suffix (nm : string) : string :=
  match split_index nm with
  | Some i => String.substring i (String.length nm - i) nm
  | None => ""
  end.

Definition stem (nm : string) : string :=
  match split_index nm with
  | Some i => String.substring 0 i nm
  | None => nm
  end.

(** [str(n)] for a natural number. *)
Definition num_str (n : nat) : string := NilEmpty.string_of_uint (Nat.to_uint n).

(** The f-string [f"{stem} ({n}){suffix}"]. *)
Definition numbered (st : string) (n : nat) (sf : string) : string :=
  st ++ " (" ++ num_str n ++ ")" ++ sf.

(** The loop [while True: candidate = ...; if not candidate.exists(): return
    candidate; n += 1], run for at most [fuel] rounds from counter [n]. *)
Fixpoint first_free (fuel : nat) (m : fs) (dir : path) (st sf : string) (n : nat)
  : option path :=
  match fuel with
  | O => None
  | S fuel' =>
      let candidate := dir ++ [numbered st n sf] in
      if exists_ m candidate then first_free fuel' m dir st sf (S n)
      else Some candidate
  end.

(** The rounds that [first_free] is given: one more than there are entries
    in the store, which is always enough ([first_free_total] below). *)
Definition rounds (m : fs) : nat := S (size m).

(** ** Directory listings and walks *)

(** The names in the directory stored at the resolved path [d], in the order
    in which the store enumerates them. *)
Definition listdir (m : fs) (d : path) : list string :=
  omap (λ kv : path * node,
          match relative_to kv.1 d with
          | Some [n] => Some n
          | _ => None
          end) (map_to_list m).

(** [os.scandir(p)] / [p.iterdir()]: the names in the directory that [p]
    leads to; [None] when [p] does not lead to a directory ([OSError]). *)
Definition scandir (m : fs) (p : path) : option (list string) :=
  match resolve m p with
  | Some d =>
      match lstat m d with
      | Some Dir => Some (listdir m d)
      | _ => None
      end
  | None => None
  end.

(** [descends m d r]: below the directory [d], every directory part of the
    relative path [r] is a real directory (never a link). *)
Fixpoint descends (m : fs) (d r : path) : bool :=
  match r with
  | [] => true
  | [_] => true
  | c :: r' =>
      match m !! (d ++ [c]) with
      | Some Dir => descends m (d ++ [c]) r'
      | _ => false
      end
  end.

(** [root.rglob("*")]: every entry below [root], reached through real
    directories only (a link to a directory is listed, not entered),
    spelled below [root].  Errors are swallowed by [pathlib]. *)
Definition rglob (m : fs) (root : path) : list path :=
  match resolve m root with
  | Some d =>
      match lstat m d with
      | Some Dir =>
          omap (λ kv : path * node,
                  match relative_to kv.1 d with
                  | Some (c :: r) =>
                      if descends m d (c :: r) then Some (root ++ c :: r) else None
                  | _ => None
                  end) (map_to_list m)
      | _ => []
      end
  | None => []
  end.

(** The depth that a walk is given.  A walk that does not follow links never
    gets deeper than there are entries; each followed link (at most
    [SYMLOOP_MAX] in one path) can start a new descent. *)
Definition walk_fuel (m : fs) : nat := S SYMLOOP_MAX * S (size m).

(** [os.walk(top, topdown=False)], keeping the directory paths only: the
    directories below [top] are listed before [top] itself; a name is a
    directory when [is_dir] says so, and is entered unless it is a link.
    A directory that cannot be listed is skipped; so is one deeper than
    [fuel], which does not happen with [walk_fuel] ([real_dir_depth]). *)
Fixpoint walk_bottomup (fuel : nat) (m : fs) (top : path) : list path :=
  match fuel with
  | O => []
  | S fuel' =>
      match scandir m top with
      | None => []
      | Some names =>
          let dirnames := filter (λ n, is_dir m (top ++ [n]) = true) names in
          flat_map (λ d, if is_symlink m (top ++ [d]) then []
                         else walk_bottomup fuel' m (top ++ [d])) dirnames
          ++ [top]
      end
  end.

(** ** Mutating system calls *)

Inductive errno : Type := ENOENT | EEXIST | EOTHER.

(** [os.mkdir(p)]. *)
Definition os_mkdir (m : fs) (p : path) : fs + errno :=
  match p with
  | [] => inr EEXIST
  | _ =>
      match resolve m (parent p) with
      | None => inr EOTHER
      | Some d =>
          match lstat m d with
          | None => inr ENOENT
          | Some Dir =>
              match m !! (d ++ [name p]) with
              | None => inl (<[d ++ [name p] := Dir]> m)
              | Some _ => inr EEXIST
              end
          | Some _ => inr EOTHER
          end
      end
  end.

(** [p.mkdir(exist_ok=True)]: [FileNotFoundError] escapes, any other
    [OSError] is passed over when [p] is a directory.  [None] is the
    exception that escapes. *)
Definition mkdir_exist_ok (m : fs) (p : path) : option fs :=
  match os_mkdir m p with
  | inl m' => Some m'
  | inr ENOENT => None
  | inr _ => if is_dir m p then Some m else None
  end.

(** [p.mkdir(parents=True, exist_ok=True)]: on [FileNotFoundError] the
    parent chain is made first.  The recursion is on the ancestors of [p],
    listed from [p] upwards. *)
Fixpoint mkdir_chain (m : fs) (p : path) (ancestors : list path) : option fs :=
  match os_mkdir m p with
  | inl m' => Some m'
  | inr ENOENT =>
      match ancestors with
      | [] => None
      | q :: ancestors' =>
          match mkdir_chain m q ancestors' with
          | Some m' => mkdir_exist_ok m' p
          | None => None
          end
      end
  | inr _ => if is_dir m p then Some m else None
  end.

(** The proper ancestors of a path, nearest first, [/] excluded. *)
Fixpoint ancestors (n : nat) (p : path) : list path :=
  match n with
  | O => []
  | S n' => match parent p with [] => [] | q => q :: ancestors n' q end
  end.

Definition mkdir_parents (m : fs) (p : path) : option fs :=
  mkdir_chain m p (ancestors (length p) p).

(** Re-keying of a subtree, for the rename of a directory. *)
Definition rekey (s d : path) (m : fs) : fs :=
  list_to_map
    (map (λ kv : path * node,
            match relative_to kv.1 s with
            | Some r => (d ++ r, kv.2)
            | None => kv
            end) (map_to_list m)).

(** [os.rename(src, dst)]: the entry named by [src] (a link is not
    followed) is put at [dst], replacing what is there when the kinds agree.
    [None] is [OSError]. *)
Definition os_rename (m : fs) (src dst : path) : option fs :=
  match src, dst with
  | [], _ | _, [] => None
  | _, _ =>
      match resolve m (parent src), resolve m (parent dst) with
      | Some ps, Some pd =>
          let s := ps ++ [name src] in
          let d := pd ++ [name dst] in
          match m !! s, lstat m pd with
          | Some n, Some Dir =>
              if decide (s = d) then Some m
              else
                match n, m !! d with
                | Dir, Some Dir =>
                    if decide (listdir m d = []) then
                      if decide (is_Some (relative_to d s)) then None
                      else Some (rekey s d (delete d m))
                    else None
                | Dir, Some _ => None
                | Dir, None =>
                    if decide (is_Some (relative_to d s)) then None
                    else Some (rekey s d m)
                | _, Some Dir => None
                | _, _ => Some (<[d := n]> (delete s m))
                end
          | _, _ => None
          end
      | _, _ => None
      end
  end.

(** [shutil.move(src, dst)] on one device: a destination that is a
    directory receives the source under its own name, and refuses when that
    name is taken; otherwise the move is a rename. *)
Definition shutil_move (m : fs) (src dst : path) : option fs :=
  if is_dir m dst then
    if bool_decide (resolve m src = resolve m dst) && negb (is_symlink m src)
    then os_rename m src dst
    else
      let real_dst := dst ++ [name src] in
      if exists_ m real_dst then None else os_rename m src real_dst
  else os_rename m src dst.

(** [os.rmdir(p)]: removes an empty real directory. *)
Definition os_rmdir (m : fs) (p : path) : option fs :=
  match p with
  | [] => None
  | _ =>
      match resolve m (parent p) with
      | Some d =>
          match m !! (d ++ [name p]) with
          | Some Dir =>
              if decide (listdir m (d ++ [name p]) = [])
              then Some (delete (d ++ [name p]) m) else None
          | _ => None
          end
      | None => None
      end
  end.

(** [file_hash(p)] / [sha256_of_file(p)]: the digest of the file that [p]
    leads to; [None] when opening or reading raises. *)
Definition file_hash (m : fs) (p : path) : option string :=
  match stat m p with
  | Some (File (Some h) _) => Some h
  | _ => None
  end.

(** ** Control: state, exceptions and exit *)

(** A run ends with a value, with an exception that escaped, or with
    [sys.exit(code)]; in each case the store is what the run left. *)
Inductive outcome (A : Type) : Type :=
  | Ok (a : A) (m : fs)
  | Raised (m : fs)
  | Exited (code : nat) (m : fs).
Arguments Ok {A} a m.
Arguments Raised {A} m.
Arguments Exited {A} code m.

Definition final {A} (o : outcome A) : fs :=
  match o with Ok _ m | Raised m | Exited _ m => m end.

Definition value {A} (o : outcome A) : option A :=
  match o with Ok a _ => Some a | _ => None end.

Definition M (A : Type) : Type := fs → outcome A.

Global Instance M_ret : MRet M := λ A a m, Ok a m.
Global Instance M_bind : MBind M := λ A B k c m,
  match c m with
  | Ok a m' => k a m'
  | Raised m' => Raised m'
  | Exited code m' => Exited code m'
  end.

(** Reading the store, raising, exiting. *)
Definition ask {A} (f : fs → A) : M A := λ m, Ok (f m) m.
Definition raise {A} : M A := λ m, Raised m.
Definition sys_exit {A} (code : nat) : M A := λ m, Exited code m.

(** A call that changes the store or raises. *)
Definition call (f : fs → option fs) : M unit := λ m,
  match f m with
  | Some m' => Ok () m'
  | None => Raised m
  end.

(** A value that is there or raises. *)
Definition check {A} (f : fs → option A) : M A := λ m,
  match f m with
  | Some a => Ok a m
  | None => Raised m
  end.

(** [try: c  except Exception: return a]: [sys.exit] is not caught. *)
Definition try_except {A} (c : M A) (a : A) : M A := λ m,
  match c m with
  | Raised m' => Ok a m'
  | o => o
  end.

(** * Pipeline B: [move_unique_from_older.py] *)

Module Mover.

(** [unique_destination_path(dest_path)]. *)
Definition unique_destination_path (m : fs) (dest_path : path) : path :=
  if negb (exists_ m dest_path) then dest_path
  else
    default dest_path
      (first_free (rounds m) m (parent dest_path)
         (stem (name dest_path)) (suffix (name dest_path)) 1).

(** [ensure_parent_dir(path)]. *)
Definition ensure_parent_dir (p : path) : M unit :=
  call (λ m, mkdir_parents m (parent p)).

(** [is_subpath(path, potential_parent)]: any exception is [False]. *)
Definition is_subpath (m : fs) (p potential_parent : path) : bool :=
  match resolve m p, resolve m potential_parent with
  | Some a, Some b => bool_decide (is_Some (relative_to a b))
  | _, _ => false
  end.

(** [iter_paths(root)]. *)
Definition iter_paths (m : fs) (root : path) : list path := rglob m root.

(** [count_items(root)]: the numbers of files, of links and of
    directories below [root]; a link counts as a link, whatever it leads
    to. *)
Definition count_items (m : fs) (root : path) : nat * nat * nat :=
  foldl (λ '(files, syms, dirs) p,
           if is_symlink m p then (files, S syms, dirs)
           else if is_file m p then (S files, syms, dirs)
           else if is_dir m p then (files, syms, S dirs)
           else (files, syms, dirs))
        (0, 0, 0)%nat (iter_paths m root).

(** [build_hash_set(main_root, logger, algo)]; an exception in the loop
    body is logged and the entry skipped. *)
Definition build_hash_set (m : fs) (main_root : path) : gset string :=
  foldl (λ (hashes : gset string) p,
           if is_symlink m p then hashes
           else if is_file m p then
             match file_hash m p with
             | Some h => {[ h ]} ∪ hashes
             | None => hashes
             end
           else hashes)
        ∅ (iter_paths m main_root).

Record plan : Type := Plan {
  moves_regular : list (path * path);
  moves_syms : list (path * path);
  scanned_regular : nat
}.

(** One round of the loop of [plan_moves]. *)
Definition plan_step (m : fs) (main_hashes : gset string)
    (older_root dest_root symlinks_dest : path) (acc : plan) (p : path) : plan :=
  if is_symlink m p then
    match relative_to p older_root with
    | Some rel =>
        let dest := unique_destination_path m (symlinks_dest ++ rel) in
        Plan (moves_regular acc) (moves_syms acc ++ [(p, dest)]) (scanned_regular acc)
    | None => acc
    end
  else if is_file m p then
    match file_hash m p with
    | Some h =>
        if decide (h ∉ main_hashes) then
          match relative_to p older_root with
          | Some rel =>
              let dest := unique_destination_path m (dest_root ++ rel) in
              Plan (moves_regular acc ++ [(p, dest)]) (moves_syms acc)
                   (S (scanned_regular acc))
          | None => acc
          end
        else Plan (moves_regular acc) (moves_syms acc) (S (scanned_regular acc))
    | None => acc
    end
  else acc.

(** [plan_moves(main_hashes, older_root, dest_root, symlinks_dest, ...)]. *)
Definition plan_moves (m : fs) (main_hashes : gset string)
    (older_root dest_root symlinks_dest : path) : plan :=
  foldl (plan_step m main_hashes older_root dest_root symlinks_dest)
        (Plan [] [] 0) (iter_paths m older_root).

(** The second loop of [remove_empty_dirs]: the root is passed over; a
    directory without entries is removed; a failure is logged. *)
Fixpoint remove_loop (older_root : path) (all_dirs : list path) (removed : list path)
  : M (list path) :=
  match all_dirs with
  | [] => mret removed
  | p :: rest =>
      rp ← check (λ m, resolve m p);
      rr ← check (λ m, resolve m older_root);
      if decide (rp = rr) then remove_loop older_root rest removed
      else
        removed' ← try_except
          (names ← check (λ m, scandir m p);
           if decide (names = []) then
             call (λ m, os_rmdir m p);; mret (removed ++ [p])
           else mret removed)
          removed;
        remove_loop older_root rest removed'
  end.

(** [remove_empty_dirs(older_root, logger)]. *)
Definition remove_empty_dirs (older_root : path) : M (list path) :=
  all_dirs ← ask (λ m, walk_bottomup (walk_fuel m) m older_root);
  remove_loop older_root all_dirs [].

(** The loops 3a and 3b of [main]: each pair is moved on its own, a
    failure is logged; the count of the moves that went through. *)
Fixpoint move_all (moves : list (path * path)) (moved : nat) : M nat :=
  match moves with
  | [] => mret moved
  | (src, dst) :: rest =>
      moved' ← try_except
        (ensure_parent_dir dst;;
         call (λ m, shutil_move m src dst);;
         mret (S moved))
        moved;
      move_all rest moved'
  end.

Record args : Type := Args {
  main_root : path;
  older_root : path;
  dest_root : path;
  symlinks_dest : path;
  apply : bool;
  keep_empty_dirs : bool
}.

Record summary : Type := Summary {
  planned : plan;
  moved_regular : nat;
  moved_syms : nat;
  removed_dirs : list path
}.

(** The validation loop of [main]. *)
Fixpoint validate_roots (roots : list path) : M unit :=
  match roots with
  | [] => mret ()
  | p :: rest =>
      ok ← ask (λ m, exists_ m p && is_dir m p);
      if ok : bool then validate_roots rest else sys_exit 2
  end.

(** The loop of [main] that refuses a destination inside the main tree. *)
Fixpoint refuse_inside (main_root : path) (targets : list path) : M unit :=
  match targets with
  | [] => mret ()
  | t :: rest =>
      inside ← ask (λ m, is_subpath m t main_root);
      if inside : bool then sys_exit 2 else refuse_inside main_root rest
  end.

(** [main()], after argument parsing; logging and progress are left out. *)
Definition main (a : args) : M summary :=
  validate_roots [main_root a; older_root a];;
  call (λ m, mkdir_parents m (dest_root a));;
  call (λ m, mkdir_parents m (symlinks_dest a));;
  rm ← check (λ m, resolve m (main_root a));
  ro ← check (λ m, resolve m (older_root a));
  if decide (rm = ro) then sys_exit 2
  else
    refuse_inside (main_root a) [dest_root a; symlinks_dest a];;
    main_hashes ← ask (λ m, build_hash_set m (main_root a));
    pl ← ask (λ m, plan_moves m main_hashes (older_root a) (dest_root a)
                     (symlinks_dest a));
    if negb (apply a) then mret (Summary pl 0 0 [])
    else
      moved_r ← move_all (moves_regular pl) 0;
      moved_s ← move_all (moves_syms pl) 0;
      removed ← (if keep_empty_dirs a then mret []
                 else remove_empty_dirs (older_root a));
      mret (Summary pl moved_r moved_s removed).

End Mover.

(** * Pipeline A: [deduplicate_keep_newest_in_place.py] *)

Module Dedup.

(** The name of the quarantine directory below the main directory. *)
Definition duplicates_name : string := "Duplikáty".

(** [sha256_of_file(path)]. *)
Definition sha256_of_file (m : fs) (p : path) : option string := file_hash m p.

(** [unique_destination(base_dir, filename)]. *)
Definition unique_destination (m : fs) (base_dir : path) (filename : string) : path :=
  let candidate := base_dir ++ [filename] in
  if negb (exists_ m candidate) then candidate
  else
    default candidate
      (first_free (rounds m) m base_dir (stem filename) (suffix filename) 1).

(** [any(p.resolve() == k.resolve() for k in keep)]; [None] when a
    resolution raises. *)
Fixpoint is_kept (m : fs) (p : path) (keep : list path) : option bool :=
  match keep with
  | [] => Some false
  | k :: keep' =>
      match resolve m p, resolve m k with
      | Some rp, Some rk =>
          if decide (rp = rk) then Some true else is_kept m p keep'
      | _, _ => None
      end
  end.

(** The loop of [remove_empty_dirs] over the directories that
    [os.walk(root, topdown=False)] yields. *)
Fixpoint remove_loop (root : path) (keep : list path) (dirs : list path) : M unit :=
  match dirs with
  | [] => mret ()
  | p :: rest =>
      skip ← (if decide (p = root) then mret true
              else check (λ m, is_kept m p keep));
      (if skip : bool then mret ()
       else
         try_except
           (names ← check (λ m, scandir m p);
            if decide (names = []) then call (λ m, os_rmdir m p) else mret ())
           ());;
      remove_loop root keep rest
  end.

(** [remove_empty_dirs(root, keep)].  The generator lists a directory
    before it yields the directories below it, and the loop removes only
    directories that were yielded, so the walk is taken on the store as it
    is at the start. *)
Definition remove_empty_dirs (root : path) (keep : list path) : M unit :=
  dirs ← ask (λ m, walk_bottomup (walk_fuel m) m root);
  remove_loop root keep dirs.

(** [dirnames[:] = [d for d in dirnames if (Path(dirpath) / d).resolve()
    != duplicates_dir.resolve()]]; [None] when a resolution raises. *)
Fixpoint prune (m : fs) (duplicates_dir dirpath : path) (dirnames : list string)
  : option (list string) :=
  match dirnames with
  | [] => Some []
  | d :: dirnames' =>
      match resolve m (dirpath ++ [d]), resolve m duplicates_dir with
      | Some a, Some b =>
          match prune m duplicates_dir dirpath dirnames' with
          | Some rest => Some (if decide (a = b) then rest else d :: rest)
          | None => None
          end
      | _, _ => None
      end
  end.

(** The scanning loop of [main] over [os.walk(main_dir,
    followlinks=...)]: the files of a directory, then the directories kept
    in [dirnames], each entered unless it is a link that is not to be
    followed.  A directory that cannot be listed is skipped; so is one
    deeper than [fuel], which does not happen with [walk_fuel] when links are
    not followed ([scanned_depth]). *)
Fixpoint scan (fuel : nat) (m : fs) (followlinks : bool)
    (duplicates_dir dirpath : path) : option (list path) :=
  match fuel with
  | O => Some []
  | S fuel' =>
      match scandir m dirpath with
      | None => Some []
      | Some names =>
          let dirnames := filter (λ n, is_dir m (dirpath ++ [n]) = true) names in
          let filenames := filter (λ n, is_dir m (dirpath ++ [n]) = false) names in
          match prune m duplicates_dir dirpath dirnames with
          | None => None
          | Some kept =>
              let files :=
                filter (λ p, is_file m p = true)
                       (map (λ n, dirpath ++ [n]) filenames) in
              match
                mapM (λ d,
                        if followlinks || negb (is_symlink m (dirpath ++ [d]))
                        then scan fuel' m followlinks duplicates_dir (dirpath ++ [d])
                        else Some []) kept
              with
              | Some below => Some (files ++ concat below)
              | None => None
              end
          end
      end
  end.

(** [by_hash.setdefault(file_hash, []).append(fpath)] on a dictionary
    that keeps its keys in the order of their first insertion. *)
Fixpoint setdefault_append (by_hash : list (string * list path))
    (h : string) (p : path) : list (string * list path) :=
  match by_hash with
  | [] => [(h, [p])]
  | (k, ps) :: rest =>
      if decide (k = h) then (k, ps ++ [p]) :: rest
      else (k, ps) :: setdefault_append rest h p
  end.

(** The hashing loop of [main]: a file that cannot be hashed is skipped. *)
Definition group_files (m : fs) (files : list path) : list (string * list path) :=
  foldl (λ by_hash fpath,
           match sha256_of_file m fpath with
           | Some h => setdefault_append by_hash h fpath
           | None => by_hash
           end) [] files.

(** [mtime(p)]: the time of the file that [p] leads to, or [-1.0]. *)
Definition mtime (m : fs) (p : path) : Q :=
  match stat m p with
  | Some (File _ (Some t)) => t
  | _ => -1
  end.

(** [max(x :: l, key=key)]: the first of the greatest. *)
Fixpoint max_by (key : path → Q) (x : path) (l : list path) : path :=
  match l with
  | [] => x
  | y :: l' => max_by key (if Qlt_le_dec (key x) (key y) then y else x) l'
  end.

Definition Qltb (x y : Q) : bool := negb (Qle_bool y x).

Definition eps : Q := 1 # 1000000.

(** The order of the keys [(len(str(p)), str(p))]. *)
Definition key_lt (p q : path) : bool :=
  let a := str p in
  let b := str q in
  (length a <? length b)%nat
  || ((length a =? length b)%nat && str_ltb a b).

(** [sorted(l, key=...)]: a stable insertion sort. *)
Fixpoint insert_sorted (x : path) (l : list path) : list path :=
  match l with
  | [] => [x]
  | y :: l' => if key_lt x y then x :: y :: l' else y :: insert_sorted x l'
  end.

Definition sorted_by_key (l : list path) : list path :=
  foldl (λ acc x, insert_sorted x acc) [] l.

(** The choice of the file that stays, for a group [p0 :: rest]. *)
Definition choose_newest (m : fs) (p0 : path) (rest : list path) : path :=
  let paths := p0 :: rest in
  let newest := max_by (mtime m) p0 rest in
  let max_m := mtime m newest in
  let ties := filter (λ p, Qltb (Qabs (mtime m p - max_m)) eps = true) paths in
  if (1 <? length ties)%nat then hd newest (sorted_by_key ties) else newest.

(** The inner loop of the planning: every other member of the group gets
    a destination below the quarantine directory. *)
Fixpoint plan_group (dry_run : bool) (main_dir duplicates_dir newest : path)
    (paths : list path) (actions : list (path * path)) : M (list (path * path)) :=
  match paths with
  | [] => mret actions
  | p :: rest =>
      if decide (p = newest) then
        plan_group dry_run main_dir duplicates_dir newest rest actions
      else
        rp ← check (λ m, resolve m p);
        rmain ← check (λ m, resolve m main_dir);
        rel ← check (λ _, relative_to rp rmain);
        let dst_parent := parent (duplicates_dir ++ rel) in
        (if dry_run then mret () else call (λ m, mkdir_parents m dst_parent));;
        let dst_final := duplicates_dir ++ rel in
        taken ← ask (λ m, exists_ m dst_final);
        dst ← (if taken : bool
               then ask (λ m, unique_destination m dst_parent (name p))
               else mret dst_final);
        plan_group dry_run main_dir duplicates_dir newest rest (actions ++ [(p, dst)])
  end.

(** The planning loop over [by_hash.items()]. *)
Fixpoint plan_groups (dry_run : bool) (main_dir duplicates_dir : path)
    (by_hash : list (string * list path))
    (actions : list (path * path)) (kept : list path)
  : M (list (path * path) * list path) :=
  match by_hash with
  | [] => mret (actions, kept)
  | (_, paths) :: rest =>
      match paths with
      | [] => plan_groups dry_run main_dir duplicates_dir rest actions kept
      | [p] => plan_groups dry_run main_dir duplicates_dir rest actions (kept ++ [p])
      | p0 :: ps =>
          newest ← ask (λ m, choose_newest m p0 ps);
          actions' ← plan_group dry_run main_dir duplicates_dir newest paths actions;
          plan_groups dry_run main_dir duplicates_dir rest actions' (kept ++ [newest])
      end
  end.

(** The moving loop: a failure is printed, the pair is recorded here. *)
Fixpoint move_all (dry_run : bool) (actions : list (path * path))
    (failed : list (path * path)) : M (list (path * path)) :=
  match actions with
  | [] => mret failed
  | (src, dst) :: rest =>
      if dry_run then move_all dry_run rest failed
      else
        failed' ← try_except
          (call (λ m, mkdir_parents m (parent dst));;
           call (λ m, shutil_move m src dst);;
           mret failed)
          (failed ++ [(src, dst)]);
        move_all dry_run rest failed'
  end.

Record args : Type := Args {
  main_dir : path;
  dry_run : bool;
  follow_symlinks : bool
}.

Record report : Type := Report {
  actions : list (path * path);
  kept : list path;
  failed : list (path * path)
}.

(** [main()], after argument parsing; printing is left out. *)
Definition main (a : args) : M report :=
  main_dir ← check (λ m, resolve m (main_dir a));
  ok ← ask (λ m, exists_ m main_dir && is_dir m main_dir);
  if negb ok then sys_exit 1
  else
    let duplicates_dir := main_dir ++ [duplicates_name] in
    (if dry_run a then mret ()
     else call (λ m, mkdir_exist_ok m duplicates_dir));;
    files ← check (λ m, scan (walk_fuel m) m (follow_symlinks a)
                           duplicates_dir main_dir);
    by_hash ← ask (λ m, group_files m files);
    ak ← plan_groups (dry_run a) main_dir duplicates_dir by_hash [] [];
    failed ← move_all (dry_run a) ak.1 [];
    (if dry_run a then mret ()
     else remove_empty_dirs main_dir [duplicates_dir]);;
    mret (Report ak.1 ak.2 failed).

End Dedup.

(** * Specification predicates and example stores *)

(** [first_unused m dir nm r]: [r] is the name [nm] numbered with the least
    [n ≥ 1] for which the numbered name does not exist in [dir]. *)
Definition first_unused (m : fs) (dir : path) (nm : string) (r : path) : Prop :=
  ∃ n : nat, (1 ≤ n)%nat ∧
    r = dir ++ [numbered (stem nm) n (suffix nm)] ∧
    ∀ j : nat, (1 ≤ j < n)%nat →
      exists_ m (dir ++ [numbered (stem nm) j (suffix nm)]) = true.

(** [holds_digest h m]: some regular file of the store has the digest [h]. *)
Definition has_digest (h : string) (nd : node) : bool :=
  match nd with
  | File (Some h') _ => String.eqb h h'
  | _ => false
  end.

Definition holds_digest (h : string) (m : fs) : bool :=
  existsb (λ kv : path * node, has_digest h kv.2) (map_to_list m).

(** A store on which two planned moves of pipeline B get one destination:
    the destination tree already holds [a.txt], and the older tree holds
    both [a.txt] and [a (1).txt]. *)
Definition collide_fs : fs :=
  list_to_map
    [ (["cur"], Dir); (["old"], Dir); (["dst"], Dir); (["sym"], Dir);
      (["old"; "a.txt"], File (Some "B") None);
      (["old"; "a (1).txt"], File (Some "C") None);
      (["dst"; "a.txt"], File (Some "D") None) ].

Definition collide_args : Mover.args :=
  Mover.Args ["cur"] ["old"] ["dst"] ["sym"] true true.

(** [regular_file_at m p h]: the entry at [p] is a regular file (no link)
    whose content has the digest [h]. *)
Definition regular_file_at (m : fs) (p : path) (h : string) : Prop :=
  ∃ t, lstat_path m p = Some (File (Some h) t).


(** A store for the membership scenario: the current tree has content [A];
    the older tree has content [A] twice, content [B] once, and a link. *)
Definition member_fs : fs :=
  list_to_map
    [ (["cur"], Dir); (["old"], Dir); (["dst"], Dir); (["sym"], Dir);
      (["cur"; "x"], File (Some "A") (Some 1%Q));
      (["old"; "y"], File (Some "A") None);
      (["old"; "sub"], Dir);
      (["old"; "sub"; "z"], File (Some "A") None);
      (["old"; "sub"; "b.txt"], File (Some "B") None);
      (["old"; "sub"; "l"], Symlink ["cur"; "x"]) ].

(** What the walked entry [p] adds to the regular moves of a plan, and to
    its link moves. *)
Definition adds_regular (m : fs) (main_hashes : gset string)
    (older_root dest_root : path) (p : path) (pd : path * path) : Prop :=
  pd.1 = p ∧ is_symlink m p = false ∧ is_file m p = true ∧
  ∃ h rel, file_hash m p = Some h ∧ (h ∉ main_hashes) ∧
           relative_to p older_root = Some rel ∧
           pd.2 = Mover.unique_destination_path m (dest_root ++ rel).

Definition adds_link (m : fs) (older_root symlinks_dest : path)
    (p : path) (pd : path * path) : Prop :=
  pd.1 = p ∧ is_symlink m p = true ∧
  ∃ rel, relative_to p older_root = Some rel ∧
         pd.2 = Mover.unique_destination_path m (symlinks_dest ++ rel).

(** [key_le p q]: the path string of [p] is shorter than that of [q], or as
    long and not greater in the lexicographic order of strings. *)
Definition key_le (p q : path) : Prop :=
  (length (str p) < length (str q))%nat ∨
  (length (str p) = length (str q) ∧
   (str p = str q ∨ lexico (str p) (str q))).

(** [utf8_encodes pre c]: the bytes [pre] are what [utf8_decode] reads as the
    one character [c]. *)
Definition utf8_encodes (pre : list N) (c : N) : Prop :=
  (pre = [c] ∧ c < 128)%N ∨
  (∃ b b1, pre = [b; b1] ∧ 194 ≤ b ≤ 223 ∧ 128 ≤ b1 ≤ 191 ∧
           c = (b - 192) * 64 + (b1 - 128))%N ∨
  (∃ b b1 b2, pre = [b; b1; b2] ∧ 224 ≤ b ≤ 239 ∧ 128 ≤ b1 ≤ 191 ∧
           (b = 224 → 160 ≤ b1) ∧ (b = 237 → b1 ≤ 159) ∧ 128 ≤ b2 ≤ 191 ∧
           c = (b - 224) * 4096 + (b1 - 128) * 64 + (b2 - 128))%N ∨
  (∃ b b1 b2 b3, pre = [b; b1; b2; b3] ∧ 240 ≤ b ≤ 244 ∧ 128 ≤ b1 ≤ 191 ∧
           (b = 240 → 144 ≤ b1) ∧ (b = 244 → b1 ≤ 143) ∧ 128 ≤ b2 ≤ 191 ∧
           128 ≤ b3 ≤ 191 ∧
           c = (b - 240) * 262144 + (b1 - 128) * 4096 + (b2 - 128) * 64 + (b3 - 128))%N ∨
  (∃ b, pre = [b] ∧ 128 ≤ b < 256 ∧ c = 56320 + b)%N.

(** [tied m M p]: the time of [p] is within [eps] of [M]. *)
Definition tied (m : fs) (M : Q) (p : path) : Prop :=
  (Qabs (Dedup.mtime m p - M) < Dedup.eps)%Q.

(** [is_max_mtime m paths M]: [M] is the greatest time among [paths]. *)
Definition is_max_mtime (m : fs) (paths : list path) (M : Q) : Prop :=
  (∃ p, p ∈ paths ∧ (Dedup.mtime m p == M)%Q) ∧
  ∀ p, p ∈ paths → (Dedup.mtime m p <= M)%Q.

(** A group of three copies with the times 10, 10 and 11. *)
Definition times_fs : fs :=
  list_to_map
    [ (["r"], Dir);
      (["r"; "a"], File (Some "A") (Some 10%Q));
      (["r"; "b"], File (Some "A") (Some 10%Q));
      (["r"; "c"], File (Some "A") (Some 11%Q));
      (["r"; "u"], File (Some "A") None) ].


(** Two copies of one age, one with a name outside ASCII: [éé] is two
    characters in four bytes. *)
Definition accent_fs : fs :=
  list_to_map
    [ (["r"], Dir);
      (["r"; "abc"], File (Some "A") (Some 10%Q));
      (["r"; "éé"], File (Some "A") (Some 10%Q)) ].

(** [pure_ c]: the computation [c] leaves the store as it finds it, however
    it ends. *)
Definition pure_ {A} (c : M A) : Prop := ∀ m, final (c m) = m.

(** A store with a current and an older tree and no destination roots. *)
Definition dry_fs : fs :=
  list_to_map
    [ (["cur"], Dir); (["old"], Dir);
      (["cur"; "x"], File (Some "A") (Some 1%Q));
      (["old"; "y"], File (Some "B") (Some 2%Q)) ].

(** Pipeline B without [--apply]. *)
Definition dry_args : Mover.args :=
  Mover.Args ["cur"] ["old"] ["dst"] ["sym"] false false.

(** Pipeline B with a destination inside the current tree. *)
Definition nested_args : Mover.args :=
  Mover.Args ["cur"] ["old"] ["cur"; "dst"] ["sym"] true false.

(** Pipeline B with the older tree given as the current tree. *)
Definition same_args : Mover.args :=
  Mover.Args ["cur"] ["cur"] ["dst"] ["sym"] true false.

(** A store with a file and a link to it. *)
Definition link_fs : fs :=
  list_to_map
    [ (["r"], Dir);
      (["r"; "x.txt"], File (Some "A") (Some 20%Q));
      (["r"; "l"], Symlink ["r"; "x.txt"]) ].

(** ** Reclamation *)

(** [real_dir m d rel]: below the directory [d], every component of [rel]
    names a real directory. *)
Fixpoint real_dir (m : fs) (d rel : path) : Prop :=
  match rel with
  | [] => True
  | c :: r => m !! (d ++ [c]) = Some Dir ∧ real_dir m (d ++ [c]) r
  end.

(** [below p q]: [q] lies strictly below [p]. *)
Definition below (p q : path) : Prop := ∃ c r, q = p ++ c :: r.

(** [bottom_up l]: no path of [l] is followed by a path below it. *)
Fixpoint bottom_up (l : list path) : Prop :=
  match l with
  | [] => True
  | p :: l' => (∀ q, q ∈ l' → ¬ below p q) ∧ bottom_up l'
  end.

(** [dir_deleted m0 m]: [m] is [m0] without some of its directories. *)
Definition dir_deleted (m0 m : fs) : Prop :=
  ∀ k, m !! k = m0 !! k ∨ (m0 !! k = Some Dir ∧ m !! k = None).

(** What the body of either removal loop does to the store at a directory
    that is not passed over. *)
Definition reclaim_step (m : fs) (p : path) : fs :=
  match scandir m p with
  | Some [] =>
      match os_rmdir m p with
      | Some m' => m'
      | None => m
      end
  | _ => m
  end.

Definition reclaim (skip : path → bool) (dirs : list path) (m : fs) : fs :=
  foldl (λ m p, if skip p then m else reclaim_step m p) m dirs.

(** A store in which a destination root of pipeline B lies inside the older
    tree, and everything in the older tree is already in the current one. *)
Definition inside_fs : fs :=
  list_to_map
    [ (["cur"], Dir); (["old"], Dir);
      (["cur"; "x"], File (Some "A") (Some 1%Q));
      (["old"; "x"], File (Some "A") (Some 1%Q));
      (["old"; "e"], Dir); (["old"; "e"; "f"], Dir) ].

Definition inside_args : Mover.args :=
  Mover.Args ["cur"] ["old"] ["old"; "dst"] ["sym"] true false.

(** [kept_by m keep p]: [p] resolves to what some path of [keep] resolves
    to. *)
Definition kept_by (m : fs) (keep : list path) (p : path) : bool :=
  existsb (λ k, bool_decide (resolve m p = resolve m k)) keep.

(** ** A second run of pipeline A *)

(** [no_links m]: the store holds no symbolic link. *)
Definition no_links (m : fs) : Prop := ∀ k t, m !! k ≠ Some (Symlink t).

(** [inherits D m m']: what [m'] holds outside the subtree of [D], [m]
    holds too. *)
Definition inherits (D : path) (m m' : fs) : Prop :=
  ∀ k x, ¬ D `prefix_of` k → m' !! k = Some x → m !! k = Some x.

(** [scanned m D top rel]: [top ++ rel] is a regular file reached from
    [top] through real directories, none of which is [D]. *)
Fixpoint scanned (m : fs) (D top rel : path) : Prop :=
  match rel with
  | [] => False
  | d :: rel' =>
      match rel' with
      | [] => ∃ h t, m !! (top ++ [d]) = Some (File h t)
      | _ => m !! (top ++ [d]) = Some Dir ∧ top ++ [d] ≠ D ∧
             scanned m D (top ++ [d]) rel'
      end
  end.

(** A tree with two copies of one content, for two runs in a row. *)
Definition twice_fs : fs :=
  list_to_map
    [ (["r"], Dir); (["r"; "a"], Dir); (["r"; "b"], Dir);
      (["r"; "a"; "x.txt"], File (Some "A") (Some 10%Q));
      (["r"; "b"; "x.txt"], File (Some "A") (Some 20%Q)) ].

(** A tree whose quarantine entry is a link back to the tree root. *)
Definition loop_fs : fs :=
  list_to_map
    [ (["r"], Dir);
      (["r"; Dedup.duplicates_name], Symlink ["r"]);
      (["r"; "x1"], File (Some "A") (Some 10%Q));
      (["r"; "x2"], File (Some "A") (Some 5%Q)) ].

Definition apply_args : Dedup.args := Dedup.Args ["r"] false false.

(** [group_of by_hash h]: the list that the dictionary holds for [h]. *)
Fixpoint group_of (by_hash : list (string * list path)) (h : string) : list path :=
  match by_hash with
  | [] => []
  | (k, ps) :: rest => if decide (k = h) then ps else group_of rest h
  end.

(** [tree_ok R m]: the store is free of links, the tree root [R] is a
    directory and so is the quarantine directory below it. *)
Definition tree_ok (R : path) (m : fs) : Prop :=
  no_links m ∧ lstat m R = Some Dir ∧
  m !! (R ++ [Dedup.duplicates_name]) = Some Dir.


(** ** Directories that a run adds *)

(** [dir_added m m']: [m'] is [m] with some directories added; nothing
    that [m] holds is changed or gone. *)
Definition dir_added (m m' : fs) : Prop :=
  ∀ k, m' !! k = m !! k ∨ (m !! k = None ∧ m' !! k = Some Dir).

(** [wf m]: every entry of the store lies in a directory of the store. *)
Definition wf (m : fs) : Prop :=
  ∀ k x, m !! k = Some x → lstat m (parent k) = Some Dir.

(** The same, as a test. *)
Definition wfb (m : fs) : bool :=
  forallb (λ kv : path * node,
             match lstat m (parent kv.1) with Some Dir => true | _ => false end)
          (map_to_list m).

(** [keeps R c]: however the computation [c] ends, the store it leaves is
    related by [R] to the store it found. *)
Definition keeps {A : Type} (R : fs → fs → Prop) (c : M A) : Prop :=
  ∀ m, R m (final (c m)).

(** [no_exit c]: the computation [c] never ends in [sys.exit]. *)
Definition no_exit {A : Type} (c : M A) : Prop :=
  ∀ m code m', c m ≠ Exited code m'.

(** [no_raise c]: no exception escapes from the computation [c]. *)
Definition no_raise {A : Type} (c : M A) : Prop :=
  ∀ m m', c m ≠ Raised m'.

(** ** The plan of pipeline B, entry by entry *)

(** [hashed m p]: the walked entry [p] is no link and leads to a regular
    file that can be read. *)
Definition hashed (m : fs) (p : path) : bool :=
  negb (is_symlink m p) && is_file m p &&
  match file_hash m p with Some _ => true | None => false end.

(** [wanted m main_hashes p]: moreover, its digest is not among
    [main_hashes]. *)
Definition wanted (m : fs) (main_hashes : gset string) (p : path) : bool :=
  negb (is_symlink m p) && is_file m p &&
  match file_hash m p with
  | Some h => bool_decide (h ∉ main_hashes)
  | None => false
  end.

(** [nothing_below m d]: no entry of the store lies at or below [d]. *)
Definition nothing_below (m : fs) (d : path) : bool :=
  forallb (λ kv : path * node, negb (bool_decide (d `prefix_of` kv.1)))
          (map_to_list m).

(** [placed m main_dir p]: the place of [p] relative to the main
    directory, both resolved; [None] when a resolution fails or [p] leads
    out of the main directory. *)
Definition placed (m : fs) (main_dir p : path) : option path :=
  match resolve m p, resolve m main_dir with
  | Some rp, Some rmain => relative_to rp rmain
  | _, _ => None
  end.

(** A tree with a link that leads out of it, to a copy of a file of the
    tree. *)
Definition outside_fs : fs :=
  list_to_map
    [ (["r"], Dir); (["o"], Dir);
      (["r"; "a"], File (Some "A") (Some 20%Q));
      (["o"; "b"], File (Some "A") (Some 10%Q));
      (["r"; "l"], Symlink ["o"; "b"]) ].

(** ** What a run can touch *)

(** [comparable p q]: one of the two paths lies at or below the other. *)
Definition comparable (p q : path) : Prop := p `prefix_of` q ∨ q `prefix_of` p.

(** [same_outside P m m']: at every key that [P] does not hold of, [m']
    has what [m] has. *)
Definition same_outside (P : path → Prop) (m m' : fs) : Prop :=
  ∀ k, ¬ P k → m' !! k = m !! k.

(** [touches_only P m m']: from a store without links, the run leaves a
    store without links that differs at most at the keys that [P] holds
    of. *)
Definition touches_only (P : path → Prop) (m m' : fs) : Prop :=
  no_links m → no_links m' ∧ same_outside P m m'.

(** The keys that pipeline B may touch: what lies in the older tree, and
    what lies in a destination tree or above a destination root. *)
Definition mover_region (a : Mover.args) (k : path) : Prop :=
  Mover.older_root a `prefix_of` k ∨
  comparable k (Mover.dest_root a) ∨ comparable k (Mover.symlinks_dest a).

(** ** Moves that go through *)

(** [clear_way m d]: nothing but directories lies above [d]: every proper
    prefix of [d] is a directory or is missing. *)
Definition clear_way (m : fs) (d : path) : Prop :=
  ∀ q, q ≠ [] → q `prefix_of` d → q ≠ d → m !! q = None ∨ m !! q = Some Dir.

(** [file_at m p]: the entry at [p] is a regular file. *)
Definition file_at (m : fs) (p : path) : Prop := ∃ h t, m !! p = Some (File h t).

(** A store for an apply run of pipeline B: the destination roots are
    there and empty; the older tree has a copy of a file of the current
    tree and, in a directory of its own, a file that the current tree does
    not have. *)
Definition apply_fs : fs :=
  list_to_map
    [ (["cur"], Dir); (["old"], Dir); (["dst"], Dir); (["sym"], Dir);
      (["cur"; "x"], File (Some "A") (Some 1%Q));
      (["old"; "y"], File (Some "A") (Some 2%Q));
      (["old"; "sub"], Dir);
      (["old"; "sub"; "z"], File (Some "B") (Some 3%Q)) ].

Definition mover_apply_args : Mover.args :=
  Mover.Args ["cur"] ["old"] ["dst"] ["sym"] true false.

(** [file_stays k m m']: from a store without links, the run leaves a
    store without links in which a regular file at [k] is as it was. *)
Definition file_stays (k : path) (m m' : fs) : Prop :=
  no_links m → no_links m' ∧ (file_at m k → m' !! k = m !! k).
(** * Facts about the file-system model *)

Local Open Scope nat_scope.

Section Resolution.
Context (m : fs).

Lemma resolve_from_nil b done : resolve_from b m done [] = Some done.
Proof. by destruct b. Qed.

Lemma resolve_from_cons b done c rest :
  resolve_from b m done (c :: rest) =
    match m !! (done ++ [c]) with
    | Some (Symlink t) =>
        match b with
        | O => None
        | S b' => resolve_from b' m [] (t ++ rest)
        end
    | _ => resolve_from b m (done ++ [c]) rest
    end.
Proof. by destruct b. Qed.

(** Resolving [rest ++ [c]] resolves [rest] first, whatever [c] is. *)
Lemma resolve_from_last b : ∀ done rest,
  (∀ c, resolve_from b m done (rest ++ [c]) = None) ∨
  (∃ b' d', ∀ c, resolve_from b m done (rest ++ [c]) = resolve_from b' m d' [c]).
Proof.
  induction b as [b IHb] using lt_wf_ind.
  intros done rest; revert done.
  induction rest as [|c0 rest IH]; intros done.
  - right. by exists b, done.
  - destruct (m !! (done ++ [c0])) as [[| t |]|] eqn:E.
    + destruct (IH (done ++ [c0])) as [H|(b' & d' & H)]; [left|right; exists b', d'];
        intros c; rewrite <- app_comm_cons, resolve_from_cons, E; apply H.
    + destruct b as [|b'].
      * left. intros c. by rewrite <- app_comm_cons, resolve_from_cons, E.
      * destruct (IHb b' (Nat.lt_succ_diag_r b') [] (t ++ rest)) as [H|(b'' & d' & H)];
          [left|right; exists b'', d']; intros c;
          rewrite <- app_comm_cons, resolve_from_cons, E, (app_assoc t rest [c]); apply H.
    + destruct (IH (done ++ [c0])) as [H|(b' & d' & H)]; [left|right; exists b', d'];
        intros c; rewrite <- app_comm_cons, resolve_from_cons, E; apply H.
    + destruct (IH (done ++ [c0])) as [H|(b' & d' & H)]; [left|right; exists b', d'];
        intros c; rewrite <- app_comm_cons, resolve_from_cons, E; apply H.
Qed.

Lemma lstat_snoc d c : lstat m (d ++ [c]) = m !! (d ++ [c]).
Proof. unfold lstat. by destruct d. Qed.

(** A name that exists in a directory is a key of the store. *)
Lemma resolved_last_is_key b d c q n :
  resolve_from b m d [c] = Some q → lstat m q = Some n → is_Some (m !! (d ++ [c])).
Proof.
  rewrite resolve_from_cons. intros Hr Hl.
  destruct (m !! (d ++ [c])) as [x|] eqn:E; [by eexists|].
  rewrite resolve_from_nil in Hr. injection Hr as <-.
  rewrite lstat_snoc in Hl. congruence.
Qed.

(** Resolving [rest ++ [c]] when [rest] resolves to [q]: a last
    component that is no link is appended. *)
Lemma resolve_from_snoc b : ∀ done rest q c,
  resolve_from b m done rest = Some q →
  (∀ t, m !! (q ++ [c]) ≠ Some (Symlink t)) →
  resolve_from b m done (rest ++ [c]) = Some (q ++ [c]).
Proof.
  induction b as [b IHb] using lt_wf_ind.
  intros done rest; revert done.
  induction rest as [|c0 rest IH]; intros done q c Hr Hc.
  - rewrite resolve_from_nil in Hr. injection Hr as ->.
    rewrite app_nil_l, resolve_from_cons, resolve_from_nil.
    destruct (m !! (q ++ [c])) as [[| t |]|] eqn:E; try done. by destruct (Hc t).
  - rewrite <- app_comm_cons, resolve_from_cons.
    rewrite resolve_from_cons in Hr.
    destruct (m !! (done ++ [c0])) as [[| t |]|] eqn:E; try by apply IH.
    destruct b as [|b']; [done|].
    rewrite (app_assoc t rest [c]). apply IHb; [lia|done|done].
Qed.

Lemma resolve_from_snoc_None b : ∀ done rest c,
  resolve_from b m done rest = None →
  resolve_from b m done (rest ++ [c]) = None.
Proof.
  induction b as [b IHb] using lt_wf_ind.
  intros done rest; revert done.
  induction rest as [|c0 rest IH]; intros done c Hr.
  - by rewrite resolve_from_nil in Hr.
  - rewrite <- app_comm_cons, resolve_from_cons.
    rewrite resolve_from_cons in Hr.
    destruct (m !! (done ++ [c0])) as [[| t |]|] eqn:E; try by apply IH.
    destruct b as [|b']; [done|].
    rewrite (app_assoc t rest [c]). apply IHb; [lia|done].
Qed.

Lemma parent_name p : p ≠ [] → parent p ++ [name p] = p.
Proof. intros H. symmetry. by apply app_removelast_last. Qed.

Lemma parent_snoc d c : parent (d ++ [c]) = d.
Proof. apply removelast_last. Qed.

Lemma name_snoc d c : name (d ++ [c]) = c.
Proof. apply last_last. Qed.

(** What [lstat_path] finds, when it is no link, is what [stat] finds. *)
Lemma stat_of_lstat_path p nd :
  lstat_path m p = Some nd → (∀ t, nd ≠ Symlink t) → stat m p = Some nd.
Proof.
  unfold lstat_path, stat, resolve. intros H Hnd.
  destruct (decide (p = [])) as [->|Hp]; [done|].
  destruct p as [|c0 p0]; [done|]. set (p := c0 :: p0) in *.
  destruct (resolve_from SYMLOOP_MAX m [] (parent p)) as [q|] eqn:E; [|done].
  rewrite <- (parent_name p Hp).
  rewrite (resolve_from_snoc _ _ _ _ _ E); [done|].
  intros t Ht. rewrite lstat_snoc in H. rewrite H in Ht. injection Ht as ->.
  by destruct (Hnd t).
Qed.

(** Conversely, below a path that is no link, [stat] is [lstat_path]. *)
Lemma lstat_path_of_stat p nd :
  p ≠ [] → is_symlink m p = false → stat m p = Some nd → lstat_path m p = Some nd.
Proof.
  unfold is_symlink. intros Hp Hs H.
  destruct (lstat_path m p) as [nd'|] eqn:E.
  - rewrite <- H. symmetry. apply stat_of_lstat_path; [done|].
    intros t ->. done.
  - exfalso. unfold lstat_path in E. destruct p as [|c0 p0]; [done|].
    set (p := c0 :: p0) in *. unfold stat, resolve in H.
    rewrite <- (parent_name p Hp) in H. unfold resolve in E.
    destruct (resolve_from SYMLOOP_MAX m [] (parent p)) as [q|] eqn:Eq.
    + rewrite (resolve_from_snoc _ _ _ _ _ Eq) in H; [congruence|].
      intros t Ht. rewrite lstat_snoc in E. congruence.
    + by rewrite (resolve_from_snoc_None _ _ _ _ Eq) in H.
Qed.

End Resolution.

(** ** Names *)

Lemma substring_all s : String.substring 0 (String.length s) s = s.
Proof. induction s as [|c s IH]; simpl; [done|by rewrite IH]. Qed.

Lemma substring_split s : ∀ i,
  String.substring 0 i s +:+ String.substring i (String.length s - i) s = s.
Proof.
  induction s as [|c s IH]; intros [|i]; simpl; try done.
  - by rewrite substring_all.
  - change (String c (String.substring 0 i s +:+
                         String.substring i (String.length s - i) s) = String c s).
    by rewrite IH.
Qed.

(** The stem and the suffix of a name make up the name. *)
Lemma stem_suffix nm : stem nm +:+ suffix nm = nm.
Proof.
  unfold stem, suffix. destruct (split_index nm) as [i|].
  - apply substring_split.
  - clear. induction nm as [|c s IH]; [done|].
    change (String c (s +:+ "") = String c s). by rewrite IH.
Qed.

Lemma list_ascii_of_string_app x y :
  String.list_ascii_of_string (x +:+ y) = String.list_ascii_of_string x ++ String.list_ascii_of_string y.
Proof.
  induction x as [|c x IH]; [done|].
  change (c :: String.list_ascii_of_string (x +:+ y) =
          c :: String.list_ascii_of_string x ++ String.list_ascii_of_string y).
  by rewrite IH.
Qed.

Lemma string_app_inj_r z x y : x +:+ z = y +:+ z → x = y.
Proof.
  intros H. apply (f_equal String.list_ascii_of_string) in H.
  rewrite !list_ascii_of_string_app in H. apply app_inv_tail in H.
  apply (f_equal String.string_of_list_ascii) in H.
  by rewrite !String.string_of_list_ascii_of_string in H.
Qed.

Lemma num_str_inj n n' : num_str n = num_str n' → n = n'.
Proof.
  unfold num_str. intros H.
  apply (f_equal NilEmpty.uint_of_string) in H. rewrite !NilEmpty.usu in H.
  injection H as H. apply (f_equal Nat.of_uint) in H.
  by rewrite !DecimalNat.Unsigned.of_to in H.
Qed.

Lemma numbered_inj st sf n n' : numbered st n sf = numbered st n' sf → n = n'.
Proof.
  unfold numbered. intros H.
  apply String.app_inj in H. apply (String.app_inj " (") in H.
  apply num_str_inj. revert H. generalize (num_str n) (num_str n'). intros a b H.
  apply (string_app_inj_r (")" +:+ sf)). exact H.
Qed.

(** ** The search for a free name *)

Section FirstFree.
Context (m : fs) (dir : path) (st sf : string).

Lemma first_free_none fuel : ∀ n,
  first_free fuel m dir st sf n = None →
  ∀ k, n ≤ k < n + fuel → exists_ m (dir ++ [numbered st k sf]) = true.
Proof.
  induction fuel as [|fuel IH]; intros n H k Hk; [lia|].
  simpl in H. destruct (exists_ m (dir ++ [numbered st n sf])) eqn:E; [|done].
  destruct (decide (k = n)) as [->|]; [done|].
  apply (IH (S n)); [done|lia].
Qed.

Lemma first_free_some fuel : ∀ n r,
  first_free fuel m dir st sf n = Some r →
  ∃ k, n ≤ k ∧ r = dir ++ [numbered st k sf] ∧ exists_ m r = false ∧
       ∀ j, n ≤ j < k → exists_ m (dir ++ [numbered st j sf]) = true.
Proof.
  induction fuel as [|fuel IH]; intros n r H; [done|].
  simpl in H. destruct (exists_ m (dir ++ [numbered st n sf])) eqn:E.
  - destruct (IH _ _ H) as (k & Hk & -> & Hfree & Hbelow).
    exists k. split; [lia|]. split; [done|]. split; [done|].
    intros j Hj. destruct (decide (j = n)) as [->|]; [done|]. apply Hbelow. lia.
  - injection H as <-. exists n. split; [lia|]. split; [done|]. split; [done|].
    intros j Hj. lia.
Qed.

(** The entries of a directory are finitely many and the numbered names
    are pairwise different, so the search ends within [rounds m] rounds. *)
Lemma first_free_total n : is_Some (first_free (rounds m) m dir st sf n).
Proof.
  destruct (first_free (rounds m) m dir st sf n) as [r|] eqn:E; [by eexists|].
  exfalso. pose proof (first_free_none _ _ E) as Hall.
  assert (Hres : ∀ c, exists_ m (dir ++ [c]) = true →
                      ∃ q nd, resolve m (dir ++ [c]) = Some q ∧ lstat m q = Some nd).
  { intros c. unfold exists_, stat.
    destruct (resolve m (dir ++ [c])) as [q|]; [|done].
    destruct (lstat m q) as [nd|] eqn:El; [|done]. intros _. by exists q, nd. }
  destruct (resolve_from_last m SYMLOOP_MAX [] dir) as [Hn|(b' & d' & Hl)].
  { assert (Hn0 : n ≤ n < n + rounds m) by (unfold rounds; lia).
    destruct (Hres _ (Hall n Hn0)) as (q & nd & Hq & _).
    unfold resolve in Hq. by rewrite Hn in Hq. }
  set (key := λ k : nat, d' ++ [numbered st k sf]).
  set (keys := key <$> seq n (rounds m)).
  assert (Hnd : NoDup keys).
  { apply NoDup_fmap_2_strong; [|apply NoDup_seq].
    intros x y _ _ Hxy. unfold key in Hxy. apply app_inv_head in Hxy.
    injection Hxy as Hxy. by apply numbered_inj in Hxy. }
  assert (Hsub : (list_to_set keys : gset path) ⊆ dom m).
  { intros p Hp. apply elem_of_list_to_set, list_elem_of_fmap in Hp.
    destruct Hp as (k & -> & Hk). apply elem_of_seq in Hk.
    destruct (Hres _ (Hall k Hk)) as (q & nd & Hq & Hnode).
    unfold resolve in Hq. rewrite Hl in Hq.
    apply elem_of_dom. by eapply resolved_last_is_key. }
  apply subseteq_size in Hsub.
  rewrite size_list_to_set, size_dom in Hsub by done.
  unfold keys in Hsub. rewrite length_fmap, length_seq in Hsub.
  unfold rounds in Hsub. lia.
Qed.

End FirstFree.

(** ** Collision-safe destinations *)

Lemma unique_destination_path_free m dest_path :
  exists_ m (Mover.unique_destination_path m dest_path) = false.
Proof.
  unfold Mover.unique_destination_path.
  destruct (exists_ m dest_path) eqn:E; cbn [negb]; [|done].
  destruct (first_free_total m (parent dest_path) (stem (name dest_path))
              (suffix (name dest_path)) 1) as [r Hr].
  rewrite Hr. simpl. by destruct (first_free_some _ _ _ _ _ _ _ Hr) as (k & _ & _ & Hf & _).
Qed.

Lemma unique_destination_free m base_dir filename :
  exists_ m (Dedup.unique_destination m base_dir filename) = false.
Proof.
  unfold Dedup.unique_destination.
  destruct (exists_ m (base_dir ++ [filename])) eqn:E; cbn [negb]; [|done].
  destruct (first_free_total m base_dir (stem filename) (suffix filename) 1) as [r Hr].
  rewrite Hr. simpl. by destruct (first_free_some _ _ _ _ _ _ _ Hr) as (k & _ & _ & Hf & _).
Qed.

Lemma unique_destination_path_cases m dest_path :
  (exists_ m dest_path = false →
     Mover.unique_destination_path m dest_path = dest_path) ∧
  (exists_ m dest_path = true →
     first_unused m (parent dest_path) (name dest_path)
       (Mover.unique_destination_path m dest_path)).
Proof.
  unfold Mover.unique_destination_path. split; intros ->; cbn [negb]; [done|].
  destruct (first_free_total m (parent dest_path) (stem (name dest_path))
              (suffix (name dest_path)) 1) as [r Hr].
  rewrite Hr. simpl.
  destruct (first_free_some _ _ _ _ _ _ _ Hr) as (k & Hk & -> & _ & Hb).
  by exists k.
Qed.

Lemma unique_destination_cases m base_dir filename :
  (exists_ m (base_dir ++ [filename]) = false →
     Dedup.unique_destination m base_dir filename = base_dir ++ [filename]) ∧
  (exists_ m (base_dir ++ [filename]) = true →
     first_unused m base_dir filename
       (Dedup.unique_destination m base_dir filename)).
Proof.
  unfold Dedup.unique_destination. split; intros ->; cbn [negb]; [done|].
  destruct (first_free_total m base_dir (stem filename) (suffix filename) 1)
    as [r Hr].
  rewrite Hr. simpl.
  destruct (first_free_some _ _ _ _ _ _ _ Hr) as (k & Hk & -> & _ & Hb).
  by exists k.
Qed.

(** C3 (the code departs from the claim): a destination is looked for on
    the file system only, so in pipeline B the two files [a.txt] and
    [a (1).txt] of the older tree are both planned to [dst/a (1).txt]; both
    moves go through, the second replaces the first, and the content of the
    first is gone afterwards. *)
Lemma collision_overwrites :
  Mover.moves_regular <$> (Mover.planned <$> value (Mover.main collide_args collide_fs))
    = Some [ (["old"; "a.txt"], ["dst"; "a (1).txt"]);
             (["old"; "a (1).txt"], ["dst"; "a (1).txt"]) ] ∧
  Mover.moved_regular <$> value (Mover.main collide_args collide_fs) = Some 2 ∧
  holds_digest "B" collide_fs = true ∧
  holds_digest "B" (final (Mover.main collide_args collide_fs)) = false.
Proof. vm_compute. repeat split. Qed.

(** ** Pipeline B: the membership index and the plan *)

Lemma relative_to_app root r : relative_to (root ++ r) root = Some r.
Proof. induction root as [|c root IH]; simpl; [done|]. by rewrite decide_True by done. Qed.

Lemma relative_to_Some p root r : relative_to p root = Some r → p = root ++ r.
Proof.
  revert p. induction root as [|c root IH]; intros p; simpl.
  - by intros [= ->].
  - destruct p as [|d p]; [done|]. case_decide; [|done]. subst.
    intros H. by rewrite (IH _ H).
Qed.

Lemma rglob_below m root p :
  p ∈ rglob m root → ∃ c r, p = root ++ c :: r.
Proof.
  unfold rglob. destruct (resolve m root) as [d|]; [|by intros ?%elem_of_nil].
  destruct (lstat m d) as [[| |]|]; try by intros ?%elem_of_nil.
  intros (kv & _ & H)%list_elem_of_omap.
  destruct (relative_to kv.1 d) as [[|c r]|]; try done.
  destruct (descends m d (c :: r)); [|done]. injection H as <-. by exists c, r.
Qed.

Lemma rglob_nonempty m root p : p ∈ rglob m root → p ≠ [].
Proof. intros (c & r & ->)%rglob_below. by destruct root. Qed.

Lemma regular_file_classified m p h :
  regular_file_at m p h →
  is_symlink m p = false ∧ is_file m p = true ∧ file_hash m p = Some h.
Proof.
  intros [t H]. unfold is_symlink, is_file, file_hash.
  rewrite (stat_of_lstat_path m p _ H) by done. by rewrite H.
Qed.

Lemma classified_regular_file m p h :
  p ≠ [] → is_symlink m p = false → file_hash m p = Some h → regular_file_at m p h.
Proof.
  unfold file_hash. intros Hp Hs H.
  destruct (stat m p) as [[[h'|] t| |]|] eqn:E; try done. injection H as ->.
  exists t. by apply lstat_path_of_stat.
Qed.

Section Plan.
Context (m : fs) (main_hashes : gset string).
Context (older_root dest_root symlinks_dest : path).

Let step := Mover.plan_step m main_hashes older_root dest_root symlinks_dest.

Local Abbreviation addsR := (adds_regular m main_hashes older_root dest_root).
Local Abbreviation addsL := (adds_link m older_root symlinks_dest).

Lemma plan_step_regular acc p pd :
  pd ∈ Mover.moves_regular (step acc p) ↔
  pd ∈ Mover.moves_regular acc ∨ addsR p pd.
Proof.
  unfold step, Mover.plan_step, adds_regular.
  destruct (is_symlink m p) eqn:Es.
  { destruct (relative_to p older_root); simpl; naive_solver. }
  destruct (is_file m p) eqn:Ef; [|naive_solver].
  destruct (file_hash m p) as [h|] eqn:Eh; [|naive_solver].
  case_decide as Hin; [|simpl; naive_solver].
  destruct (relative_to p older_root) as [rel|] eqn:Er; [|naive_solver].
  simpl. rewrite elem_of_app, list_elem_of_singleton. split.
  - intros [?| ->]; [by left|right]. simpl. repeat split. by exists h, rel.
  - intros [?|(H1 & _ & _ & h' & rel' & ? & _ & ? & H2)]; [by left|right].
    destruct pd as [a b]; simpl in *. congruence.
Qed.

Lemma plan_step_links acc p pd :
  pd ∈ Mover.moves_syms (step acc p) ↔
  pd ∈ Mover.moves_syms acc ∨ addsL p pd.
Proof.
  unfold step, Mover.plan_step, adds_link.
  destruct (is_symlink m p) eqn:Es.
  - destruct (relative_to p older_root) as [rel|] eqn:Er; [|naive_solver].
    simpl. rewrite elem_of_app, list_elem_of_singleton. split.
    + intros [?| ->]; [by left|right]. simpl. repeat split. by exists rel.
    + intros [?|(H1 & _ & rel' & ? & H2)]; [by left|right].
      destruct pd as [a b]; simpl in *. congruence.
  - destruct (is_file m p); [|naive_solver].
    destruct (file_hash m p); [|naive_solver].
    case_decide; [|simpl; naive_solver].
    destruct (relative_to p older_root); simpl; naive_solver.
Qed.

Lemma plan_fold_regular l : ∀ acc pd,
  pd ∈ Mover.moves_regular (foldl step acc l) ↔
  pd ∈ Mover.moves_regular acc ∨ ∃ p, p ∈ l ∧ addsR p pd.
Proof.
  induction l as [|p l IH]; intros acc pd; simpl.
  - split; [by left|]. intros [?|(p & ?%elem_of_nil & _)]; done.
  - rewrite IH, plan_step_regular. setoid_rewrite elem_of_cons. naive_solver.
Qed.

Lemma plan_fold_links l : ∀ acc pd,
  pd ∈ Mover.moves_syms (foldl step acc l) ↔
  pd ∈ Mover.moves_syms acc ∨ ∃ p, p ∈ l ∧ addsL p pd.
Proof.
  induction l as [|p l IH]; intros acc pd; simpl.
  - split; [by left|]. intros [?|(p & ?%elem_of_nil & _)]; done.
  - rewrite IH, plan_step_links. setoid_rewrite elem_of_cons. naive_solver.
Qed.

End Plan.

Lemma build_hash_set_step m (acc : gset string) p h :
  h ∈ (if is_symlink m p then acc
       else if is_file m p then
         match file_hash m p with
         | Some h => {[ h ]} ∪ acc
         | None => acc
         end
       else acc)
  ↔ h ∈ acc ∨ (is_symlink m p = false ∧ is_file m p = true ∧ file_hash m p = Some h).
Proof.
  destruct (is_symlink m p); [naive_solver|].
  destruct (is_file m p); [|naive_solver].
  destruct (file_hash m p) as [h'|]; [|naive_solver].
  rewrite elem_of_union, elem_of_singleton. naive_solver.
Qed.

Lemma build_hash_set_fold m l : ∀ (acc : gset string) h,
  h ∈ foldl (λ (hashes : gset string) p,
               if is_symlink m p then hashes
               else if is_file m p then
                 match file_hash m p with
                 | Some h => {[ h ]} ∪ hashes
                 | None => hashes
                 end
               else hashes) acc l
  ↔ h ∈ acc ∨ ∃ p, p ∈ l ∧ is_symlink m p = false ∧ is_file m p = true ∧
                   file_hash m p = Some h.
Proof.
  induction l as [|p l IH]; intros acc h; simpl.
  - split; [by left|]. intros [?|(p & ?%elem_of_nil & _)]; done.
  - rewrite IH, build_hash_set_step. split.
    + intros [[?|?]|(p0 & ? & ?)]; [by left|right; exists p|right; exists p0].
      * split; [by left|done].
      * split; [by right|done].
    + intros [?|(p0 & [->|?]%elem_of_cons & ?)];
        [left; by left|left; by right|right; by exists p0].
Qed.

(** The index holds exactly the digests of the regular files of the walk. *)
Lemma build_hash_set_spec m main_root h :
  h ∈ Mover.build_hash_set m main_root ↔
  ∃ p, p ∈ Mover.iter_paths m main_root ∧ regular_file_at m p h.
Proof.
  unfold Mover.build_hash_set. rewrite build_hash_set_fold. split.
  - intros [?%elem_of_empty|(p & Hp & Hs & _ & Hh)]; [done|].
    exists p. split; [done|]. apply classified_regular_file; [|done|done].
    by eapply rglob_nonempty.
  - intros (p & Hp & Hr). right. exists p. split; [done|].
    by apply regular_file_classified.
Qed.

(** C4: a regular file of the older tree whose digest occurs on a regular
    file of the current tree is in neither list of the plan; one whose
    digest does not occur there is in the regular moves, with a destination
    in the directory that its relative path names below the destination
    root, and at that very path when it is free. *)
Theorem membership_correct m main_root older_root dest_root symlinks_dest D q :
  let main_hashes := Mover.build_hash_set m main_root in
  let pl := Mover.plan_moves m main_hashes older_root dest_root symlinks_dest in
  q ∈ Mover.iter_paths m older_root →
  regular_file_at m q D →
  ((∃ p, p ∈ Mover.iter_paths m main_root ∧ regular_file_at m p D) →
     ∀ d, ((q, d) ∉ Mover.moves_regular pl) ∧ ((q, d) ∉ Mover.moves_syms pl)) ∧
  ((∀ p, p ∈ Mover.iter_paths m main_root → ¬ regular_file_at m p D) →
     ∃ rel, q = older_root ++ rel ∧
       let d := Mover.unique_destination_path m (dest_root ++ rel) in
       (q, d) ∈ Mover.moves_regular pl ∧
       parent d = parent (dest_root ++ rel) ∧
       (exists_ m (dest_root ++ rel) = false → d = dest_root ++ rel)).
Proof.
  intros main_hashes pl Hq Hreg. unfold pl, Mover.plan_moves.
  destruct (regular_file_classified _ _ _ Hreg) as (Hs & Hf & Hh).
  split.
  - intros Hcur%build_hash_set_spec d. split.
    + intros Hin. apply (proj1 (plan_fold_regular _ _ _ _ _ _ _ _)) in Hin.
      destruct Hin as [?%elem_of_nil|(p & _ & Hp)]; [done|].
      destruct Hp as (Hp1 & _ & _ & h & rel & Hh' & Hnot & _). simpl in Hp1. subst p.
      rewrite Hh in Hh'. injection Hh' as <-. done.
    + intros Hin. apply (proj1 (plan_fold_links _ _ _ _ _ _ _ _)) in Hin.
      destruct Hin as [?%elem_of_nil|(p & _ & Hp)]; [done|].
      destruct Hp as (Hp1 & Hp2 & _). simpl in Hp1. subst p. congruence.
  - intros Hnone.
    destruct (rglob_below _ _ _ Hq) as (c & r & Hqr).
    exists (c :: r). split; [done|]. cbv zeta. split; [|split].
    + apply (proj2 (plan_fold_regular _ _ _ _ _ _ _ _)). right. exists q. split; [done|].
      split; [done|]. split; [done|]. split; [done|].
      exists D, (c :: r). split; [done|]. split; [|split; [|done]].
      * intros (p & Hp & Hr)%build_hash_set_spec. by apply (Hnone p).
      * rewrite Hqr. apply relative_to_app.
    + destruct (unique_destination_path_cases m (dest_root ++ c :: r))
        as (Hfree & Hnum).
      destruct (exists_ m (dest_root ++ c :: r)) eqn:E.
      * destruct (Hnum eq_refl) as (n & _ & -> & _). apply parent_snoc.
      * by rewrite Hfree.
    + intros E. unfold Mover.unique_destination_path. by rewrite E.
Qed.

Lemma membership_correct_witness :
  (["old"; "sub"; "b.txt"],
   Mover.unique_destination_path member_fs (["dst"] ++ ["sub"; "b.txt"])) ∈
    Mover.moves_regular
      (Mover.plan_moves member_fs (Mover.build_hash_set member_fs ["cur"])
         ["old"] ["dst"] ["sym"]).
Proof.
  assert (Eold : Mover.iter_paths member_fs ["old"] =
                 [["old"; "sub"; "z"]; ["old"; "y"]; ["old"; "sub"; "b.txt"];
                  ["old"; "sub"; "l"]; ["old"; "sub"]])
    by (vm_compute; reflexivity).
  assert (Ecur : Mover.iter_paths member_fs ["cur"] = [["cur"; "x"]])
    by (vm_compute; reflexivity).
  assert (Hq : ["old"; "sub"; "b.txt"] ∈ Mover.iter_paths member_fs ["old"]).
  { rewrite Eold. repeat constructor. }
  assert (Hr : regular_file_at member_fs ["old"; "sub"; "b.txt"] "B").
  { exists None. vm_compute. reflexivity. }
  destruct (membership_correct member_fs ["cur"] ["old"] ["dst"] ["sym"] "B"
              ["old"; "sub"; "b.txt"] Hq Hr) as [_ H].
  destruct H as (rel & Hrel & Hin & _).
  { intros p Hp [t Ht]. rewrite Ecur in Hp. apply list_elem_of_singleton in Hp.
    subst p.
    assert (E : lstat_path member_fs ["cur"; "x"] = Some (File (Some "A") (Some 1%Q)))
      by (vm_compute; reflexivity).
    rewrite E in Ht. discriminate Ht. }
  apply (app_inv_head ["old"] ["sub"; "b.txt"] rel) in Hrel. subst rel.
  exact Hin.
Defined.

(** ** Moving a link *)






(** * Pipeline A: the choice of the survivor *)

Section MaxBy.
Context (key : path → Q).

Lemma max_by_in l : ∀ x, Dedup.max_by key x l ∈ x :: l.
Proof.
  induction l as [|y l IH]; intros x; simpl; [by left|].
  destruct (Qlt_le_dec (key x) (key y)).
  - right. apply IH.
  - specialize (IH x). apply elem_of_cons in IH as [->|?]; [by left|].
    right. by right.
Qed.

Lemma max_by_ge_first l : ∀ x, (key x <= key (Dedup.max_by key x l))%Q.
Proof.
  induction l as [|y l IH]; intros x; simpl; [apply Qle_refl|].
  destruct (Qlt_le_dec (key x) (key y)) as [Hlt|Hle]; [|apply IH].
  eapply Qle_trans; [apply Qlt_le_weak, Hlt|apply IH].
Qed.

Lemma max_by_ge l : ∀ x z, z ∈ x :: l → (key z <= key (Dedup.max_by key x l))%Q.
Proof.
  induction l as [|y l IH]; intros x z Hz; simpl.
  - apply list_elem_of_singleton in Hz as ->. apply Qle_refl.
  - apply elem_of_cons in Hz as [->|Hz]; [apply (max_by_ge_first (y :: l))|].
    destruct (Qlt_le_dec (key x) (key y)) as [Hlt|Hle].
    + by apply IH.
    + apply elem_of_cons in Hz as [->|Hz].
      * eapply Qle_trans; [apply Hle|apply max_by_ge_first].
      * apply IH. by right.
Qed.
End MaxBy.
(** ** The order of the sort keys *)

Lemma in_range_spec lo hi b : in_range lo hi b = true ↔ (lo ≤ b ≤ hi)%N.
Proof. unfold in_range. rewrite andb_true_iff, !N.leb_le. done. Qed.

Lemma second_of_three_spec b b1 :
  second_of_three b b1 = true ↔
  (128 ≤ b1 ≤ 191 ∧ (b = 224 → 160 ≤ b1) ∧ (b = 237 → b1 ≤ 159))%N.
Proof.
  unfold second_of_three, continuation.
  destruct (N.eqb_spec b 224) as [->|?]; [rewrite in_range_spec; lia|].
  destruct (N.eqb_spec b 237) as [->|?]; rewrite in_range_spec; lia.
Qed.

Lemma second_of_four_spec b b1 :
  second_of_four b b1 = true ↔
  (128 ≤ b1 ≤ 191 ∧ (b = 240 → 144 ≤ b1) ∧ (b = 244 → b1 ≤ 143))%N.
Proof.
  unfold second_of_four, continuation.
  destruct (N.eqb_spec b 240) as [->|?]; [rewrite in_range_spec; lia|].
  destruct (N.eqb_spec b 244) as [->|?]; rewrite in_range_spec; lia.
Qed.

Lemma utf8_decode_cons x r :
  (x < 256)%N →
  ∃ c pre rest, x :: r = pre ++ rest ∧ utf8_encodes pre c ∧
                utf8_decode 0 (x :: r) = c :: utf8_decode 0 rest.
Proof.
  intros Hx. cbn [utf8_decode]. unfold utf8_head.
  destruct (N.ltb_spec x 128) as [Hlt|Hge].
  { exists x, [x], r. split; [done|]. split; [by left|done]. }
  assert (Hesc : ∃ c pre rest, x :: r = pre ++ rest ∧ utf8_encodes pre c ∧
            (56320 + x)%N :: utf8_decode 0 r = c :: utf8_decode 0 rest).
  { exists (56320 + x)%N, [x], r. split; [done|]. split; [|done].
    do 4 right. exists x. done. }
  destruct r as [|b1 r1]; [done|].
  destruct (in_range 194 223 x && continuation b1) eqn:E2.
  { apply andb_prop in E2 as [H1%in_range_spec H2%in_range_spec].
    exists ((x - 192) * 64 + (b1 - 128))%N, [x; b1], r1.
    split; [done|]. split; [|done]. right; left. by exists x, b1. }
  destruct r1 as [|b2 r2]; [done|].
  destruct (in_range 224 239 x && second_of_three x b1 && continuation b2) eqn:E3.
  { apply andb_prop in E3 as [[H1%in_range_spec H2%second_of_three_spec]%andb_prop
                               H3%in_range_spec].
    exists ((x - 224) * 4096 + (b1 - 128) * 64 + (b2 - 128))%N, [x; b1; b2], r2.
    split; [done|]. split; [|done]. do 2 right; left. exists x, b1, b2. tauto. }
  destruct r2 as [|b3 r3]; [done|].
  destruct (in_range 240 244 x && second_of_four x b1 && continuation b2
            && continuation b3) eqn:E4; [|done].
  apply andb_prop in E4 as [[[H1%in_range_spec H2%second_of_four_spec]%andb_prop
                              H3%in_range_spec]%andb_prop H4%in_range_spec].
  exists ((x - 240) * 262144 + (b1 - 128) * 4096 + (b2 - 128) * 64 + (b3 - 128))%N,
         [x; b1; b2; b3], r3.
  split; [done|]. split; [|done]. do 3 right; left. exists x, b1, b2, b3. tauto.
Qed.

Lemma utf8_encodes_inj pre pre' c : utf8_encodes pre c → utf8_encodes pre' c → pre = pre'.
Proof.
  intros H H'.
  destruct H as [[-> ?]|[(b&b1&->&?&?&->)|[(b&b1&b2&->&?&?&?&?&?&->)|
                 [(b&b1&b2&b3&->&?&?&?&?&?&?&->)|(b&->&?&->)]]]];
  destruct H' as [[-> ?]|[(b'&b1'&->&?&?&E)|[(b'&b1'&b2'&->&?&?&?&?&?&E)|
                 [(b'&b1'&b2'&b3'&->&?&?&?&?&?&?&E)|(b'&->&?&E)]]]];
  try lia; repeat f_equal; lia.
Qed.

Lemma utf8_encodes_nonempty pre c : utf8_encodes pre c → pre ≠ [].
Proof.
  intros [[-> ?]|[(b&b1&->&?)|[(b&b1&b2&->&?)|[(b&b1&b2&b3&->&?)|(b&->&?)]]]]; done.
Qed.

Lemma utf8_decode_inj n : ∀ a b,
  length a ≤ n → Forall (λ x, x < 256)%N a → Forall (λ x, x < 256)%N b →
  utf8_decode 0 a = utf8_decode 0 b → a = b.
Proof.
  induction n as [|n IH]; intros a b Hn Ha Hb E.
  - destruct a; [|simpl in Hn; lia].
    destruct b as [|y s]; [done|]. apply Forall_cons in Hb as [Hy _].
    destruct (utf8_decode_cons y s Hy) as (c & pre & rest & _ & _ & E').
    rewrite E' in E. done.
  - destruct a as [|x r].
    { destruct b as [|y s]; [done|]. apply Forall_cons in Hb as [Hy _].
      destruct (utf8_decode_cons y s Hy) as (c & pre & rest & _ & _ & E').
      rewrite E' in E. done. }
    pose proof Ha as Ha'. apply Forall_cons in Ha' as [Hx _].
    destruct (utf8_decode_cons x r Hx) as (c & pre & rest & Hsplit & Henc & E1).
    rewrite E1 in E.
    destruct b as [|y s]; [done|].
    pose proof Hb as Hb'. apply Forall_cons in Hb' as [Hy _].
    destruct (utf8_decode_cons y s Hy) as (c' & pre' & rest' & Hsplit' & Henc' & E2).
    rewrite E2 in E. injection E as <- E.
    rewrite (utf8_encodes_inj _ _ _ Henc' Henc) in Hsplit'.
    rewrite Hsplit, Hsplit'. f_equal.
    rewrite Hsplit in Ha, Hn. rewrite Hsplit' in Hb.
    apply Forall_app in Ha as [_ Ha], Hb as [_ Hb].
    apply IH; [|done..]. rewrite length_app in Hn.
    pose proof (utf8_encodes_nonempty _ _ Henc). destruct pre; [done|]. simpl in Hn. lia.
Qed.

Lemma fsdecode_inj a b : fsdecode a = fsdecode b → a = b.
Proof.
  unfold fsdecode. intros E.
  assert (Hb : ∀ s, Forall (λ x, x < 256)%N (Ascii.N_of_ascii <$> String.list_ascii_of_string s)).
  { intros s. apply Forall_fmap, Forall_forall. intros c _. apply Ascii.N_ascii_bounded. }
  apply utf8_decode_inj with (n := length (Ascii.N_of_ascii <$> String.list_ascii_of_string a)) in E;
    [|done|apply Hb..].
  apply (f_equal (fmap Ascii.ascii_of_N)) in E.
  rewrite <- !list_fmap_compose in E.
  assert (Hid : ∀ l : list Ascii.ascii, (Ascii.ascii_of_N ∘ Ascii.N_of_ascii) <$> l = l).
  { intros l. induction l as [|c l IHl]; [done|]. rewrite fmap_cons, IHl.
    unfold compose. by rewrite Ascii.ascii_N_embedding. }
  rewrite !Hid in E.
  rewrite <- (String.string_of_list_ascii_of_string a), <- (String.string_of_list_ascii_of_string b).
  by rewrite E.
Qed.

Lemma str_ltb_lexico a : ∀ b, str_ltb a b = true ↔ lexico a b.
Proof.
  induction a as [|x a IH]; intros [|y b].
  - by split.
  - by split.
  - by split.
  - change (lexico (x :: a) (y :: b)) with (lexico x y ∨ x = y ∧ lexico a b).
    cbn [str_ltb]. rewrite orb_true_iff, andb_true_iff, N.ltb_lt, N.eqb_eq, IH. done.
Qed.

Lemma str_ltb_false a b : str_ltb a b = false → b = a ∨ lexico b a.
Proof.
  intros H. destruct (trichotomy lexico a b) as [Hlt|[->|Hgt]]; [|by left|by right].
  apply str_ltb_lexico in Hlt. congruence.
Qed.

Lemma key_lt_false p q : Dedup.key_lt p q = false → key_le q p.
Proof.
  unfold Dedup.key_lt, key_le.
  intros [H1 H2]%orb_false_elim. apply Nat.ltb_ge in H1.
  apply andb_false_iff in H2 as [H2|H2].
  - apply Nat.eqb_neq in H2. left. lia.
  - destruct (decide (length (str q) = length (str p))); [right|left; lia].
    split; [done|]. by apply str_ltb_false.
Qed.

Lemma key_lt_true p q : Dedup.key_lt p q = true → key_le p q.
Proof.
  unfold Dedup.key_lt, key_le.
  intros [H|[H1 H2]%andb_prop]%orb_prop.
  - left. by apply Nat.ltb_lt.
  - right. split; [by apply Nat.eqb_eq|]. right. by apply str_ltb_lexico.
Qed.

Lemma key_le_refl p : key_le p p.
Proof. right. split; [done|by left]. Qed.

Lemma key_le_trans p q r : key_le p q → key_le q r → key_le p r.
Proof.
  unfold key_le. intros [H1|[H1 H1']] [H2|[H2 H2']]; try (left; lia).
  right. split; [lia|].
  destruct H1' as [->|H1']; [done|]. destruct H2' as [<-|H2']; [by right|].
  right. by etrans.
Qed.

(** Two paths that are each not above the other have one path string. *)
Lemma key_le_antisym p q : key_le p q → key_le q p → path_str p = path_str q.
Proof.
  unfold key_le. intros [H1|[H1 H1']] [H2|[H2 H2']]; try lia.
  apply fsdecode_inj. fold (str p) (str q).
  destruct H1' as [?|H1']; [done|]. destruct H2' as [?|H2']; [done|].
  destruct (irreflexivity lexico (str p)). by etrans.
Qed.

Lemma elem_of_insert_sorted x l z :
  z ∈ Dedup.insert_sorted x l ↔ z = x ∨ z ∈ l.
Proof.
  induction l as [|y l IH]; simpl.
  - rewrite list_elem_of_singleton. split; [by left|]. by intros [?|?%elem_of_nil].
  - destruct (Dedup.key_lt x y); rewrite !elem_of_cons; [done|].
    rewrite IH. naive_solver.
Qed.

(** [head_least l]: the first path of [l] is not above any path of [l]. *)
Lemma insert_sorted_head x l d :
  (∀ z, z ∈ l → key_le (hd d l) z) →
  ∀ z, z ∈ Dedup.insert_sorted x l →
       key_le (hd d (Dedup.insert_sorted x l)) z.
Proof.
  destruct l as [|y l]; simpl; intros Hl z Hz.
  - apply list_elem_of_singleton in Hz as ->. apply key_le_refl.
  - destruct (Dedup.key_lt x y) eqn:E; simpl.
    + apply elem_of_cons in Hz as [->|Hz]; [apply key_le_refl|].
      eapply key_le_trans; [by apply key_lt_true|]. by apply Hl.
    + apply elem_of_cons in Hz as [->|Hz]; [apply key_le_refl|].
      apply elem_of_insert_sorted in Hz as [->|Hz]; [by apply key_lt_false|].
      apply Hl. by right.
Qed.

Lemma sorted_fold l : ∀ acc d,
  (∀ z, z ∈ acc → key_le (hd d acc) z) →
  let r := foldl (λ acc x, Dedup.insert_sorted x acc) acc l in
  (∀ z, z ∈ r ↔ z ∈ acc ∨ z ∈ l) ∧ (∀ z, z ∈ r → key_le (hd d r) z).
Proof.
  induction l as [|x l IH]; intros acc d Hacc; simpl.
  - split; [|done]. intros z. split; [by left|]. by intros [?|?%elem_of_nil].
  - destruct (IH (Dedup.insert_sorted x acc) d) as [H1 H2].
    { by apply insert_sorted_head. }
    split; [|done]. intros z. rewrite H1, elem_of_insert_sorted, elem_of_cons.
    naive_solver.
Qed.

(** The first path of the sorted list is a member that is not above any. *)
Lemma sorted_by_key_head l d :
  l ≠ [] →
  hd d (Dedup.sorted_by_key l) ∈ l ∧
  ∀ z, z ∈ l → key_le (hd d (Dedup.sorted_by_key l)) z.
Proof.
  intros Hl. unfold Dedup.sorted_by_key.
  destruct (sorted_fold l [] d) as [H1 H2]; [by intros z ?%elem_of_nil|].
  simpl in *. split.
  - destruct (foldl _ [] l) as [|y r] eqn:E.
    + destruct l as [|x l]; [done|]. exfalso.
      assert (Hx : x ∈ []) by (apply H1; right; by left).
      by apply elem_of_nil in Hx.
    + simpl. destruct (proj1 (H1 y)) as [?%elem_of_nil|?]; [by left|done|done].
  - intros z Hz. apply H2, H1. by right.
Qed.

(** ** The choice of the survivor *)

Lemma Qltb_lt x y : Dedup.Qltb x y = true ↔ (x < y)%Q.
Proof.
  unfold Dedup.Qltb. rewrite negb_true_iff. split.
  - intros H. apply Qnot_le_lt. intros Hle%Qle_bool_iff. congruence.
  - intros H. destruct (Qle_bool y x) eqn:E; [|done].
    apply Qle_bool_iff in E. by apply Qlt_not_le in H.
Qed.

Lemma tied_self m p : tied m (Dedup.mtime m p) p.
Proof.
  unfold tied. setoid_replace (Dedup.mtime m p - Dedup.mtime m p)%Q with 0%Q using relation Qeq by ring.
  done.
Qed.

(** The choice, relative to the time of the first greatest member. *)
Lemma choose_newest_least m p0 rest :
  let newest := Dedup.max_by (Dedup.mtime m) p0 rest in
  let M := Dedup.mtime m newest in
  let s := Dedup.choose_newest m p0 rest in
  s ∈ p0 :: rest ∧ tied m M s ∧
  (∀ p, p ∈ p0 :: rest → tied m M p → key_le s p) ∧
  ((∀ p, p ∈ p0 :: rest → tied m M p → p = s) → s = newest).
Proof.
  intros newest M s.
  set (ties := filter (λ p, Dedup.Qltb (Qabs (Dedup.mtime m p - M)) Dedup.eps = true)
                      (p0 :: rest)).
  assert (Hties : ∀ p, p ∈ ties ↔ tied m M p ∧ p ∈ p0 :: rest).
  { intros p. unfold ties. rewrite list_elem_of_filter, Qltb_lt. done. }
  assert (Hnew : newest ∈ ties).
  { apply Hties. split; [apply tied_self|apply max_by_in]. }
  assert (Hs : s = if (1 <? length ties)%nat
                   then hd newest (Dedup.sorted_by_key ties) else newest) by done.
  destruct (1 <? length ties)%nat eqn:El.
  - destruct (sorted_by_key_head ties newest) as [Hin Hmin].
    { intros E. rewrite E in Hnew. by apply elem_of_nil in Hnew. }
    rewrite <- Hs in Hin, Hmin. apply Hties in Hin as [Ht Hin].
    split; [done|]. split; [done|]. split.
    + intros p Hp Htp. apply Hmin, Hties. done.
    + intros Honly. symmetry. apply Honly; [apply max_by_in|apply tied_self].
  - apply Nat.ltb_ge in El.
    assert (Hone : ∀ p, p ∈ ties → p = newest).
    { intros p Hp. destruct ties as [|a [|b ties']]; simpl in El; [|
        apply list_elem_of_singleton in Hp; apply list_elem_of_singleton in Hnew;
        congruence|lia]. by apply elem_of_nil in Hp. }
    rewrite Hs. split; [apply max_by_in|]. split; [apply tied_self|]. split; [|done].
    intros p Hp Htp. rewrite (Hone p); [apply key_le_refl|]. apply Hties. done.
Qed.

Lemma max_by_is_max m p0 rest :
  is_max_mtime m (p0 :: rest) (Dedup.mtime m (Dedup.max_by (Dedup.mtime m) p0 rest)).
Proof.
  split.
  - eexists. split; [apply max_by_in|]. reflexivity.
  - intros p Hp. by apply max_by_ge.
Qed.

Lemma is_max_mtime_unique m paths M M' :
  is_max_mtime m paths M → is_max_mtime m paths M' → (M == M')%Q.
Proof.
  intros [(p & Hp & Ep) Hle] [(p' & Hp' & Ep') Hle'].
  apply Qle_antisym.
  - rewrite <- Ep. by apply Hle'.
  - rewrite <- Ep'. by apply Hle.
Qed.

Lemma tied_proper m M M' p : (M == M')%Q → tied m M p → tied m M' p.
Proof. unfold tied. intros E H. by rewrite <- E. Qed.

Lemma is_max_mtime_perm m l l' M :
  l ≡ₚ l' → is_max_mtime m l M → is_max_mtime m l' M.
Proof.
  intros Hperm [(p & Hp & Ep) Hle]. split.
  - exists p. split; [by rewrite <- Hperm|done].
  - intros q Hq. apply Hle. by rewrite Hperm.
Qed.

(** C5: with [M] the greatest time of the group, the survivor is a member
    within [eps] of [M]; it has the time [M] when no other member is within
    [eps]; among the members within [eps] none has a shorter path string,
    nor a smaller one of the same length; and the choice does not depend on
    the order of the group. *)
Theorem survivor_selection m p0 rest M :
  is_max_mtime m (p0 :: rest) M →
  let s := Dedup.choose_newest m p0 rest in
  s ∈ p0 :: rest ∧
  tied m M s ∧
  ((∀ p, p ∈ p0 :: rest → tied m M p → p = s) → (Dedup.mtime m s == M)%Q) ∧
  (∀ p, p ∈ p0 :: rest → tied m M p → key_le s p) ∧
  (∀ q0 rest', p0 :: rest ≡ₚ q0 :: rest' →
     path_str (Dedup.choose_newest m q0 rest') = path_str s).
Proof.
  intros HM s.
  destruct (choose_newest_least m p0 rest) as (Hin & Ht & Hmin & Hone).
  pose proof (is_max_mtime_unique _ _ _ _ (max_by_is_max m p0 rest) HM) as E.
  fold s in Hin, Ht, Hmin, Hone.
  split; [done|]. split; [by apply (tied_proper _ _ _ _ E)|]. split; [|split].
  - intros Honly. rewrite Hone; [done|].
    intros p Hp Htp. apply Honly; [done|]. by apply (tied_proper _ _ _ _ E).
  - intros p Hp Htp. apply Hmin; [done|].
    apply (tied_proper _ M); [by symmetry|done].
  - intros q0 rest' Hperm.
    destruct (choose_newest_least m q0 rest') as (Hin' & Ht' & Hmin' & _).
    pose proof (is_max_mtime_unique _ _ _ _ (max_by_is_max m q0 rest')
                  (is_max_mtime_perm _ _ _ _ Hperm HM)) as E'.
    apply key_le_antisym.
    + apply Hmin'; [by rewrite <- Hperm|].
      apply (tied_proper _ M); [by symmetry|]. by apply (tied_proper _ _ _ _ E).
    + apply Hmin; [by rewrite Hperm|].
      apply (tied_proper _ M); [by symmetry|]. by apply (tied_proper _ _ _ _ E').
Qed.

Lemma survivor_selection_witness :
  Dedup.choose_newest times_fs ["r"; "a"] [["r"; "b"]; ["r"; "c"]] ∈
    [["r"; "a"]; ["r"; "b"]; ["r"; "c"]] ∧
  (Dedup.mtime times_fs
     (Dedup.choose_newest times_fs ["r"; "a"] [["r"; "b"]; ["r"; "c"]]) == 11)%Q.
Proof.
  assert (Ea : Dedup.mtime times_fs ["r"; "a"] = 10%Q) by (vm_compute; reflexivity).
  assert (Eb : Dedup.mtime times_fs ["r"; "b"] = 10%Q) by (vm_compute; reflexivity).
  assert (Ec : Dedup.mtime times_fs ["r"; "c"] = 11%Q) by (vm_compute; reflexivity).
  assert (Es : Dedup.choose_newest times_fs ["r"; "a"] [["r"; "b"]; ["r"; "c"]]
               = ["r"; "c"]) by (vm_compute; reflexivity).
  assert (HM : is_max_mtime times_fs [["r"; "a"]; ["r"; "b"]; ["r"; "c"]] 11%Q).
  { split.
    - exists ["r"; "c"]. split; [repeat constructor|]. rewrite Ec. reflexivity.
    - intros p Hp.
      apply elem_of_cons in Hp as [->|Hp]; [rewrite Ea; discriminate|].
      apply elem_of_cons in Hp as [->|Hp]; [rewrite Eb; discriminate|].
      apply list_elem_of_singleton in Hp as ->. rewrite Ec. discriminate. }
  destruct (survivor_selection times_fs ["r"; "a"] [["r"; "b"]; ["r"; "c"]] 11%Q HM)
    as (Hin & _ & Hmax & _).
  split; [exact Hin|]. apply Hmax.
  intros p Hp Ht. rewrite Es. unfold tied in Ht.
  apply elem_of_cons in Hp as [->|Hp].
  { rewrite Ea in Ht. vm_compute in Ht. discriminate Ht. }
  apply elem_of_cons in Hp as [->|Hp].
  { rewrite Eb in Ht. vm_compute in Ht. discriminate Ht. }
  by apply list_elem_of_singleton in Hp.
Defined.

(** The length that breaks a tie is counted in characters: of two copies
    of one age, [/r/éé] (five characters, seven bytes) stays and [/r/abc]
    (six characters) goes. *)
Lemma tie_counts_characters :
  String.length (path_str ["r"; "éé"]) = 7 ∧ length (str ["r"; "éé"]) = 5 ∧
  length (str ["r"; "abc"]) = 6 ∧
  Dedup.choose_newest accent_fs ["r"; "abc"] [["r"; "éé"]] = ["r"; "éé"].
Proof. vm_compute. repeat split. Qed.

(** C10: [mtime] is a total function, and when some member of the group has
    a time that can be read and is not negative, the survivor is a file
    whose time can be read. *)
Theorem unreadable_time_never_survives m p0 rest :
  (∃ p d t, p ∈ p0 :: rest ∧ stat m p = Some (File d (Some t)) ∧ (0 <= t)%Q) →
  ∃ d t, stat m (Dedup.choose_newest m p0 rest) = Some (File d (Some t)) ∧
         Dedup.mtime m (Dedup.choose_newest m p0 rest) = t.
Proof.
  intros (p & d & t & Hp & Hst & Ht).
  destruct (choose_newest_least m p0 rest) as (_ & Htied & _).
  pose proof (max_by_ge (Dedup.mtime m) rest p0 p Hp) as Hge.
  set (M := Dedup.mtime m (Dedup.max_by (Dedup.mtime m) p0 rest)) in *.
  set (s := Dedup.choose_newest m p0 rest) in *.
  assert (HM : (0 <= M)%Q).
  { eapply Qle_trans; [exact Ht|]. unfold Dedup.mtime in Hge at 1.
    by rewrite Hst in Hge. }
  unfold tied in Htied. apply Qabs_Qlt_condition in Htied as [Hlo _].
  unfold Dedup.mtime in Hlo |- *.
  destruct (stat m s) as [[d' [t'|]| |]|]; [by exists d', t'|exfalso..];
    unfold Dedup.eps in Hlo; lra.
Qed.

Lemma unreadable_time_never_survives_witness :
  ∃ d t, stat times_fs
           (Dedup.choose_newest times_fs ["r"; "u"] [["r"; "a"]]) =
         Some (File d (Some t)) ∧
         Dedup.mtime times_fs
           (Dedup.choose_newest times_fs ["r"; "u"] [["r"; "a"]]) = t.
Proof.
  apply unreadable_time_never_survives.
  exists ["r"; "a"], (Some "A"), 10%Q.
  split; [repeat constructor|]. split; [vm_compute; reflexivity|discriminate].
Defined.

(** * Dry runs and validation *)

Section Pure.
Context {A B : Type}.

Lemma pure_ret (a : A) : pure_ (mret a : M A).
Proof. by intros m. Qed.

Lemma pure_ask (f : fs → A) : pure_ (ask f).
Proof. by intros m. Qed.

Lemma pure_check (f : fs → option A) : pure_ (check f).
Proof. intros m. unfold check. by destruct (f m). Qed.

Lemma pure_sys_exit code : pure_ (sys_exit code : M A).
Proof. by intros m. Qed.

Lemma pure_bind (c : M A) (k : A → M B) :
  pure_ c → (∀ a, pure_ (k a)) → pure_ (c ≫= k).
Proof.
  intros Hc Hk m. unfold mbind, M_bind. specialize (Hc m).
  destruct (c m) as [a m'| m' | code m']; simpl in *; subst; [apply Hk|done..].
Qed.

End Pure.

Lemma plan_group_dry main_dir duplicates_dir newest paths : ∀ actions,
  pure_ (Dedup.plan_group true main_dir duplicates_dir newest paths actions).
Proof.
  induction paths as [|p paths IH]; intros actions; simpl; [apply pure_ret|].
  case_decide; [apply IH|].
  apply pure_bind; [apply pure_check|intros rp].
  apply pure_bind; [apply pure_check|intros rmain].
  apply pure_bind; [apply pure_check|intros rel].
  apply pure_bind; [apply pure_ret|intros _].
  apply pure_bind; [apply pure_ask|intros taken].
  apply pure_bind; [destruct taken; [apply pure_ask|apply pure_ret]|intros dst].
  apply IH.
Qed.

Lemma plan_groups_dry main_dir duplicates_dir by_hash : ∀ actions kept,
  pure_ (Dedup.plan_groups true main_dir duplicates_dir by_hash actions kept).
Proof.
  induction by_hash as [|[h paths] by_hash IH]; intros actions kept; simpl;
    [apply pure_ret|].
  destruct paths as [|p0 [|p1 ps]]; [apply IH..|].
  apply pure_bind; [apply pure_ask|intros newest].
  apply pure_bind; [apply plan_group_dry|intros actions']. apply IH.
Qed.

Lemma move_all_dry actions : ∀ failed, pure_ (Dedup.move_all true actions failed).
Proof.
  induction actions as [|[src dst] actions IH]; intros failed; simpl;
    [apply pure_ret|apply IH].
Qed.

(** Pipeline A with [--dry-run] leaves the store as it is, however the run
    ends. *)
Lemma dedup_dry_run_pure a :
  Dedup.dry_run a = true → pure_ (Dedup.main a).
Proof.
  intros Hdry. unfold Dedup.main. rewrite Hdry.
  apply pure_bind; [apply pure_check|intros main_dir].
  apply pure_bind; [apply pure_ask|intros ok].
  destruct ok; simpl; [|apply pure_sys_exit].
  apply pure_bind; [apply pure_ret|intros _].
  apply pure_bind; [apply pure_check|intros files].
  apply pure_bind; [apply pure_ask|intros by_hash].
  apply pure_bind; [apply plan_groups_dry|intros ak].
  apply pure_bind; [apply move_all_dry|intros failed].
  apply pure_bind; [apply pure_ret|intros _]. apply pure_ret.
Qed.

(** C1 (the code departs from the claim): pipeline B without [--apply]
    completes as a preview, and has created both destination roots. *)
Lemma dry_run_creates_destination_roots :
  Mover.apply dry_args = false ∧
  dry_fs !! ["dst"] = None ∧ dry_fs !! ["sym"] = None ∧
  Mover.moved_regular <$> value (Mover.main dry_args dry_fs) = Some 0 ∧
  final (Mover.main dry_args dry_fs) !! ["dst"] = Some Dir ∧
  final (Mover.main dry_args dry_fs) !! ["sym"] = Some Dir.
Proof. vm_compute. repeat split. Qed.

(** A root that is missing or no directory ends pipeline B with exit code
    2 and the store untouched. *)
Lemma invalid_root_exits_untouched a m :
  exists_ m (Mover.main_root a) && is_dir m (Mover.main_root a) = false ∨
  exists_ m (Mover.older_root a) && is_dir m (Mover.older_root a) = false →
  Mover.main a m = Exited 2 m.
Proof.
  intros H. unfold Mover.main, mbind, M_bind. simpl. unfold ask, mbind, M_bind.
  destruct (exists_ m (Mover.main_root a) && is_dir m (Mover.main_root a)); [|done].
  destruct H as [H|H]; [done|]. by rewrite H.
Qed.

(** C2 (the code departs from the claim): with a destination inside the
    current tree, or with the current tree given as the older tree,
    pipeline B ends with exit code 2 after it has created directories, the
    first of them inside the current tree. *)
Lemma invalid_configuration_exits_after_mkdir :
  dry_fs !! ["cur"; "dst"] = None ∧ dry_fs !! ["sym"] = None ∧
  (∃ m', Mover.main nested_args dry_fs = Exited 2 m' ∧
         m' !! ["cur"; "dst"] = Some Dir ∧ m' !! ["sym"] = Some Dir) ∧
  dry_fs !! ["dst"] = None ∧
  (∃ m', Mover.main same_args dry_fs = Exited 2 m' ∧
         m' !! ["dst"] = Some Dir ∧ m' !! ["sym"] = Some Dir).
Proof.
  split; [by vm_compute|]. split; [by vm_compute|]. split; [|split; [by vm_compute|]].
  - exists (final (Mover.main nested_args dry_fs)). vm_compute. repeat split.
  - exists (final (Mover.main same_args dry_fs)). vm_compute. repeat split.
Qed.

(** C9 (the code departs from the claim): pipeline A, with no flag set,
    lists the link [l] among the files, hashes it through to its target and
    groups it with the target; the link is kept as the newest and the real
    file is planned to be moved away, which leaves the link dangling. *)
Lemma link_grouped_with_its_target :
  is_symlink link_fs ["r"; "l"] = true ∧
  Dedup.scan (walk_fuel link_fs) link_fs false ["r"; Dedup.duplicates_name] ["r"]
    = Some [["r"; "x.txt"]; ["r"; "l"]] ∧
  Dedup.group_files link_fs [["r"; "x.txt"]; ["r"; "l"]]
    = [("A", [["r"; "x.txt"]; ["r"; "l"]])] ∧
  value (Dedup.main (Dedup.Args ["r"] true false) link_fs)
    = Some (Dedup.Report [(["r"; "x.txt"], ["r"; Dedup.duplicates_name; "x.txt"])]
              [["r"; "l"]] []) ∧
  exists_ (final (Dedup.main (Dedup.Args ["r"] false false) link_fs)) ["r"; "l"]
    = false.
Proof. vm_compute. repeat split. Qed.

(** * Reclamation of empty directories *)

Lemma relative_to_snoc k d n : relative_to k d = Some [n] ↔ k = d ++ [n].
Proof.
  split; [apply relative_to_Some|intros ->; apply relative_to_app].
Qed.

Lemma elem_of_listdir m d n : n ∈ listdir m d ↔ is_Some (m !! (d ++ [n])).
Proof.
  unfold listdir. rewrite list_elem_of_omap. split.
  - intros ([k nd] & Hin & H). simpl in H.
    destruct (relative_to k d) as [[|n' [|? ?]]|] eqn:E; try done.
    injection H as ->. apply relative_to_snoc in E as ->.
    apply elem_of_map_to_list in Hin. by eexists.
  - intros [nd H]. exists (d ++ [n], nd). split; [by apply elem_of_map_to_list|].
    simpl. by rewrite relative_to_app.
Qed.

Lemma listdir_empty m d : listdir m d = [] ↔ ∀ n, m !! (d ++ [n]) = None.
Proof.
  split.
  - intros E n. destruct (m !! (d ++ [n])) eqn:H; [|done].
    assert (Hn : n ∈ listdir m d) by (apply elem_of_listdir; by eexists).
    rewrite E in Hn. by apply elem_of_nil in Hn.
  - intros H. destruct (listdir m d) as [|n l] eqn:E; [done|].
    assert (Hn : n ∈ listdir m d) by (rewrite E; by left).
    apply elem_of_listdir in Hn as [nd Hn]. by rewrite H in Hn.
Qed.

Lemma NoDup_listdir m d : NoDup (listdir m d).
Proof.
  unfold listdir.
  assert (H : NoDup (map_to_list m).*1) by apply NoDup_fst_map_to_list.
  induction (map_to_list m) as [|[k nd] l IH]; simpl; [constructor|].
  apply NoDup_cons in H as [Hk Hl]. specialize (IH Hl).
  destruct (relative_to k d) as [[|n [|? ?]]|] eqn:E; simpl; try done.
  apply relative_to_snoc in E as ->. constructor; [|done].
  intros ([k' nd'] & Hin & H)%list_elem_of_omap. simpl in H.
  destruct (relative_to k' d) as [[|n' [|? ?]]|] eqn:E'; try done.
  injection H as ->. apply relative_to_snoc in E' as ->.
  apply Hk. apply list_elem_of_fmap. by exists (d ++ [n], nd').
Qed.

(** Removing directories does not change how paths resolve. *)
Lemma resolve_from_dir_deleted m0 m b :
  dir_deleted m0 m → ∀ done rest, resolve_from b m done rest = resolve_from b m0 done rest.
Proof.
  intros Hd. induction b as [b IHb] using lt_wf_ind.
  intros done rest; revert done. induction rest as [|c rest IH]; intros done.
  - by rewrite !resolve_from_nil.
  - rewrite !resolve_from_cons.
    destruct (Hd (done ++ [c])) as [->|[-> ->]].
    + destruct (m0 !! (done ++ [c])) as [[| t |]|]; try apply IH.
      destruct b; [done|]. apply IHb. lia.
    + apply IH.
Qed.

Lemma resolve_dir_deleted m0 m p :
  dir_deleted m0 m → resolve m p = resolve m0 p.
Proof. intros. by apply resolve_from_dir_deleted. Qed.

Lemma dir_deleted_refl m : dir_deleted m m.
Proof. intros k. by left. Qed.

Lemma dir_deleted_trans m0 m1 m2 :
  dir_deleted m0 m1 → dir_deleted m1 m2 → dir_deleted m0 m2.
Proof.
  intros H1 H2 k. destruct (H2 k) as [->|[E ->]]; [apply H1|].
  right. split; [|done]. destruct (H1 k) as [<-|[_ E']]; [done|congruence].
Qed.

Lemma elem_of_flat_map {A B} (f : A → list B) l x :
  x ∈ flat_map f l ↔ ∃ y, y ∈ l ∧ x ∈ f y.
Proof.
  rewrite list_elem_of_In, in_flat_map. split.
  - intros (y & Hy & Hx). exists y. by rewrite !list_elem_of_In.
  - intros (y & Hy & Hx). exists y. by rewrite <- !list_elem_of_In.
Qed.

Section Walk.
Context (m : fs).

Lemma lstat_path_snoc top key n :
  resolve m top = Some key → lstat_path m (top ++ [n]) = m !! (key ++ [n]).
Proof.
  intros H. unfold lstat_path. rewrite parent_snoc, name_snoc, H, lstat_snoc.
  by destruct top.
Qed.

(** A name is entered by the walk exactly when it is a real directory. *)
Lemma entered_iff_real top key n :
  resolve m top = Some key →
  (is_dir m (top ++ [n]) = true ∧ is_symlink m (top ++ [n]) = false) ↔
  m !! (key ++ [n]) = Some Dir.
Proof.
  intros H. assert (Hne : top ++ [n] ≠ []) by by destruct top.
  split.
  - intros [Hd Hs]. rewrite <- (lstat_path_snoc top key n H).
    apply lstat_path_of_stat; [done..|].
    unfold is_dir in Hd. by destruct (stat m (top ++ [n])) as [[| |]|].
  - intros E. rewrite <- (lstat_path_snoc top key n H) in E. split.
    + unfold is_dir. by rewrite (stat_of_lstat_path m _ _ E).
    + unfold is_symlink. by rewrite E.
Qed.

Lemma resolve_real_child top key n :
  resolve m top = Some key → m !! (key ++ [n]) = Some Dir →
  resolve m (top ++ [n]) = Some (key ++ [n]).
Proof.
  intros H E. apply resolve_from_snoc; [done|]. intros t. by rewrite E.
Qed.

Lemma resolve_real_dir rel : ∀ top key,
  resolve m top = Some key → real_dir m key rel →
  resolve m (top ++ rel) = Some (key ++ rel).
Proof.
  induction rel as [|c rel IH]; intros top key H Hr.
  - by rewrite !app_nil_r.
  - destruct Hr as [Hc Hr].
    rewrite (cons_middle c top rel), (cons_middle c key rel), !app_assoc.
    apply IH; [by apply resolve_real_child|done].
Qed.

Lemma real_dir_last key rel c :
  real_dir m key (rel ++ [c]) → real_dir m key rel ∧ m !! (key ++ rel ++ [c]) = Some Dir.
Proof.
  revert key. induction rel as [|x rel IH]; intros key; simpl.
  - intros [H _]. done.
  - intros [Hx Hr]. destruct (IH _ Hr) as [H1 H2].
    split; [done|]. by rewrite <- app_assoc in H2.
Qed.

Lemma scandir_real top key :
  resolve m top = Some key → lstat m key = Some Dir →
  scandir m top = Some (listdir m key).
Proof. intros H E. unfold scandir. by rewrite H, E. Qed.

(** Every directory of the walk is the top or a real directory below it. *)
Lemma walk_bottomup_real fuel : ∀ top key p,
  resolve m top = Some key → p ∈ walk_bottomup fuel m top →
  ∃ r, p = top ++ r ∧ real_dir m key r.
Proof.
  induction fuel as [|fuel IH]; intros top key p H Hp; simpl in Hp;
    [by apply elem_of_nil in Hp|].
  unfold scandir in Hp. rewrite H in Hp.
  destruct (lstat m key) as [[| |]|]; try by apply elem_of_nil in Hp.
  apply elem_of_app in Hp as [Hp|Hp%list_elem_of_singleton].
  - apply elem_of_flat_map in Hp as (d & Hd & Hp).
    apply list_elem_of_filter in Hd as [Hdir _].
    destruct (is_symlink m (top ++ [d])) eqn:Es; [by apply elem_of_nil in Hp|].
    assert (E : m !! (key ++ [d]) = Some Dir) by by apply (entered_iff_real top).
    destruct (IH _ _ _ (resolve_real_child _ _ _ H E) Hp) as (r & -> & Hr).
    exists (d :: r). split; [by rewrite <- app_assoc|done].
  - subst p. exists []. by rewrite app_nil_r.
Qed.

(** Every real directory below the top is in the walk, given the depth. *)
Lemma walk_bottomup_complete fuel : ∀ top key r,
  resolve m top = Some key → lstat m key = Some Dir → real_dir m key r →
  length r < fuel → top ++ r ∈ walk_bottomup fuel m top.
Proof.
  induction fuel as [|fuel IH]; intros top key r H Hk Hr Hlen; [lia|].
  simpl. rewrite (scandir_real _ _ H Hk).
  destruct r as [|d r].
  - rewrite app_nil_r. apply elem_of_app. right. by left.
  - destruct Hr as [Hd Hr]. apply elem_of_app. left.
    apply elem_of_flat_map. exists d.
    destruct (proj2 (entered_iff_real top key d H) Hd) as [Hdir Hs].
    split.
    + apply list_elem_of_filter. split; [done|].
      apply elem_of_listdir. by eexists.
    + rewrite Hs, (cons_middle d top r), app_assoc.
      apply (IH _ (key ++ [d])); [by apply resolve_real_child| |done|simpl in Hlen; lia].
      by rewrite lstat_snoc.
Qed.

End Walk.

Lemma bottom_up_app l1 l2 :
  bottom_up (l1 ++ l2) ↔
  bottom_up l1 ∧ bottom_up l2 ∧ ∀ p q, p ∈ l1 → q ∈ l2 → ¬ below p q.
Proof.
  induction l1 as [|x l1 IH]; simpl.
  - split; [intros H; split; [done|split; [done|]]|by intros (_ & H & _)].
    by intros p q ?%elem_of_nil.
  - rewrite IH. split.
    + intros (Hx & H1 & H2 & Hc). split; [split; [|done]|split; [done|]].
      * intros q Hq. apply Hx, elem_of_app. by left.
      * intros p q [->|Hp]%elem_of_cons Hq; [|by apply Hc].
        apply Hx, elem_of_app. by right.
    + intros ((Hx & H1) & H2 & Hc). split; [|split; [done|split; [done|]]].
      * intros q [Hq|Hq]%elem_of_app; [by apply Hx|]. apply Hc; [by left|done].
      * intros p q Hp Hq. apply Hc; [by right|done].
Qed.

Lemma not_below_sibling top d d' r1 r2 :
  d ≠ d' → ¬ below (top ++ d :: r1) (top ++ d' :: r2).
Proof.
  intros Hd (c & r & E). rewrite <- app_assoc in E. apply app_inv_head in E.
  simpl in E. congruence.
Qed.

Lemma not_below_self_prefix top r : ¬ below (top ++ r) top.
Proof.
  intros (c & r' & E). apply (f_equal length) in E.
  rewrite !length_app in E. simpl in E. lia.
Qed.

Lemma walk_bottomup_prefix m fuel top p :
  p ∈ walk_bottomup fuel m top → ∃ r, p = top ++ r.
Proof.
  intros Hp. destruct (resolve m top) as [key|] eqn:E.
  - destruct (walk_bottomup_real m fuel top key p E Hp) as (r & -> & _). by exists r.
  - destruct fuel; simpl in Hp; [by apply elem_of_nil in Hp|].
    unfold scandir in Hp. rewrite E in Hp. by apply elem_of_nil in Hp.
Qed.

(** The walk lists a directory after every directory below it. *)
Lemma walk_bottomup_order m fuel : ∀ top, bottom_up (walk_bottomup fuel m top).
Proof.
  induction fuel as [|fuel IH]; intros top; simpl; [done|].
  destruct (scandir m top) as [names|] eqn:Es; [|done].
  assert (Hnd : NoDup names).
  { unfold scandir in Es. destruct (resolve m top); [|done].
    destruct (lstat m l) as [[| |]|]; try done. injection Es as <-.
    apply NoDup_listdir. }
  apply bottom_up_app. split; [|split; [simpl; split; [|done]|]].
  - apply (NoDup_filter (λ n, is_dir m (top ++ [n]) = true)) in Hnd.
    induction Hnd as [|d ds Hd Hds IHds]; simpl; [done|].
    apply bottom_up_app. split; [|split; [done|]].
    + destruct (is_symlink m (top ++ [d])); [done|apply IH].
    + intros p q Hp Hq.
      destruct (is_symlink m (top ++ [d])); [by apply elem_of_nil in Hp|].
      apply walk_bottomup_prefix in Hp as [r1 ->].
      apply elem_of_flat_map in Hq as (d' & Hd' & Hq).
      destruct (is_symlink m (top ++ [d'])); [by apply elem_of_nil in Hq|].
      apply walk_bottomup_prefix in Hq as [r2 ->].
      rewrite <- !app_assoc. apply not_below_sibling. by intros ->.
  - by intros q ?%elem_of_nil.
  - intros p q Hp Hq%list_elem_of_singleton. subst q.
    apply elem_of_flat_map in Hp as (d & _ & Hp).
    destruct (is_symlink m (top ++ [d])); [by apply elem_of_nil in Hp|].
    apply walk_bottomup_prefix in Hp as [r ->].
    rewrite <- app_assoc. apply not_below_self_prefix.
Qed.

(** A chain of real directories is no longer than the store is large. *)
Lemma real_dir_keys m : ∀ rel key,
  real_dir m key rel →
  ∃ keys : list path, length keys = length rel ∧ NoDup keys ∧
    (∀ k, k ∈ keys → is_Some (m !! k) ∧ length key < length k).
Proof.
  induction rel as [|c rel IH]; intros key Hr.
  - exists []. split; [done|]. split; [constructor|]. by intros k ?%elem_of_nil.
  - destruct Hr as [Hc Hr]. destruct (IH _ Hr) as (keys & Hlen & Hnd & Hk).
    exists ((key ++ [c]) :: keys). split; [simpl; lia|]. split.
    + constructor; [|done]. intros Hin. apply Hk in Hin as [_ Hin]. lia.
    + intros k [->|Hin]%elem_of_cons.
      * split; [by eexists|]. rewrite length_app. simpl. lia.
      * apply Hk in Hin as [? Hin]. split; [done|].
        rewrite length_app in Hin. simpl in Hin. lia.
Qed.

Lemma real_dir_depth m key rel : real_dir m key rel → length rel < walk_fuel m.
Proof.
  intros (keys & Hlen & Hnd & Hk)%real_dir_keys.
  assert (Hsub : (list_to_set keys : gset path) ⊆ dom m).
  { intros k Hin%elem_of_list_to_set. apply elem_of_dom. by apply Hk. }
  apply subseteq_size in Hsub. rewrite size_list_to_set, size_dom in Hsub by done.
  unfold walk_fuel, SYMLOOP_MAX. lia.
Qed.

(** ** The removal loops *)

(** A removal deletes the directory that the path resolves to. *)
Lemma os_rmdir_Some m p m' :
  os_rmdir m p = Some m' →
  ∃ key, resolve m p = Some key ∧ m !! key = Some Dir ∧
         listdir m key = [] ∧ m' = delete key m.
Proof.
  unfold os_rmdir. intros H.
  destruct (decide (p = [])) as [->|Hp]; [done|].
  destruct p as [|c0 p0]; [done|]. set (p := c0 :: p0) in *.
  destruct (resolve m (parent p)) as [d|] eqn:Ed; [|done].
  destruct (m !! (d ++ [name p])) as [[| |]|] eqn:Ek; try done.
  case_decide as El; [|done]. injection H as <-.
  exists (d ++ [name p]). split; [|done].
  rewrite <- (parent_name p Hp) at 1. apply resolve_from_snoc; [done|].
  intros t. by rewrite Ek.
Qed.

Lemma reclaim_step_cases m p :
  reclaim_step m p = m ∨
  ∃ key, resolve m p = Some key ∧ m !! key = Some Dir ∧ listdir m key = [] ∧
         reclaim_step m p = delete key m.
Proof.
  unfold reclaim_step. destruct (scandir m p) as [[|n names]|]; try by left.
  destruct (os_rmdir m p) as [m'|] eqn:E; [|by left].
  right. apply os_rmdir_Some in E as (key & ? & ? & ? & ->). by exists key.
Qed.

Lemma dir_deleted_delete m key : m !! key = Some Dir → dir_deleted m (delete key m).
Proof.
  intros H k. destruct (decide (k = key)) as [->|Hk].
  - right. by rewrite lookup_delete_eq.
  - left. by rewrite lookup_delete_ne.
Qed.

Lemma reclaim_step_frame m p : dir_deleted m (reclaim_step m p).
Proof.
  destruct (reclaim_step_cases m p) as [->|(key & _ & H & _ & ->)];
    [apply dir_deleted_refl|by apply dir_deleted_delete].
Qed.

(** On a real directory the step removes it exactly when it is empty. *)
Lemma reclaim_step_real m top key n :
  resolve m top = Some key → m !! (key ++ [n]) = Some Dir →
  reclaim_step m (top ++ [n]) =
    if decide (listdir m (key ++ [n]) = []) then delete (key ++ [n]) m else m.
Proof.
  intros H E. unfold reclaim_step.
  rewrite (scandir_real m _ (key ++ [n])); [|by apply resolve_real_child|
    by rewrite lstat_snoc].
  assert (Hr : os_rmdir m (top ++ [n]) =
               if decide (listdir m (key ++ [n]) = [])
               then Some (delete (key ++ [n]) m) else None).
  { unfold os_rmdir. rewrite parent_snoc, name_snoc, H, E. by destruct top. }
  rewrite Hr. case_decide as El.
  - by rewrite El.
  - by destruct (listdir m (key ++ [n])).
Qed.

Section Reclaim.
Context (skip : path → bool).

Lemma reclaim_frame dirs : ∀ m, dir_deleted m (reclaim skip dirs m).
Proof.
  induction dirs as [|p dirs IH]; intros m; simpl; [apply dir_deleted_refl|].
  eapply dir_deleted_trans; [|apply IH].
  destruct (skip p); [apply dir_deleted_refl|apply reclaim_step_frame].
Qed.

(** A key that no visited directory resolves to stays as it is. *)
Lemma reclaim_keeps m0 kz dirs : ∀ m,
  dir_deleted m0 m →
  (∀ p, p ∈ dirs → skip p = false → resolve m0 p ≠ Some kz) →
  reclaim skip dirs m !! kz = m !! kz.
Proof.
  induction dirs as [|p dirs IH]; intros m Hd Hz; simpl; [done|].
  destruct (skip p) eqn:Es.
  - apply IH; [done|]. intros q Hq. apply Hz. by right.
  - rewrite IH.
    + destruct (reclaim_step_cases m p) as [->|(key & Hr & _ & _ & ->)]; [done|].
      apply lookup_delete_ne. intros ->.
      apply (Hz p); [by left|done|]. by rewrite <- (resolve_dir_deleted m0 m).
    + eapply dir_deleted_trans; [done|apply reclaim_step_frame].
    + intros q Hq. apply Hz. by right.
Qed.

(** After the pass, a visited real directory that was not passed over and
    is still there has an entry. *)
Lemma reclaim_leaves_nonempty m0 root rr dirs : ∀ m,
  dir_deleted m0 m →
  resolve m0 root = Some rr →
  (∀ p, p ∈ dirs → ∃ r, p = root ++ r ∧ real_dir m0 rr r) →
  bottom_up dirs →
  ∀ r n, root ++ r ++ [n] ∈ dirs → skip (root ++ r ++ [n]) = false →
    reclaim skip dirs m !! (rr ++ r ++ [n]) = Some Dir →
    listdir (reclaim skip dirs m) (rr ++ r ++ [n]) ≠ [].
Proof.
  induction dirs as [|p dirs IH]; intros m Hd Hroot Hreal Hbu r n Hin Hskip Hfin;
    [by apply elem_of_nil in Hin|].
  destruct Hbu as [Hp Hbu]. simpl in Hfin |- *.
  set (m1 := if skip p then m else reclaim_step m p) in *.
  assert (Hd1 : dir_deleted m0 m1).
  { unfold m1. destruct (skip p); [done|].
    eapply dir_deleted_trans; [done|apply reclaim_step_frame]. }
  assert (Hreal' : ∀ q, q ∈ dirs → ∃ r, q = root ++ r ∧ real_dir m0 rr r).
  { intros q Hq. apply Hreal. by right. }
  destruct (decide (root ++ r ++ [n] ∈ dirs)) as [Hlater|Hnot].
  { by apply IH. }
  apply elem_of_cons in Hin as [Hpe|?]; [|done].
  assert (Hm1 : m1 !! (rr ++ r ++ [n]) = Some Dir).
  { destruct (reclaim_frame dirs m1 (rr ++ r ++ [n])) as [<-|[_ E]]; [done|].
    fold (reclaim skip dirs m1) in E. congruence. }
  assert (Hres : resolve m (root ++ r) = Some (rr ++ r)).
  { rewrite (resolve_dir_deleted m0 m _ Hd). apply resolve_real_dir; [done|].
    destruct (Hreal p) as (r' & Er & Hr'); [by left|].
    rewrite <- Hpe in Er. apply app_inv_head in Er. subst r'.
    by apply real_dir_last in Hr' as [? _]. }
  assert (Hm : m !! (rr ++ r ++ [n]) = Some Dir).
  { assert (Hmm : dir_deleted m m1).
    { unfold m1. destruct (skip p); [apply dir_deleted_refl|apply reclaim_step_frame]. }
    destruct (Hmm (rr ++ r ++ [n])) as [E|[E _]]; [by rewrite <- E|done]. }
  assert (Estep : m1 = if decide (listdir m (rr ++ r ++ [n]) = [])
                       then delete (rr ++ r ++ [n]) m else m).
  { unfold m1. rewrite <- Hpe, Hskip, (app_assoc root r [n]), (app_assoc rr r [n]).
    apply reclaim_step_real; [done|]. by rewrite <- app_assoc. }
  case_decide as Hempty.
  { rewrite Estep, lookup_delete_eq in Hm1. done. }
  subst m1. rewrite Estep.
  destruct (listdir m (rr ++ r ++ [n])) as [|c names] eqn:El; [done|].
  assert (Hc : is_Some (m !! ((rr ++ r ++ [n]) ++ [c]))).
  { apply elem_of_listdir. rewrite El. by left. }
  intros Hnil. apply listdir_empty with (n := c) in Hnil.
  rewrite (reclaim_keeps m0) in Hnil; [by rewrite Hnil in Hc|done|].
  intros q Hq _ Hrq.
  destruct (Hreal' q Hq) as (rq & -> & Hrq').
  rewrite (resolve_real_dir m0 _ _ _ Hroot Hrq') in Hrq.
  injection Hrq as Hrq. rewrite <- app_assoc in Hrq.
  apply app_inv_head in Hrq. subst rq.
  apply (Hp (root ++ (r ++ [n]) ++ [c])); [done|].
  exists c, []. rewrite <- Hpe. by rewrite <- !app_assoc.
Qed.

End Reclaim.

(** The loop of pipeline B is the fold [reclaim] that passes over the
    directories that resolve to the root. *)
Lemma mover_remove_loop_reclaim m0 root rr dirs : ∀ removed m,
  dir_deleted m0 m → resolve m0 root = Some rr →
  (∀ p, p ∈ dirs → is_Some (resolve m0 p)) →
  ∃ removed',
    Mover.remove_loop root dirs removed m =
      Ok removed' (reclaim (λ p, bool_decide (resolve m0 p = Some rr)) dirs m).
Proof.
  induction dirs as [|p dirs IH]; intros removed m Hd Hroot Hres; [by eexists|].
  destruct (Hres p) as [rp Hp]; [by left|].
  assert (Hres' : ∀ q, q ∈ dirs → is_Some (resolve m0 q)).
  { intros q Hq. apply Hres. by right. }
  simpl. unfold mbind, M_bind, check.
  rewrite (resolve_dir_deleted m0 m p Hd), Hp.
  rewrite (resolve_dir_deleted m0 m root Hd), Hroot.
  destruct (decide (rp = rr)) as [->|Hne].
  - rewrite bool_decide_eq_true_2 by done. by apply IH.
  - rewrite bool_decide_eq_false_2 by congruence.
    unfold try_except, reclaim_step, call.
    destruct (scandir m p) as [names|]; [|by apply IH].
    destruct (decide (names = [])) as [->|Hn].
    + destruct (os_rmdir m p) as [m'|] eqn:Er; [|by apply IH].
      apply IH; [|done..]. eapply dir_deleted_trans; [done|].
      apply os_rmdir_Some in Er as (key & _ & Hk & _ & ->).
      by apply dir_deleted_delete.
    + destruct names; [done|]. by apply IH.
Qed.

Lemma kept_by_cons m k keep p :
  kept_by m (k :: keep) p =
    bool_decide (resolve m p = resolve m k) || kept_by m keep p.
Proof. done. Qed.

Lemma is_kept_kept_by m p keep :
  is_Some (resolve m p) → (∀ k, k ∈ keep → is_Some (resolve m k)) →
  Dedup.is_kept m p keep = Some (kept_by m keep p).
Proof.
  intros [rp Hp] Hkeep. induction keep as [|k keep IH]; [done|].
  destruct (Hkeep k) as [rk Hk]; [by left|].
  rewrite kept_by_cons.
  change (Dedup.is_kept m p (k :: keep)) with
    (match resolve m p, resolve m k with
     | Some rp, Some rk =>
         if decide (rp = rk) then Some true else Dedup.is_kept m p keep
     | _, _ => None
     end).
  rewrite Hp, Hk.
  destruct (decide (rp = rk)) as [->|Hne].
  - by rewrite bool_decide_eq_true_2.
  - rewrite bool_decide_eq_false_2 by congruence. apply IH.
    intros k' Hk'. apply Hkeep. by right.
Qed.

Lemma kept_by_dir_deleted m0 m keep p :
  dir_deleted m0 m → kept_by m keep p = kept_by m0 keep p.
Proof.
  intros Hd. induction keep as [|k keep IH]; [done|].
  rewrite !kept_by_cons. by rewrite !(resolve_dir_deleted m0 m _ Hd), IH.
Qed.

(** The loop of pipeline A is the fold [reclaim] that passes over the root
    and the directories that resolve to a kept one. *)
Lemma dedup_remove_loop_reclaim m0 root keep dirs : ∀ m,
  dir_deleted m0 m →
  (∀ k, k ∈ keep → is_Some (resolve m0 k)) →
  (∀ p, p ∈ dirs → is_Some (resolve m0 p)) →
  Dedup.remove_loop root keep dirs m =
    Ok () (reclaim (λ p, bool_decide (p = root) || kept_by m0 keep p) dirs m).
Proof.
  induction dirs as [|p dirs IH]; intros m Hd Hkeep Hres; [done|].
  assert (Hres' : ∀ q, q ∈ dirs → is_Some (resolve m0 q)).
  { intros q Hq. apply Hres. by right. }
  simpl. unfold mbind, M_bind.
  destruct (decide (p = root)) as [->|Hne].
  - rewrite bool_decide_eq_true_2 by done. simpl. by apply IH.
  - rewrite bool_decide_eq_false_2 by done. unfold check.
    rewrite is_kept_kept_by, (kept_by_dir_deleted m0 m _ _ Hd).
    2: { rewrite (resolve_dir_deleted m0 m _ Hd). apply Hres. by left. }
    2: { intros k Hk. rewrite (resolve_dir_deleted m0 m _ Hd). by apply Hkeep. }
    simpl. destruct (kept_by m0 keep p); simpl; [by apply IH|].
    unfold try_except, reclaim_step, call, mbind, M_bind, check.
    destruct (scandir m p) as [names|]; [|by apply IH].
    destruct (decide (names = [])) as [->|Hn].
    + destruct (os_rmdir m p) as [m'|] eqn:Er; [|by apply IH].
      apply IH; [|done..]. eapply dir_deleted_trans; [done|].
      apply os_rmdir_Some in Er as (key & _ & Hk & _ & ->).
      by apply dir_deleted_delete.
    + destruct names; [done|]. by apply IH.
Qed.

Lemma real_dir_dir_deleted m0 m rel : ∀ d,
  dir_deleted m0 m → real_dir m d rel → real_dir m0 d rel.
Proof.
  induction rel as [|c rel IH]; intros d Hd; simpl; [done|].
  intros [Hc Hr]. split; [|by apply IH].
  destruct (Hd (d ++ [c])) as [<-|[_ E]]; [done|congruence].
Qed.

Lemma kept_by_false m keep p k :
  kept_by m keep p = false → k ∈ keep → resolve m p ≠ resolve m k.
Proof.
  induction keep as [|k' keep IH]; [by intros _ ?%elem_of_nil|].
  rewrite kept_by_cons. intros [H1 H2]%orb_false_elim [->|Hk]%elem_of_cons.
  - by apply bool_decide_eq_false in H1.
  - by apply IH.
Qed.

Lemma kept_by_false_intro m keep p :
  (∀ k, k ∈ keep → resolve m p ≠ resolve m k) → kept_by m keep p = false.
Proof.
  induction keep as [|k keep IH]; intros H; [done|].
  rewrite kept_by_cons, IH; [|intros k' Hk'; apply H; by right].
  rewrite bool_decide_eq_false_2; [done|]. apply H. by left.
Qed.

Section Reclamation.
Context (m : fs) (root rr : path).
Hypothesis Hroot : resolve m root = Some rr.
Hypothesis Hdir : lstat m rr = Some Dir.

Local Abbreviation dirs := (walk_bottomup (walk_fuel m) m root).

Lemma walked_real p : p ∈ dirs → ∃ r, p = root ++ r ∧ real_dir m rr r.
Proof. by apply walk_bottomup_real. Qed.

Lemma walked_resolves p : p ∈ dirs → is_Some (resolve m p).
Proof.
  intros (r & -> & Hr)%walked_real. rewrite (resolve_real_dir m r root rr); by eauto.
Qed.

Lemma real_walked rel : real_dir m rr rel → root ++ rel ∈ dirs.
Proof.
  intros Hr. apply (walk_bottomup_complete m _ _ rr); [done..|].
  by eapply real_dir_depth.
Qed.

(** The shared part: a fold that passes over the root only by way of [skip]
    keeps the root, and leaves no visited directory empty unless [skip]
    passes over it. *)
Lemma reclaim_walk skip :
  (∀ r, skip (root ++ r) = false → r ≠ []) →
  let m' := reclaim skip dirs m in
  dir_deleted m m' ∧ m' !! rr = m !! rr ∧
  ∀ rel, rel ≠ [] → real_dir m' rr rel → skip (root ++ rel) = false →
         listdir m' (rr ++ rel) ≠ [].
Proof.
  intros Hskip m'. split; [apply reclaim_frame|]. split.
  - apply (reclaim_keeps skip m); [apply dir_deleted_refl|].
    intros p (r & -> & Hr)%walked_real Hs.
    rewrite (resolve_real_dir m r root rr) by done.
    intros [= E]. apply (Hskip r Hs). apply (f_equal length) in E.
    rewrite length_app in E. destruct r; [done|simpl in E; lia].
  - intros rel Hne Hreal Hs.
    assert (Hreal0 : real_dir m rr rel).
    { eapply real_dir_dir_deleted; [apply reclaim_frame|done]. }
    destruct rel as [|c rel0] using rev_ind; [done|]. clear IHrel0.
    apply (reclaim_leaves_nonempty skip m root rr);
      [apply dir_deleted_refl|done|apply walked_real|apply walk_bottomup_order|
       by apply real_walked|done|].
    by apply real_dir_last in Hreal as [_ ?].
Qed.

End Reclamation.

(** C6 (as amended): for a tree root that leads to the directory [rr],
    either reclamation ends normally and removes directories only.
    Pipeline B keeps [rr] and nothing else: afterwards every real directory
    below it has an entry.  Pipeline A keeps [rr] and what the kept paths
    lead to: afterwards every real directory below [rr] that no kept path
    leads to has an entry.  A directory whose only entries were directories
    removed in the pass is therefore removed in the same pass. *)
Theorem reclamation_protects_and_cascades m root rr :
  resolve m root = Some rr → lstat m rr = Some Dir →
  (∃ removed m', Mover.remove_empty_dirs root m = Ok removed m' ∧
     dir_deleted m m' ∧ m' !! rr = m !! rr ∧
     ∀ rel, rel ≠ [] → real_dir m' rr rel → listdir m' (rr ++ rel) ≠ []) ∧
  (∀ keep, (∀ k, k ∈ keep → is_Some (resolve m k)) →
     ∃ m', Dedup.remove_empty_dirs root keep m = Ok () m' ∧
       dir_deleted m m' ∧ m' !! rr = m !! rr ∧
       (∀ k rk, k ∈ keep → resolve m k = Some rk → m' !! rk = m !! rk) ∧
       ∀ rel, rel ≠ [] → real_dir m' rr rel →
              (∀ k, k ∈ keep → resolve m k ≠ Some (rr ++ rel)) →
              listdir m' (rr ++ rel) ≠ []).
Proof.
  intros Hroot Hdir. split.
  - destruct (mover_remove_loop_reclaim m root rr
                (walk_bottomup (walk_fuel m) m root) [] m) as [removed E];
      [apply dir_deleted_refl|done|by apply (walked_resolves m root rr)|].
    eexists removed, _. split; [exact E|].
    destruct (reclaim_walk m root rr Hroot Hdir
                (λ p, bool_decide (resolve m p = Some rr))) as (H1 & H2 & H3).
    { intros r Hs ->. rewrite app_nil_r in Hs.
      by rewrite bool_decide_eq_true_2 in Hs. }
    split; [done|]. split; [done|]. intros rel Hne Hreal. apply H3; [done..|].
    apply bool_decide_eq_false_2.
    rewrite (resolve_real_dir m rel root rr); [|done|].
    + intros [= E']. apply (f_equal length) in E'. rewrite length_app in E'.
      destruct rel; [done|simpl in E'; lia].
    + eapply real_dir_dir_deleted; [exact H1|done].
  - intros keep Hkeep.
    exists (reclaim (λ p, bool_decide (p = root) || kept_by m keep p)
              (walk_bottomup (walk_fuel m) m root) m).
    split.
    { apply (dedup_remove_loop_reclaim m root keep);
        [apply dir_deleted_refl|done|by apply (walked_resolves m root rr)]. }
    destruct (reclaim_walk m root rr Hroot Hdir
                (λ p, bool_decide (p = root) || kept_by m keep p)) as (H1 & H2 & H3).
    { intros r Hs ->. rewrite app_nil_r in Hs.
      by rewrite bool_decide_eq_true_2 in Hs. }
    split; [done|]. split; [done|]. split.
    + intros k rk Hk Hrk.
      apply (reclaim_keeps _ m); [apply dir_deleted_refl|].
      intros p _ [_ Hs]%orb_false_elim E.
      apply (kept_by_false m keep p k Hs Hk). congruence.
    + intros rel Hne Hreal Hnot. apply H3; [done..|].
      apply orb_false_intro.
      * apply bool_decide_eq_false_2. intros E. apply (f_equal length) in E.
        rewrite length_app in E. destruct rel; [done|simpl in E; lia].
      * apply kept_by_false_intro. intros k Hk.
        rewrite (resolve_real_dir m rel root rr); [|done|].
        -- intros E. by apply (Hnot k Hk).
        -- eapply real_dir_dir_deleted; [exact H1|done].
Qed.

Lemma reclamation_protects_and_cascades_witness :
  ∃ removed m', Mover.remove_empty_dirs ["old"] inside_fs = Ok removed m' ∧
    m' !! ["old"] = inside_fs !! ["old"].
Proof.
  assert (Hroot : resolve inside_fs ["old"] = Some ["old"]) by (vm_compute; reflexivity).
  assert (Hdir : lstat inside_fs ["old"] = Some Dir) by (vm_compute; reflexivity).
  destruct (reclamation_protects_and_cascades inside_fs ["old"] ["old"] Hroot Hdir)
    as [(removed & m' & E & _ & Hkeep & _) _].
  exists removed, m'. split; [exact E|exact Hkeep].
Defined.

(** C6 (as stated) fails: in pipeline B the destination root [old/dst],
    which [main] itself has created inside the older tree, is removed by
    the reclamation when nothing was moved into it. *)
Lemma destination_root_removed :
  Mover.dest_root inside_args = ["old"; "dst"] ∧
  Mover.removed_dirs <$> value (Mover.main inside_args inside_fs)
    = Some [["old"; "dst"]; ["old"; "e"; "f"]; ["old"; "e"]] ∧
  final (Mover.main inside_args inside_fs) !! ["old"; "dst"] = None.
Proof. vm_compute. repeat split. Qed.

(** * Pipeline A: a second run *)

(** C8 (as stated) fails: when the quarantine entry is a link to the tree
    root, the first run moves [x2] to [x2 (1)] inside the tree itself, with
    no failure, and the second run plans a relocation again. *)
Lemma second_run_plans_again :
  Dedup.actions <$> value (Dedup.main apply_args loop_fs)
    = Some [(["r"; "x2"], ["r"; Dedup.duplicates_name; "x2 (1)"])] ∧
  Dedup.failed <$> value (Dedup.main apply_args loop_fs) = Some [] ∧
  Dedup.actions <$>
    value (Dedup.main apply_args (final (Dedup.main apply_args loop_fs)))
    = Some [(["r"; "x2 (1)"], ["r"; Dedup.duplicates_name; "x2 (1) (1)"])].
Proof. vm_compute. repeat split. Qed.

Section NoLinks.
Context (m : fs).
Hypothesis Hnl : no_links m.

Lemma resolve_from_no_links b : ∀ done rest,
  resolve_from b m done rest = Some (done ++ rest).
Proof.
  intros done rest; revert done. induction rest as [|c rest IH]; intros done.
  - by rewrite resolve_from_nil, app_nil_r.
  - rewrite resolve_from_cons, (cons_middle c done rest), app_assoc, <- IH.
    destruct (m !! (done ++ [c])) as [[| t |]|] eqn:E; try done.
    by destruct (Hnl _ _ E).
Qed.

Lemma resolve_no_links p : resolve m p = Some p.
Proof. apply resolve_from_no_links. Qed.

Lemma stat_no_links p : stat m p = lstat m p.
Proof. unfold stat. by rewrite resolve_no_links. Qed.

Lemma lstat_path_no_links p : lstat_path m p = lstat m p.
Proof.
  unfold lstat_path. destruct p as [|c p]; [done|].
  rewrite resolve_no_links, parent_name; done.
Qed.

Lemma is_symlink_no_links p : is_symlink m p = false.
Proof.
  unfold is_symlink. rewrite lstat_path_no_links.
  destruct (lstat m p) as [[| t |]|] eqn:E; try done.
  destruct p; [done|]. by destruct (Hnl _ _ E).
Qed.

Lemma is_dir_snoc d n : is_dir m (d ++ [n]) = true ↔ m !! (d ++ [n]) = Some Dir.
Proof.
  unfold is_dir. rewrite stat_no_links, lstat_snoc.
  destruct (m !! (d ++ [n])) as [[| |]|]; naive_solver.
Qed.

Lemma is_file_snoc d n :
  is_file m (d ++ [n]) = true ↔ ∃ h t, m !! (d ++ [n]) = Some (File h t).
Proof.
  unfold is_file. rewrite stat_no_links, lstat_snoc.
  destruct (m !! (d ++ [n])) as [[| |]|]; naive_solver.
Qed.

Lemma scandir_no_links p :
  lstat m p = Some Dir → scandir m p = Some (listdir m p).
Proof. intros H. unfold scandir. by rewrite resolve_no_links, H. Qed.

Lemma file_hash_no_links p : p ≠ [] →
  file_hash m p = match m !! p with Some (File (Some h) _) => Some h | _ => None end.
Proof. intros Hp. unfold file_hash. rewrite stat_no_links. by destruct p. Qed.

End NoLinks.

Lemma elem_of_concat {A} (ls : list (list A)) x :
  x ∈ concat ls ↔ ∃ l, l ∈ ls ∧ x ∈ l.
Proof.
  rewrite list_elem_of_In, in_concat. split.
  - intros (l & Hl & Hx). exists l. by rewrite !list_elem_of_In.
  - intros (l & Hl & Hx). exists l. by rewrite <- !list_elem_of_In.
Qed.

(** Lists found below different names of one directory share no path. *)
Lemma NoDup_concat_prefixed (top : path) kept below :
  NoDup kept →
  Forall2 (λ (d : string) (l : list path),
             NoDup l ∧ ∀ x, x ∈ l → ∃ rel, x = top ++ d :: rel) kept below →
  NoDup (concat below).
Proof.
  intros Hnd H. induction H as [|d l kept below [Hl Hpre] H IH]; simpl; [constructor|].
  apply NoDup_cons in Hnd as [Hd Hnd]. apply NoDup_app. split; [done|].
  split; [|by apply IH].
  intros x Hx (l' & Hl' & Hx')%elem_of_concat.
  destruct (Hpre x Hx) as [rel ->].
  apply list_elem_of_lookup in Hl' as [i Hi].
  destruct (Forall2_lookup_r _ _ _ _ _ H Hi) as (d' & Hd' & _ & Hpre').
  destruct (Hpre' _ Hx') as [rel' E]. apply app_inv_head in E.
  injection E as -> _. apply Hd. by eapply list_elem_of_lookup_2.
Qed.

Section Scan.
Context (m : fs) (D : path) (follow : bool).
Hypothesis Hnl : no_links m.

Lemma prune_no_links top names :
  Dedup.prune m D top names = Some (filter (λ n, top ++ [n] ≠ D) names).
Proof.
  induction names as [|n names IH]; [done|].
  simpl. rewrite !resolve_no_links, IH by done.
  rewrite filter_cons. destruct (decide (top ++ [n] = D)) as [E|E].
  - by rewrite decide_False by (by intros ?).
  - by rewrite decide_True.
Qed.

Lemma scanned_cons top d rel :
  rel ≠ [] →
  scanned m D top (d :: rel) ↔
  m !! (top ++ [d]) = Some Dir ∧ top ++ [d] ≠ D ∧ scanned m D (top ++ [d]) rel.
Proof. by destruct rel. Qed.

Lemma scan_no_links fuel : ∀ top,
  ∃ files, Dedup.scan fuel m follow D top = Some files ∧ NoDup files ∧
    (∀ p, p ∈ files → ∃ rel, p = top ++ rel ∧ scanned m D top rel) ∧
    (∀ rel, lstat m top = Some Dir → scanned m D top rel →
            length rel ≤ fuel → top ++ rel ∈ files).
Proof.
  induction fuel as [|fuel IH]; intros top.
  { exists []. split; [done|]. split; [constructor|]. split.
    - by intros p ?%elem_of_nil.
    - intros [|??] _ H Hlen; [done|simpl in Hlen; lia]. }
  simpl. destruct (lstat m top) as [[| |]|] eqn:Et;
    unfold scandir; rewrite resolve_no_links, Et by done;
    try (exists []; split; [done|]; split; [constructor|]; split;
         [by intros p ?%elem_of_nil|by intros rel ?]).
  rewrite prune_no_links.
  set (names := listdir m top).
  set (kept := filter (λ n, top ++ [n] ≠ D)
                 (filter (λ n, is_dir m (top ++ [n]) = true) names)).
  set (here := filter (λ p, is_file m p = true)
                 ((λ n, top ++ [n]) <$> filter (λ n, is_dir m (top ++ [n]) = false) names)).
  assert (Hnames : NoDup names) by apply NoDup_listdir.
  assert (Hkept : ∀ d, d ∈ kept ↔ m !! (top ++ [d]) = Some Dir ∧ top ++ [d] ≠ D).
  { intros d. unfold kept. rewrite !list_elem_of_filter, is_dir_snoc by done.
    unfold names. rewrite elem_of_listdir. split; [naive_solver|].
    intros [H1 H2]. split; [done|]. split; [done|]. by eexists. }
  assert (Hhere : ∀ p, p ∈ here ↔ ∃ n h t, p = top ++ [n] ∧
                                      m !! (top ++ [n]) = Some (File h t)).
  { intros p. unfold here. rewrite list_elem_of_filter, list_elem_of_fmap. split.
    - intros (Hf & n & -> & Hn). apply is_file_snoc in Hf as (h & t & Hf); [|done].
      by exists n, h, t.
    - intros (n & h & t & -> & Hf). split; [apply is_file_snoc; by eauto|].
      exists n. split; [done|]. apply list_elem_of_filter. split.
      + destruct (is_dir m (top ++ [n])) eqn:E; [|done].
        apply is_dir_snoc in E; [congruence|done].
      + apply elem_of_listdir. by eexists. }
  assert (Hbelow : ∃ below,
    mapM (λ d, if follow || negb (is_symlink m (top ++ [d]))
               then Dedup.scan fuel m follow D (top ++ [d]) else Some []) kept
      = Some below ∧
    Forall2 (λ d l, Dedup.scan fuel m follow D (top ++ [d]) = Some l) kept below).
  { clear Hkept. induction kept as [|d kept IHk].
    - exists []. split; [done|constructor].
    - destruct IHk as (below & E & HF). destruct (IH (top ++ [d])) as (l & El & _).
      exists (l :: below). split; [|by constructor].
      simpl. rewrite is_symlink_no_links, orb_true_r by done. simpl.
      rewrite El. simpl. by rewrite E. }
  destruct Hbelow as (below & Emap & HF). rewrite Emap.
  exists (here ++ concat below). split; [done|].
  assert (Hsub : ∀ x, x ∈ concat below ↔
            ∃ d rel, d ∈ kept ∧ x = (top ++ [d]) ++ rel ∧
                     ∃ l, Dedup.scan fuel m follow D (top ++ [d]) = Some l ∧ x ∈ l).
  { intros x. rewrite elem_of_concat. split.
    - intros (l & Hl & Hx). apply list_elem_of_lookup in Hl as [i Hi].
      destruct (Forall2_lookup_r _ _ _ _ _ HF Hi) as (d & Hd & El).
      destruct (IH (top ++ [d])) as (l' & El' & _ & Hsound & _).
      rewrite El in El'. injection El' as <-.
      destruct (Hsound x Hx) as (rel & -> & _).
      exists d, rel. split; [by eapply list_elem_of_lookup_2|]. split; [done|].
      by exists l.
    - intros (d & rel & Hd & -> & l & El & Hx).
      apply list_elem_of_lookup in Hd as [i Hi].
      destruct (Forall2_lookup_l _ _ _ _ _ HF Hi) as (l' & Hl' & El').
      rewrite El in El'. injection El' as <-.
      exists l. split; [by eapply list_elem_of_lookup_2|done]. }
  split; [|split].
  - apply NoDup_app. split; [|split].
    + unfold here. apply NoDup_filter, NoDup_fmap_2; [|by apply NoDup_filter].
      intros x y E. apply app_inv_head in E. by injection E.
    + intros p (n & h & t & -> & _)%Hhere (d & rel & _ & E & l & El & Hx)%Hsub.
      destruct (IH (top ++ [d])) as (l' & El' & _ & Hsound & _).
      rewrite El in El'. injection El' as <-.
      destruct (Hsound _ Hx) as (rel' & E' & Hsc).
      rewrite <- app_assoc in E'. apply app_inv_head in E'.
      destruct rel' as [|? ?]; [done|]. simpl in E'. done.
    + apply (NoDup_concat_prefixed top kept).
      * unfold kept. by do 2 apply NoDup_filter.
      * eapply Forall2_impl; [exact HF|]. intros d l El.
        destruct (IH (top ++ [d])) as (l' & El' & Hnd & Hsound & _).
        rewrite El in El'. injection El' as <-. split; [done|].
        intros x Hx. destruct (Hsound x Hx) as (rel & -> & _).
        exists rel. by rewrite <- app_assoc.
  - intros p [Hp|Hp]%elem_of_app.
    + apply Hhere in Hp as (n & h & t & -> & Hf). exists [n]. split; [done|].
      simpl. by exists h, t.
    + apply Hsub in Hp as (d & rel & Hd & -> & l & El & Hx).
      destruct (IH (top ++ [d])) as (l' & El' & _ & Hsound & _).
      rewrite El in El'. injection El' as <-.
      destruct (Hsound _ Hx) as (rel' & E' & Hsc). apply app_inv_head in E'. subst rel'.
      exists (d :: rel). split; [by rewrite <- app_assoc|].
      apply Hkept in Hd as [Hd1 Hd2].
      apply scanned_cons; [by destruct rel|done].
  - intros rel _ Hsc Hlen. destruct rel as [|d rel]; [done|].
    destruct rel as [|d' rel'].
    + destruct Hsc as (h & t & Hf). apply elem_of_app. left. apply Hhere.
      by exists d, h, t.
    + apply scanned_cons in Hsc as (Hd1 & Hd2 & Hsc); [|done].
      rewrite (cons_middle d top (d' :: rel')), app_assoc.
      apply elem_of_app. right. apply Hsub.
      destruct (IH (top ++ [d])) as (l & El & _ & _ & Hcompl).
      exists d, (d' :: rel'). split; [by apply Hkept|]. split; [done|].
      exists l. split; [done|]. apply Hcompl; [by rewrite lstat_snoc|done|].
      simpl in Hlen |- *. lia.
Qed.

End Scan.

(** ** The dictionary of groups *)

Lemma group_of_setdefault_append by_hash h p h' :
  group_of (Dedup.setdefault_append by_hash h p) h' =
    if decide (h = h') then group_of by_hash h' ++ [p] else group_of by_hash h'.
Proof.
  induction by_hash as [|[k ps] rest IH]; simpl.
  - by destruct (decide (h = h')).
  - destruct (decide (k = h)) as [->|Hk]; simpl.
    + by destruct (decide (h = h')).
    + destruct (decide (k = h')) as [->|Hk']; [|done].
      by rewrite decide_False by congruence.
Qed.

Lemma keys_setdefault_append by_hash h p :
  (Dedup.setdefault_append by_hash h p).*1 =
    if decide (h ∈ by_hash.*1) then by_hash.*1 else by_hash.*1 ++ [h].
Proof.
  induction by_hash as [|[k ps] rest IH]; [done|].
  cbn [Dedup.setdefault_append fmap list_fmap fst].
  destruct (decide (k = h)) as [->|Hk]; cbn [fmap list_fmap fst].
  - destruct (decide (h ∈ h :: rest.*1)) as [H|H]; [done|].
    exfalso. apply H. by left.
  - rewrite IH. destruct (decide (h ∈ rest.*1)) as [Hin|Hin];
      destruct (decide (h ∈ k :: rest.*1)) as [H|H]; try done; exfalso.
    + apply H. by right.
    + apply elem_of_cons in H as [?|?]; congruence.
Qed.

Lemma NoDup_keys_setdefault_append by_hash h p :
  NoDup by_hash.*1 → NoDup (Dedup.setdefault_append by_hash h p).*1.
Proof.
  intros H. rewrite keys_setdefault_append. case_decide as Hin; [done|].
  apply NoDup_app. split; [done|]. split; [|apply NoDup_singleton].
  intros x Hx ->%list_elem_of_singleton. done.
Qed.

Lemma group_of_elem by_hash h ps :
  NoDup by_hash.*1 → (h, ps) ∈ by_hash → group_of by_hash h = ps.
Proof.
  induction by_hash as [|[k qs] rest IH]; intros Hnd Hin; [by apply elem_of_nil in Hin|].
  simpl in *. apply NoDup_cons in Hnd as [Hk Hnd].
  apply elem_of_cons in Hin as [[= -> ->]|Hin]; [by rewrite decide_True|].
  rewrite decide_False; [by apply IH|]. intros ->. apply Hk.
  apply list_elem_of_fmap. by exists (h, ps).
Qed.

(** The group of a digest is the list of the files with that digest, in
    the order of the scan. *)
Lemma group_files_spec m files :
  NoDup (Dedup.group_files m files).*1 ∧
  ∀ h, group_of (Dedup.group_files m files) h =
         filter (λ p, Dedup.sha256_of_file m p = Some h) files.
Proof.
  unfold Dedup.group_files.
  assert (H : ∀ by_hash, NoDup by_hash.*1 →
    let r := foldl (λ by_hash fpath,
                      match Dedup.sha256_of_file m fpath with
                      | Some h => Dedup.setdefault_append by_hash h fpath
                      | None => by_hash
                      end) by_hash files in
    NoDup r.*1 ∧
    ∀ h, group_of r h =
         group_of by_hash h ++ filter (λ p, Dedup.sha256_of_file m p = Some h) files).
  { induction files as [|f files IH]; intros by_hash Hnd; simpl.
    - split; [done|]. intros h. by rewrite app_nil_r.
    - destruct (Dedup.sha256_of_file m f) as [hf|] eqn:Ef.
      + destruct (IH (Dedup.setdefault_append by_hash hf f)) as [H1 H2];
          [by apply NoDup_keys_setdefault_append|].
        split; [done|]. intros h. rewrite H2, group_of_setdefault_append.
        rewrite filter_cons. destruct (decide (hf = h)) as [->|Hne].
        * rewrite decide_True by done. by rewrite <- app_assoc.
        * rewrite decide_False; [done|]. congruence.
      + destruct (IH by_hash Hnd) as [H1 H2]. split; [done|]. intros h.
        rewrite H2, filter_cons, decide_False; [done|]. congruence. }
  destruct (H [] (NoDup_nil_2)) as [H1 H2]. split; [done|]. intros h. by rewrite H2.
Qed.

(** ** What the first run does to the store *)

Lemma inherits_refl D m : inherits D m m.
Proof. by intros k x _ H. Qed.

Lemma inherits_trans D m1 m2 m3 :
  inherits D m1 m2 → inherits D m2 m3 → inherits D m1 m3.
Proof. intros H1 H2 k x Hk H. by apply H1, H2. Qed.

Lemma inherits_dir_deleted D m m' : dir_deleted m m' → inherits D m m'.
Proof. intros H k x _ E. destruct (H k) as [<-|[_ E']]; [done|congruence]. Qed.

Lemma no_links_dir_deleted m m' : dir_deleted m m' → no_links m → no_links m'.
Proof.
  intros H Hnl k t E. destruct (H k) as [E'|[_ E']]; [|congruence].
  rewrite E' in E. by apply (Hnl k t).
Qed.

Lemma prefix_snoc_not (R : path) (n : string) : ¬ (R ++ [n]) `prefix_of` R.
Proof.
  intros [r E]. apply (f_equal length) in E. rewrite !length_app in E.
  simpl in E. lia.
Qed.

Lemma lstat_insert_ne m (p q : path) x :
  p ≠ q → lstat (<[q := x]> m) p = lstat m p.
Proof. intros H. destruct p; [done|]. simpl. by rewrite lookup_insert_ne. Qed.

Lemma lstat_delete_ne (m : fs) (p q : path) :
  p ≠ q → lstat (delete q m) p = lstat m p.
Proof. intros H. destruct p; [done|]. simpl. by rewrite lookup_delete_ne. Qed.

Lemma prefix_nonempty (R : path) (n : string) q : (R ++ [n]) `prefix_of` q → q ≠ [].
Proof. intros [r E] ->. by destruct R. Qed.

Section Quarantine.
Context (R : path).
Local Abbreviation D := (R ++ [Dedup.duplicates_name]).

Lemma os_mkdir_no_links m p :
  no_links m → p ≠ [] →
  os_mkdir m p =
    match lstat m (parent p) with
    | None => inr ENOENT
    | Some Dir =>
        match m !! p with
        | None => inl (<[p := Dir]> m)
        | Some _ => inr EEXIST
        end
    | Some _ => inr EOTHER
    end.
Proof.
  intros Hnl Hp. unfold os_mkdir. destruct p as [|c p]; [done|].
  rewrite resolve_no_links, parent_name by done. done.
Qed.

Lemma tree_ok_insert m q :
  tree_ok R m → D `prefix_of` q → m !! q = None →
  tree_ok R (<[q := Dir]> m) ∧ inherits D m (<[q := Dir]> m).
Proof.
  intros (Hnl & HR & HD) Hq Hnone. split; [split; [|split]|].
  - intros k t. destruct (decide (k = q)) as [->|Hk].
    + by rewrite lookup_insert_eq.
    + rewrite lookup_insert_ne by done. apply Hnl.
  - rewrite lstat_insert_ne; [done|]. intros <-. by apply prefix_snoc_not in Hq.
  - rewrite lookup_insert_ne; [done|]. intros ->. congruence.
  - intros k x Hk E. rewrite lookup_insert_ne in E; [done|]. by intros <-.
Qed.

Lemma mkdir_exist_ok_under m q m' :
  tree_ok R m → D `prefix_of` q → mkdir_exist_ok m q = Some m' →
  tree_ok R m' ∧ inherits D m m'.
Proof.
  intros Hok Hq. unfold mkdir_exist_ok.
  assert (Hne : q ≠ []) by by eapply prefix_nonempty.
  rewrite os_mkdir_no_links by (done || apply Hok).
  destruct (lstat m (parent q)) as [[| |]|]; [| | |done];
    try (destruct (is_dir m q); [|done]; intros [= <-];
         split; [done|apply inherits_refl]).
  destruct (m !! q) eqn:E.
  - destruct (is_dir m q); [|done]. intros [= <-]. split; [done|apply inherits_refl].
  - intros [= <-]. by apply tree_ok_insert.
Qed.

Lemma ancestors_S n q :
  ancestors (S n) q =
    match parent q with [] => [] | a => a :: ancestors n a end.
Proof. done. Qed.

Lemma parent_under q : D `prefix_of` q → q ≠ D → D `prefix_of` parent q.
Proof.
  intros [r ->] Hne. destruct r as [|c r] using rev_ind; [by rewrite app_nil_r in Hne|].
  rewrite app_assoc, parent_snoc. by exists r.
Qed.

Lemma mkdir_chain_nil m q :
  mkdir_chain m q [] =
    match os_mkdir m q with
    | inl m' => Some m'
    | inr ENOENT => None
    | inr _ => if is_dir m q then Some m else None
    end.
Proof. done. Qed.

Lemma mkdir_chain_cons m q a ancs :
  mkdir_chain m q (a :: ancs) =
    match os_mkdir m q with
    | inl m' => Some m'
    | inr ENOENT =>
        match mkdir_chain m a ancs with
        | Some m' => mkdir_exist_ok m' q
        | None => None
        end
    | inr _ => if is_dir m q then Some m else None
    end.
Proof. done. Qed.

Lemma mkdir_chain_under n : ∀ q m m',
  tree_ok R m → D `prefix_of` q →
  mkdir_chain m q (ancestors n q) = Some m' →
  tree_ok R m' ∧ inherits D m m'.
Proof.
  induction n as [|n IH]; intros q m m' Hok Hq.
  - change (ancestors 0 q) with (@nil path). rewrite mkdir_chain_nil.
    pose proof (mkdir_exist_ok_under m q m' Hok Hq) as H.
    unfold mkdir_exist_ok in H.
    destruct (os_mkdir m q) as [m1|[| |]]; done.
  - assert (Hne : q ≠ []) by by eapply prefix_nonempty.
    pose proof (mkdir_exist_ok_under m q m' Hok Hq) as H.
    unfold mkdir_exist_ok in H.
    rewrite ancestors_S.
    destruct (parent q) as [|a0 a] eqn:Ea.
    { rewrite mkdir_chain_nil. destruct (os_mkdir m q) as [m1|[| |]]; done. }
    rewrite mkdir_chain_cons, <- Ea.
    destruct (os_mkdir m q) as [m0|[| |]] eqn:Eo; try done.
    rewrite os_mkdir_no_links in Eo by (done || apply Hok).
    destruct (mkdir_chain m (parent q) (ancestors n (parent q))) as [m1|] eqn:Ec;
      [|done].
    intros Hm'.
    assert (HqD : q ≠ D).
    { intros ->. rewrite parent_snoc in Eo. destruct Hok as (_ & HR & _).
      rewrite HR in Eo. by destruct (m !! D). }
    destruct (IH _ _ _ Hok (parent_under q Hq HqD) Ec) as [Hok1 Hin1].
    destruct (mkdir_exist_ok_under m1 q m' Hok1 Hq Hm') as [Hok2 Hin2].
    split; [done|]. by eapply inherits_trans.
Qed.

Lemma mkdir_parents_under q m m' :
  tree_ok R m → D `prefix_of` q → mkdir_parents m q = Some m' →
  tree_ok R m' ∧ inherits D m m'.
Proof. apply mkdir_chain_under. Qed.

(** A move of a file from outside the quarantine directory to a place in
    it takes the file away from where it was. *)
Lemma shutil_move_under m src dst m' :
  tree_ok R m → D `prefix_of` dst → ¬ D `prefix_of` src →
  (∀ x, m !! src = Some x → ∃ h t, x = File h t) →
  shutil_move m src dst = Some m' →
  tree_ok R m' ∧ inherits D m m' ∧ m' !! src = None.
Proof.
  intros (Hnl & HR & HD) Hdst Hsrc Hfile Hmove.
  assert (Hren : ∃ d, D `prefix_of` d ∧ os_rename m src d = Some m').
  { unfold shutil_move in Hmove. destruct (is_dir m dst).
    - rewrite !resolve_no_links in Hmove by done.
      rewrite bool_decide_eq_false_2 in Hmove; [|intros [= ->]; done].
      simpl in Hmove. destruct (exists_ m (dst ++ [name src])); [done|].
      exists (dst ++ [name src]). split; [|done].
      destruct Hdst as [r ->]. exists (r ++ [name src]). by rewrite app_assoc.
    - by exists dst. }
  destruct Hren as (d & Hd & Hren). unfold os_rename in Hren.
  assert (Hdne : d ≠ []) by by eapply prefix_nonempty.
  destruct src as [|s0 src0]; [done|]. set (src := s0 :: src0) in *.
  destruct d as [|d0 d1]; [done|]. set (d := d0 :: d1) in *.
  rewrite !resolve_no_links, !parent_name in Hren by done.
  destruct (m !! src) as [x|] eqn:Ex; [|done].
  destruct (Hfile x eq_refl) as (h & t & ->).
  destruct (lstat m (parent d)) as [[| |]|]; try done.
  rewrite decide_False in Hren by (by intros ->).
  assert (Hm' : m !! d ≠ Some Dir ∧ m' = <[d := File h t]> (delete src m)).
  { destruct (m !! d) as [[| |]|]; try done; split; try done; by injection Hren. }
  destruct Hm' as [HdD ->]. split; [split; [|split]|split].
  - intros k t'. destruct (decide (k = d)) as [->|Hk].
    + by rewrite lookup_insert_eq.
    + rewrite lookup_insert_ne by done.
      destruct (decide (k = src)) as [->|Hk'].
      * by rewrite lookup_delete_eq.
      * rewrite lookup_delete_ne by done. apply Hnl.
  - rewrite lstat_insert_ne.
    + rewrite lstat_delete_ne; [done|]. intros E. rewrite E in HR.
      simpl in HR. congruence.
    + intros <-. by apply prefix_snoc_not in Hd.
  - rewrite lookup_insert_ne by congruence.
    rewrite lookup_delete_ne; [done|]. intros E. apply Hsrc. rewrite E.
    exists []. by rewrite app_nil_r.
  - intros k x Hk E. rewrite lookup_insert_ne in E by (by intros <-).
    destruct (decide (k = src)) as [->|Hk'].
    + by rewrite lookup_delete_eq in E.
    + by rewrite lookup_delete_ne in E.
  - rewrite lookup_insert_ne by (by intros ->). apply lookup_delete_eq.
Qed.

End Quarantine.

(** ** Inversion of monadic runs *)

Lemma bind_Ok {A B} (c : M A) (k : A → M B) m b m' :
  (c ≫= k) m = Ok b m' → ∃ a m1, c m = Ok a m1 ∧ k a m1 = Ok b m'.
Proof.
  unfold mbind, M_bind. destruct (c m) as [a m1| |]; [|done..].
  intros H. by exists a, m1.
Qed.

Lemma check_Ok {A} (f : fs → option A) m a m' :
  check f m = Ok a m' → f m = Some a ∧ m' = m.
Proof. unfold check. destruct (f m); [|done]. by intros [= -> <-]. Qed.

Lemma ask_Ok {A} (f : fs → A) m a m' : ask f m = Ok a m' → a = f m ∧ m' = m.
Proof. by intros [= <- <-]. Qed.

Lemma call_Ok (f : fs → option fs) m u m' : call f m = Ok u m' → f m = Some m'.
Proof. unfold call. destruct (f m); [|done]. by intros [= _ ->]. Qed.

Lemma ret_Ok {A} (a b : A) m m' : (mret a : M A) m = Ok b m' → b = a ∧ m' = m.
Proof. by intros [= <- <-]. Qed.

Lemma unique_destination_form m base_dir filename :
  ∃ x, Dedup.unique_destination m base_dir filename = base_dir ++ [x].
Proof.
  unfold Dedup.unique_destination.
  destruct (exists_ m (base_dir ++ [filename])); cbn [negb]; [|by eexists].
  destruct (first_free (rounds m) m base_dir (stem filename) (suffix filename) 1)
    as [r|] eqn:E; cbn [default from_option id]; [|by eexists].
  apply first_free_some in E as (k & _ & -> & _). by eexists.
Qed.

Lemma parent_app (d rel : path) : rel ≠ [] → parent (d ++ rel) = d ++ parent rel.
Proof. intros H. by apply removelast_app. Qed.

Section Planning.
Context (R : path).
Local Abbreviation D := (R ++ [Dedup.duplicates_name]).

(** The planning of one group, in an apply run that goes through: every
    member but the newest gets a destination strictly inside the
    quarantine directory, and only directories inside it are made. *)
Lemma plan_group_spec newest paths : ∀ actions m res m',
  tree_ok R m →
  (∀ p, p ∈ paths → ∃ rel, rel ≠ [] ∧ p = R ++ rel) →
  Dedup.plan_group false R D newest paths actions m = Ok res m' →
  tree_ok R m' ∧ inherits D m m' ∧
  ∃ new, res = actions ++ new ∧
    (∀ p, p ∈ paths → p ≠ newest → p ∈ new.*1) ∧
    (∀ src dst, (src, dst) ∈ new → src ∈ paths ∧ below D dst).
Proof.
  induction paths as [|p paths IH]; intros actions m res m' Hok Hpaths Hrun.
  - apply ret_Ok in Hrun as [-> ->]. split; [done|]. split; [apply inherits_refl|].
    exists []. split; [by rewrite app_nil_r|]. split.
    + by intros p ?%elem_of_nil.
    + by intros src dst ?%elem_of_nil.
  - assert (Hpaths' : ∀ q, q ∈ paths → ∃ rel, rel ≠ [] ∧ q = R ++ rel).
    { intros q Hq. apply Hpaths. by right. }
    simpl in Hrun. destruct (decide (p = newest)) as [->|Hne].
    { destruct (IH _ _ _ _ Hok Hpaths' Hrun) as (H1 & H2 & new & -> & H3 & H4).
      split; [done|]. split; [done|]. exists new. split; [done|]. split.
      - intros q [->|Hq]%elem_of_cons Hq'; [done|]. by apply H3.
      - intros src dst Hin. destruct (H4 _ _ Hin) as [? ?]. split; [by right|done]. }
    destruct (Hpaths p) as (rel & Hrel & ->); [by left|].
    destruct Hok as (Hnl & HR & HD).
    apply bind_Ok in Hrun as (rp & ? & [Erp ->]%check_Ok & Hrun).
    apply bind_Ok in Hrun as (rmain & ? & [Erm ->]%check_Ok & Hrun).
    rewrite resolve_no_links in Erp, Erm by done.
    injection Erp as <-. injection Erm as <-.
    apply bind_Ok in Hrun as (rel' & ? & [Erel ->]%check_Ok & Hrun).
    rewrite relative_to_app in Erel. injection Erel as <-.
    apply bind_Ok in Hrun as ([] & m1 & Hmk%call_Ok & Hrun).
    assert (Hpre : D `prefix_of` parent (D ++ rel)).
    { rewrite parent_app by done. by eexists. }
    destruct (mkdir_parents_under R _ _ _ (conj Hnl (conj HR HD)) Hpre Hmk)
      as [Hok1 Hin1].
    apply bind_Ok in Hrun as (taken & ? & [-> ->]%ask_Ok & Hrun).
    apply bind_Ok in Hrun as (dst & m1' & Hdst & Hrun).
    assert (Hd : m1' = m1 ∧ below D dst).
    { destruct (exists_ m1 (D ++ rel)).
      - apply ask_Ok in Hdst as [-> ->]. split; [done|].
        destruct (unique_destination_form m1 (parent (D ++ rel)) (name (R ++ rel)))
          as [x ->].
        rewrite parent_app by done. destruct (parent rel) as [|c r] eqn:E.
        + exists x, []. by rewrite app_nil_r.
        + exists c, (r ++ [x]). by rewrite <- app_assoc.
      - apply ret_Ok in Hdst as [-> ->]. split; [done|].
        destruct rel as [|c r]; [done|]. by exists c, r. }
    destruct Hd as [-> Hbelow].
    destruct (IH _ _ _ _ Hok1 Hpaths' Hrun) as (H1 & H2 & new & -> & H3 & H4).
    split; [done|]. split; [by eapply inherits_trans|].
    exists ((R ++ rel, dst) :: new). split; [by rewrite <- app_assoc|]. split.
    + intros q [->|Hq]%elem_of_cons Hq'; [by left|]. right. by apply H3.
    + intros src dst' [[= -> ->]|Hin]%elem_of_cons; [split; [by left|done]|].
      destruct (H4 _ _ Hin) as [? ?]. split; [by right|done].
Qed.

Lemma plan_groups_spec by_hash : ∀ actions kept m res m',
  tree_ok R m →
  (∀ h paths p, (h, paths) ∈ by_hash → p ∈ paths → ∃ rel, rel ≠ [] ∧ p = R ++ rel) →
  Dedup.plan_groups false R D by_hash actions kept m = Ok res m' →
  tree_ok R m' ∧ inherits D m m' ∧
  ∃ new, res.1 = actions ++ new ∧
    (∀ h paths, (h, paths) ∈ by_hash → 2 ≤ length paths →
       ∃ s, ∀ p, p ∈ paths → p ≠ s → p ∈ new.*1) ∧
    (∀ src dst, (src, dst) ∈ new →
       (∃ h paths, (h, paths) ∈ by_hash ∧ src ∈ paths) ∧ below D dst).
Proof.
  induction by_hash as [|[h paths] by_hash IH]; intros actions kept m res m' Hok Hp Hrun.
  - apply ret_Ok in Hrun as [-> ->]. split; [done|]. split; [apply inherits_refl|].
    exists []. split; [by rewrite app_nil_r|]. split.
    + by intros h paths ?%elem_of_nil.
    + by intros src dst ?%elem_of_nil.
  - assert (Hp' : ∀ h' paths' p, (h', paths') ∈ by_hash → p ∈ paths' →
                    ∃ rel, rel ≠ [] ∧ p = R ++ rel).
    { intros h' paths' p Hin. apply (Hp h'). by right. }
    assert (Hrest : ∀ new0 kept' m1,
      tree_ok R m1 → inherits D m m1 →
      (2 ≤ length paths → ∃ s, ∀ p, p ∈ paths → p ≠ s → p ∈ new0.*1) →
      (∀ src dst, (src, dst) ∈ new0 → src ∈ paths ∧ below D dst) →
      Dedup.plan_groups false R D by_hash (actions ++ new0) kept' m1 = Ok res m' →
      tree_ok R m' ∧ inherits D m m' ∧
      ∃ new, res.1 = actions ++ new ∧
        (∀ h0 paths0, (h0, paths0) ∈ (h, paths) :: by_hash → 2 ≤ length paths0 →
           ∃ s, ∀ p, p ∈ paths0 → p ≠ s → p ∈ new.*1) ∧
        (∀ src dst, (src, dst) ∈ new →
           (∃ h0 paths0, (h0, paths0) ∈ (h, paths) :: by_hash ∧ src ∈ paths0) ∧
           below D dst)).
    { intros new0 kept' m1 Hok1 Hin1 Hcov Hsrc Hrun1.
      destruct (IH _ _ _ _ _ Hok1 Hp' Hrun1) as (H1 & H2 & new & E & H3 & H4).
      split; [done|]. split; [by eapply inherits_trans|].
      exists (new0 ++ new). split; [by rewrite app_assoc|]. split.
      - intros h0 paths0 [[= -> ->]|Hin]%elem_of_cons Hlen.
        + destruct (Hcov Hlen) as [s Hs]. exists s. intros p Hp1 Hp2.
          rewrite fmap_app. apply elem_of_app. left. by apply Hs.
        + destruct (H3 _ _ Hin Hlen) as [s Hs]. exists s. intros p Hp1 Hp2.
          rewrite fmap_app. apply elem_of_app. right. by apply Hs.
      - intros src dst [Hin|Hin]%elem_of_app.
        + destruct (Hsrc _ _ Hin) as [? ?]. split; [|done].
          exists h, paths. split; [by left|done].
        + destruct (H4 _ _ Hin) as [(h0 & paths0 & ? & ?) ?]. split; [|done].
          exists h0, paths0. split; [by right|done]. }
    simpl in Hrun. destruct paths as [|p0 [|p1 ps]].
    + apply (Hrest [] kept m); [done|apply inherits_refl|simpl; lia| |].
      * by intros src dst ?%elem_of_nil.
      * by rewrite app_nil_r.
    + apply (Hrest [] (kept ++ [p0]) m); [done|apply inherits_refl|simpl; lia| |].
      * by intros src dst ?%elem_of_nil.
      * by rewrite app_nil_r.
    + apply bind_Ok in Hrun as (newest & ? & [-> ->]%ask_Ok & Hrun).
      apply bind_Ok in Hrun as (actions' & m1 & Hgroup & Hrun).
      apply plan_group_spec in Hgroup as (Hok1 & Hin1 & new0 & -> & Hc & Hs);
        [|done|intros p; apply (Hp h); by left].
      eapply (Hrest new0); [exact Hok1|exact Hin1| | |exact Hrun].
      * intros _. eexists. exact Hc.
      * exact Hs.
Qed.

End Planning.

Section Moving.
Context (R : path).
Local Abbreviation D := (R ++ [Dedup.duplicates_name]).

(** The list of failures only grows. *)
Lemma move_all_failed_grows actions : ∀ failed m f m',
  Dedup.move_all false actions failed m = Ok f m' → ∃ extra, f = failed ++ extra.
Proof.
  induction actions as [|[src dst] actions IH]; intros failed m f m' Hrun.
  - apply ret_Ok in Hrun as [-> _]. exists []. by rewrite app_nil_r.
  - simpl in Hrun. apply bind_Ok in Hrun as (failed' & m1 & Htry & Hrun).
    destruct (IH _ _ _ _ Hrun) as [extra ->].
    unfold try_except in Htry.
    destruct ((call (λ m, mkdir_parents m (parent dst));;
               call (λ m, shutil_move m src dst);; mret failed) m)
      as [a ma|ma|code ma] eqn:E; [| |done].
    + apply bind_Ok in E as (? & ? & _ & E).
      apply bind_Ok in E as (? & ? & _ & E). apply ret_Ok in E as [-> _].
      injection Htry as <- <-. by exists extra.
    + injection Htry as <- <-. exists ([(src, dst)] ++ extra). by rewrite app_assoc.
Qed.

(** When no move fails, every source is gone from where it was. *)
Lemma move_all_spec m0 actions : ∀ failed m m',
  tree_ok R m → inherits D m0 m →
  (∀ src dst, (src, dst) ∈ actions →
     below D dst ∧ ¬ D `prefix_of` src ∧
     ∀ x, m0 !! src = Some x → ∃ h t, x = File h t) →
  Dedup.move_all false actions failed m = Ok [] m' →
  tree_ok R m' ∧ inherits D m m' ∧
  ∀ src dst, (src, dst) ∈ actions → m' !! src = None.
Proof.
  induction actions as [|[src dst] actions IH]; intros failed m m' Hok Hin0 Hact Hrun.
  - apply ret_Ok in Hrun as [_ ->]. split; [done|]. split; [apply inherits_refl|].
    by intros src dst ?%elem_of_nil.
  - simpl in Hrun. apply bind_Ok in Hrun as (failed' & m1 & Htry & Hrun).
    destruct (move_all_failed_grows _ _ _ _ _ Hrun) as [extra E].
    symmetry in E. apply app_eq_nil in E as [-> ->].
    destruct (Hact src dst) as (Hbelow & Hsrc & Hfile); [by left|].
    unfold try_except in Htry.
    destruct ((call (λ m, mkdir_parents m (parent dst));;
               call (λ m, shutil_move m src dst);; mret failed) m)
      as [a ma|ma|code ma] eqn:E; [| |done].
    2: { injection Htry as Hf _. by destruct failed. }
    assert (Em : m1 = ma) by congruence. subst m1. clear Htry.
    apply bind_Ok in E as ([] & mk & Hmk%call_Ok & E).
    apply bind_Ok in E as ([] & mv & Hmv%call_Ok & E).
    apply ret_Ok in E as [_ Em]. subst mv.
    destruct Hbelow as (c & r & ->).
    assert (Hpre : D `prefix_of` parent (D ++ c :: r)).
    { rewrite parent_app by done. by eexists. }
    destruct (mkdir_parents_under R _ _ _ Hok Hpre Hmk) as [Hoka Hina].
    destruct (shutil_move_under R mk src (D ++ c :: r) ma Hoka) as (Hokb & Hinb & Hgone);
      [by eexists|done| |done|].
    { intros x Hx. apply Hfile, Hin0; [done|]. by apply Hina. }
    destruct (IH [] ma m' Hokb) as (H1 & H2 & H3); [| |done|].
    { eapply inherits_trans; [done|]. by eapply inherits_trans. }
    { intros s d Hsd. apply Hact. by right. }
    split; [done|]. split.
    { eapply inherits_trans; [done|]. by eapply inherits_trans. }
    intros s d [[= -> ->]|Hsd]%elem_of_cons; [|by eapply H3].
    destruct (m' !! src) as [x|] eqn:Ex; [|done].
    apply H2 in Ex; [congruence|done].
Qed.

(** Groups of at most one member plan nothing and leave the store alone. *)
Lemma plan_groups_singletons dry by_hash : ∀ actions kept m,
  (∀ h paths, (h, paths) ∈ by_hash → length paths ≤ 1) →
  ∃ kept', Dedup.plan_groups dry R D by_hash actions kept m = Ok (actions, kept') m.
Proof.
  induction by_hash as [|[h paths] by_hash IH]; intros actions kept m Hlen;
    [by eexists|].
  assert (Hlen' : ∀ h' paths', (h', paths') ∈ by_hash → length paths' ≤ 1).
  { intros h' paths' Hin. apply (Hlen h'). by right. }
  simpl. destruct paths as [|p0 [|p1 ps]]; [by apply IH..|].
  specialize (Hlen h (p0 :: p1 :: ps)). simpl in Hlen.
  assert (H : (h, p0 :: p1 :: ps) ∈ (h, p0 :: p1 :: ps) :: by_hash) by by left.
  apply Hlen in H. lia.
Qed.

End Moving.

(** ** Scanned files across the two runs *)

Lemma scanned_real_dir m D : ∀ rel top,
  scanned m D top rel → real_dir m top (removelast rel).
Proof.
  induction rel as [|d rel IH]; intros top; [done|].
  destruct rel as [|d' rel']; [done|].
  intros (Hd & _ & Hsc)%scanned_cons; [|done].
  change (removelast (d :: d' :: rel')) with (d :: removelast (d' :: rel')).
  split; [done|]. by apply IH.
Qed.

Lemma scanned_depth m D top rel : scanned m D top rel → length rel ≤ walk_fuel m.
Proof.
  intros H. pose proof (real_dir_depth m top _ (scanned_real_dir m D rel top H)) as Hd.
  destruct rel as [|d rel] using rev_ind; [simpl; lia|].
  rewrite removelast_last in Hd. rewrite length_app. simpl. lia.
Qed.

Lemma scanned_file m D : ∀ rel top,
  scanned m D top rel → ∃ h t, m !! (top ++ rel) = Some (File h t).
Proof.
  induction rel as [|d rel IH]; intros top; [done|].
  destruct rel as [|d' rel'].
  - intros (h & t & H). by exists h, t.
  - intros (_ & _ & Hsc)%scanned_cons; [|done].
    destruct (IH _ Hsc) as (h & t & H). exists h, t.
    by rewrite (cons_middle d top (d' :: rel')), app_assoc.
Qed.

(** A scanned file does not lie in the quarantine directory. *)
Lemma scanned_outside m (R : path) (n : string) rel :
  m !! (R ++ [n]) = Some Dir → scanned m (R ++ [n]) R rel →
  ¬ (R ++ [n]) `prefix_of` (R ++ rel).
Proof.
  intros HD Hsc [r E]. rewrite <- app_assoc in E. apply app_inv_head in E.
  destruct rel as [|d rel]; [done|]. simpl in E. injection E as -> ->.
  destruct r as [|d' r'].
  - destruct Hsc as (h & t & H). congruence.
  - apply scanned_cons in Hsc as (_ & Hne & _); done.
Qed.

Lemma scanned_inherits m1 m4 (R : path) (n : string) : ∀ rel top,
  inherits (R ++ [n]) m1 m4 →
  (∀ r, r ≠ [] → r `prefix_of` rel → ¬ (R ++ [n]) `prefix_of` (top ++ r)) →
  scanned m4 (R ++ [n]) top rel → scanned m1 (R ++ [n]) top rel.
Proof.
  induction rel as [|d rel IH]; intros top Hin Hout; [done|].
  destruct rel as [|d' rel'].
  - intros (h & t & H). exists h, t. apply Hin; [|done].
    apply (Hout [d]); [done|by exists []].
  - intros (Hd & Hne & Hsc)%scanned_cons; [|done].
    apply scanned_cons; [done|]. split; [|split; [done|]].
    + apply Hin; [|done]. apply (Hout [d]); [done|]. by exists (d' :: rel').
    + apply IH; [done| |done]. intros r Hr [r' E].
      rewrite <- app_assoc. apply (Hout (d :: r)); [done|]. exists r'.
      simpl. by rewrite E.
Qed.

Lemma bind_run {A B} (c : M A) (k : A → M B) m a m1 :
  c m = Ok a m1 → (c ≫= k) m = k a m1.
Proof. unfold mbind, M_bind. by intros ->. Qed.

Lemma lstat_kept (m m' : fs) (p : path) :
  m' !! p = m !! p → lstat m' p = lstat m p.
Proof. intros H. by destruct p. Qed.

Lemma snoc_nonempty (R : path) (n : string) : R ++ [n] ≠ [].
Proof. by destruct R. Qed.

Section TwoRuns.
Context (R : path).
Local Abbreviation D := (R ++ [Dedup.duplicates_name]).

Lemma mkdir_quarantine m m1 :
  no_links m → lstat m R = Some Dir → mkdir_exist_ok m D = Some m1 → tree_ok R m1.
Proof.
  intros Hnl HR. unfold mkdir_exist_ok.
  rewrite os_mkdir_no_links by (done || apply snoc_nonempty).
  rewrite parent_snoc, HR. destruct (m !! D) as [x|] eqn:E.
  - destruct (is_dir m D) eqn:Ed; [|done]. intros [= <-].
    apply is_dir_snoc in Ed; done.
  - intros [= <-]. split; [|split].
    + intros k t. destruct (decide (k = D)) as [->|Hk].
      * by rewrite lookup_insert_eq.
      * rewrite lookup_insert_ne by done. apply Hnl.
    + rewrite lstat_insert_ne; [done|]. intros E'.
      apply (prefix_snoc_not R Dedup.duplicates_name). rewrite <- E'.
      exists []. by rewrite app_nil_r.
    + apply lookup_insert_eq.
Qed.

Lemma mkdir_quarantine_again m : tree_ok R m → mkdir_exist_ok m D = Some m.
Proof.
  intros (Hnl & HR & HD). unfold mkdir_exist_ok.
  rewrite os_mkdir_no_links by (done || apply snoc_nonempty).
  rewrite parent_snoc, HR, HD.
  by rewrite (proj2 (is_dir_snoc m Hnl R Dedup.duplicates_name) HD).
Qed.

Lemma tree_ok_is_dir m : tree_ok R m → exists_ m R && is_dir m R = true.
Proof.
  intros (Hnl & HR & _). unfold exists_, is_dir. by rewrite stat_no_links, HR.
Qed.

(** The reclamation of pipeline A ends normally and keeps the tree in
    order. *)
Lemma reclamation_keeps_tree m :
  tree_ok R m →
  ∃ m', Dedup.remove_empty_dirs R [D] m = Ok () m' ∧ tree_ok R m' ∧ dir_deleted m m'.
Proof.
  intros (Hnl & HR & HD).
  set (skip := λ p, bool_decide (p = R) || kept_by m [D] p).
  exists (reclaim skip (walk_bottomup (walk_fuel m) m R) m).
  assert (Hres : ∀ p, is_Some (resolve m p)) by (intros p; by rewrite resolve_no_links).
  split.
  { apply (dedup_remove_loop_reclaim m R [D]); [apply dir_deleted_refl|done..]. }
  destruct (reclaim_walk m R R (resolve_no_links m Hnl R) HR skip) as (H1 & H2 & _).
  { intros r Hs ->. unfold skip in Hs. rewrite app_nil_r in Hs.
    by rewrite bool_decide_eq_true_2 in Hs. }
  split; [|done]. split; [by eapply no_links_dir_deleted|]. split.
  - by rewrite (lstat_kept m _ R H2).
  - rewrite (reclaim_keeps skip m D); [done|apply dir_deleted_refl|].
    intros p _ [_ Hs]%orb_false_elim E.
    apply (kept_by_false m [D] p D Hs); [by left|].
    by rewrite E, resolve_no_links.
Qed.

(** What an apply run without failures leaves behind. *)
Lemma first_run_spec a m rep m' :
  no_links m → Dedup.main_dir a = R → Dedup.dry_run a = false →
  Dedup.main a m = Ok rep m' → Dedup.failed rep = [] →
  ∃ m1 files,
    tree_ok R m1 ∧ tree_ok R m' ∧ inherits D m1 m' ∧
    (∀ rel, scanned m1 D R rel → R ++ rel ∈ files) ∧
    ∀ h, 2 ≤ length (filter (λ p, Dedup.sha256_of_file m1 p = Some h) files) →
         ∃ s, ∀ p, p ∈ filter (λ p, Dedup.sha256_of_file m1 p = Some h) files →
                   p ≠ s → m' !! p = None.
Proof.
  intros Hnl HR Hdry Hrun Hfailed. unfold Dedup.main in Hrun.
  rewrite HR, Hdry in Hrun.
  apply bind_Ok in Hrun as (R' & ? & [ER ->]%check_Ok & Hrun).
  rewrite resolve_no_links in ER by done. injection ER as <-.
  apply bind_Ok in Hrun as (ok & ? & [-> ->]%ask_Ok & Hrun).
  destruct (exists_ m R && is_dir m R) eqn:Eok; [|done]. cbn [negb] in Hrun.
  assert (HRd : lstat m R = Some Dir).
  { apply andb_prop in Eok as [_ Ed]. unfold is_dir in Ed.
    rewrite stat_no_links in Ed by done. by destruct (lstat m R) as [[| |]|]. }
  apply bind_Ok in Hrun as ([] & m1 & Hmk%call_Ok & Hrun).
  pose proof (mkdir_quarantine m m1 Hnl HRd Hmk) as Hok1.
  apply bind_Ok in Hrun as (files & ? & [Escan ->]%check_Ok & Hrun).
  apply bind_Ok in Hrun as (by_hash & ? & [-> ->]%ask_Ok & Hrun).
  apply bind_Ok in Hrun as (ak & m2 & Hplan & Hrun).
  apply bind_Ok in Hrun as (failed & m3 & Hmove & Hrun).
  apply bind_Ok in Hrun as ([] & m4 & Hrec & Hrun).
  apply ret_Ok in Hrun as [-> ->]. simpl in Hfailed. subst failed.
  destruct Hok1 as (Hnl1 & HR1 & HD1).
  destruct (scan_no_links m1 D (Dedup.follow_symlinks a) Hnl1 (walk_fuel m1) R)
    as (files' & Escan' & Hnd & Hsound & Hcompl).
  rewrite Escan in Escan'. injection Escan' as <-.
  destruct (group_files_spec m1 files) as [Hkeys Hgroup].
  assert (Hmember : ∀ h paths p, (h, paths) ∈ Dedup.group_files m1 files →
                      p ∈ paths → p ∈ files).
  { intros h paths p Hin Hp. rewrite <- (group_of_elem _ _ _ Hkeys Hin), Hgroup in Hp.
    by apply list_elem_of_filter in Hp as [_ ?]. }
  assert (Hbelow : ∀ h paths p, (h, paths) ∈ Dedup.group_files m1 files →
                     p ∈ paths → ∃ rel, rel ≠ [] ∧ p = R ++ rel).
  { intros h paths p Hin Hp.
    destruct (Hsound p (Hmember _ _ _ Hin Hp)) as (rel & -> & Hsc).
    exists rel. split; [by destruct rel|done]. }
  destruct (plan_groups_spec R _ _ _ _ _ _ (conj Hnl1 (conj HR1 HD1)) Hbelow Hplan)
    as (Hok2 & Hin2 & new & Enew & Hcover & Hsrc).
  simpl in Enew. rewrite Enew in Hmove.
  destruct (move_all_spec R m1 new [] m2 m3 Hok2 Hin2) as (Hok3 & Hin3 & Hgone);
    [|done|].
  { intros src dst Hin. destruct (Hsrc _ _ Hin) as [(h & paths & Hg & Hp) Hb].
    destruct (Hsound src (Hmember _ _ _ Hg Hp)) as (rel & -> & Hsc).
    split; [done|]. split; [by apply (scanned_outside m1)|].
    intros x Hx. destruct (scanned_file _ _ _ _ Hsc) as (h' & t & Hf).
    exists h', t. congruence. }
  destruct (reclamation_keeps_tree m3 Hok3) as (m4' & Hrec' & Hok4 & Hdel).
  rewrite Hrec in Hrec'. injection Hrec' as <-.
  exists m1, files. split; [done|]. split; [done|]. split.
  { eapply inherits_trans; [exact Hin2|]. eapply inherits_trans; [exact Hin3|].
    by apply inherits_dir_deleted. }
  split.
  { intros rel Hsc. apply Hcompl; [done..|]. by eapply scanned_depth. }
  intros h Hlen.
  set (paths := filter (λ p, Dedup.sha256_of_file m1 p = Some h) files) in *.
  assert (Hin : (h, paths) ∈ Dedup.group_files m1 files).
  { assert (E : group_of (Dedup.group_files m1 files) h = paths) by apply Hgroup.
    clearbody paths. clear -E Hlen.
    induction (Dedup.group_files m1 files) as [|[k ps] rest IH]; simpl in E.
    - subst paths. simpl in Hlen. lia.
    - destruct (decide (k = h)) as [->|Hk]; [subst ps; by left|]. right. by apply IH. }
  destruct (Hcover _ _ Hin Hlen) as [s Hs]. exists s. intros p Hp Hne.
  apply Hs in Hp; [|done]. apply list_elem_of_fmap in Hp as ([src dst] & -> & Hp).
  destruct (m4 !! src) as [x|] eqn:Ex; [|done].
  destruct (Hdel src) as [E|[_ E]]; [|congruence].
  rewrite (Hgone _ _ Hp) in E. congruence.
Qed.

End TwoRuns.

Lemma two_members {A} (l : list A) :
  NoDup l → 2 ≤ length l → ∃ p q, p ≠ q ∧ p ∈ l ∧ q ∈ l.
Proof.
  intros Hnd Hlen. destruct l as [|p [|q l]]; [simpl in Hlen; lia..|].
  exists p, q. split; [|split; [by left|right; by left]].
  apply NoDup_cons in Hnd as [Hp _]. intros ->. apply Hp. by left.
Qed.

Lemma members_two {A} (l : list A) p q : p ≠ q → p ∈ l → q ∈ l → 2 ≤ length l.
Proof.
  intros Hne Hp Hq. destruct l as [|x [|y l]]; [by apply elem_of_nil in Hp| |simpl; lia].
  apply list_elem_of_singleton in Hp, Hq. congruence.
Qed.

Lemma no_links_check (m : fs) :
  forallb (λ kv : path * node,
             match kv.2 with Symlink _ => false | _ => true end) (map_to_list m) = true →
  no_links m.
Proof.
  intros H k t E. rewrite forallb_forall in H.
  specialize (H (k, Symlink t)). simpl in H.
  assert (Hin : In (k, Symlink t) (map_to_list m)).
  { apply list_elem_of_In. by apply elem_of_map_to_list. }
  by apply H in Hin.
Qed.

Section SecondRun.
Context (R : path).
Local Abbreviation D := (R ++ [Dedup.duplicates_name]).

(** A run on a tree in which no two scanned files share a digest plans
    nothing, whatever its flags. *)
Lemma second_run_spec a2 m4 :
  tree_ok R m4 → Dedup.main_dir a2 = R →
  (∀ files2 h,
     Dedup.scan (walk_fuel m4) m4 (Dedup.follow_symlinks a2) D R = Some files2 →
     length (filter (λ p, Dedup.sha256_of_file m4 p = Some h) files2) ≤ 1) →
  ∃ rep2 m'', Dedup.main a2 m4 = Ok rep2 m'' ∧ Dedup.actions rep2 = [].
Proof.
  intros Hok HR Hone. pose proof Hok as (Hnl & HRd & HD).
  destruct (scan_no_links m4 D (Dedup.follow_symlinks a2) Hnl (walk_fuel m4) R)
    as (files2 & Escan & _).
  destruct (group_files_spec m4 files2) as [Hkeys Hgroup].
  destruct (plan_groups_singletons R (Dedup.dry_run a2)
              (Dedup.group_files m4 files2) [] [] m4) as [kept' Hplan].
  { intros h paths Hin. rewrite <- (group_of_elem _ _ _ Hkeys Hin), Hgroup.
    by apply Hone. }
  assert (Hmk : (if Dedup.dry_run a2 then mret ()
                 else call (λ m, mkdir_exist_ok m D)) m4 = Ok () m4).
  { destruct (Dedup.dry_run a2); [done|]. unfold call.
    by rewrite mkdir_quarantine_again. }
  assert (Hrec : ∃ m5, (if Dedup.dry_run a2 then mret ()
                        else Dedup.remove_empty_dirs R [D]) m4 = Ok () m5).
  { destruct (Dedup.dry_run a2); [by eexists|].
    destruct (reclamation_keeps_tree R m4 Hok) as (m5 & E & _). by exists m5. }
  destruct Hrec as [m5 Hrec].
  exists (Dedup.Report [] kept' []), m5. split; [|done].
  unfold Dedup.main. rewrite HR.
  rewrite (bind_run _ _ m4 R m4); [|unfold check; by rewrite resolve_no_links].
  rewrite (bind_run _ _ m4 true m4); [|unfold ask; by rewrite tree_ok_is_dir].
  cbn [negb].
  rewrite (bind_run _ _ m4 () m4 Hmk).
  rewrite (bind_run _ _ m4 files2 m4); [|unfold check; by rewrite Escan].
  rewrite (bind_run _ _ m4 (Dedup.group_files m4 files2) m4); [|done].
  rewrite (bind_run _ _ m4 ([], kept') m4 Hplan).
  rewrite (bind_run _ _ m4 [] m4); [|by destruct (Dedup.dry_run a2)].
  by rewrite (bind_run _ _ m4 () m5 Hrec).
Qed.

End SecondRun.

(** C8 (as amended): on a tree without symbolic links, after an apply run
    that ends normally and in which no move failed, a run on the same tree
    ends normally and plans no relocation. *)
Theorem second_run_plans_nothing a m rep m' a2 :
  no_links m → Dedup.dry_run a = false →
  Dedup.main a m = Ok rep m' → Dedup.failed rep = [] →
  Dedup.main_dir a2 = Dedup.main_dir a →
  ∃ rep2 m'', Dedup.main a2 m' = Ok rep2 m'' ∧ Dedup.actions rep2 = [].
Proof.
  intros Hnl Hdry Hrun Hfailed Hdir.
  set (R := Dedup.main_dir a) in *.
  destruct (first_run_spec R a m rep m' Hnl eq_refl Hdry Hrun Hfailed)
    as (m1 & files & Hok1 & Hok4 & Hin & Hcompl & Hgone).
  apply (second_run_spec R a2 m' Hok4 Hdir).
  intros files2 h Escan.
  pose proof Hok4 as (Hnl4 & HR4 & HD4).
  destruct (scan_no_links m' (R ++ [Dedup.duplicates_name]) (Dedup.follow_symlinks a2)
              Hnl4 (walk_fuel m') R) as (files2' & Escan' & Hnd & Hsound & _).
  rewrite Escan in Escan'. injection Escan' as <-.
  set (same := filter (λ p, Dedup.sha256_of_file m' p = Some h) files2).
  destruct (decide (length same ≤ 1)) as [|Hlen]; [done|]. exfalso.
  destruct (two_members same) as (p & q & Hpq & Hp & Hq);
    [by apply NoDup_filter|lia|].
  assert (Hold : ∀ x, x ∈ same →
            x ∈ filter (λ p, Dedup.sha256_of_file m1 p = Some h) files ∧
            is_Some (m' !! x)).
  { intros x [Hh Hx]%list_elem_of_filter.
    destruct (Hsound x Hx) as (rel & -> & Hsc).
    pose proof (scanned_outside m' R _ rel HD4 Hsc) as Hout.
    destruct (scanned_file _ _ _ _ Hsc) as (h' & t & Hf).
    assert (Hne : R ++ rel ≠ []) by (destruct rel; [done|by destruct R]).
    unfold Dedup.sha256_of_file in Hh |- *.
    rewrite file_hash_no_links, Hf in Hh by done.
    split; [|by eexists]. apply list_elem_of_filter. split.
    - rewrite file_hash_no_links by (done || apply Hok1).
      by rewrite (Hin _ _ Hout Hf).
    - apply Hcompl. apply (scanned_inherits m1 m'); [done| |done].
      intros r Hr [r' ->] [r'' E]. apply Hout. exists (r'' ++ r').
      by rewrite !app_assoc, <- E. }
  destruct (Hold p Hp) as [Hp1 [xp Hxp]]. destruct (Hold q Hq) as [Hq1 [xq Hxq]].
  destruct (Hgone h (members_two _ p q Hpq Hp1 Hq1)) as [s Hs].
  destruct (decide (p = s)) as [->|Hps].
  - rewrite (Hs q Hq1) in Hxq; [done|]. by intros ->.
  - by rewrite (Hs p Hp1 Hps) in Hxp.
Qed.

Lemma second_run_plans_nothing_witness :
  ∃ rep2 m'',
    Dedup.main apply_args (final (Dedup.main apply_args twice_fs)) = Ok rep2 m'' ∧
    Dedup.actions rep2 = [].
Proof.
  apply (second_run_plans_nothing apply_args twice_fs
           (Dedup.Report
              [(["r"; "a"; "x.txt"], ["r"; Dedup.duplicates_name; "a"; "x.txt"])]
              [["r"; "b"; "x.txt"]] [])
           (final (Dedup.main apply_args twice_fs)) apply_args).
  - apply no_links_check. vm_compute. reflexivity.
  - reflexivity.
  - vm_compute. reflexivity.
  - reflexivity.
  - reflexivity.
Defined.

(** * Further properties of the two scripts *)

(** ** Directories made on the way *)

Lemma dir_added_deleted m m' : dir_added m m' ↔ dir_deleted m' m.
Proof.
  split; intros H k; destruct (H k) as [E|[E1 E2]]; auto.
Qed.

Lemma dir_added_refl m : dir_added m m.
Proof. intros k. by left. Qed.

Lemma dir_added_trans m0 m1 m2 :
  dir_added m0 m1 → dir_added m1 m2 → dir_added m0 m2.
Proof.
  rewrite !dir_added_deleted. intros. by eapply dir_deleted_trans.
Qed.

Lemma resolve_dir_added m m' p : dir_added m m' → resolve m' p = resolve m p.
Proof.
  intros H%dir_added_deleted. symmetry. by apply resolve_dir_deleted.
Qed.

Lemma wfb_wf m : wfb m = true → wf m.
Proof.
  unfold wfb. rewrite forallb_forall. intros H k x Hk.
  apply elem_of_map_to_list in Hk. apply list_elem_of_In in Hk.
  apply H in Hk. simpl in Hk. by destruct (lstat m (parent k)) as [[| |]|].
Qed.

(** What a successful [os.mkdir] does. *)
Lemma os_mkdir_inl m p m' :
  os_mkdir m p = inl m' →
  ∃ d, resolve m (parent p) = Some d ∧ lstat m d = Some Dir ∧
       m !! (d ++ [name p]) = None ∧ m' = <[d ++ [name p] := Dir]> m ∧ p ≠ [].
Proof.
  unfold os_mkdir. destruct p as [|c p]; [by intros [=]|].
  destruct (resolve m (parent (c :: p))) as [d|]; [|done].
  destruct (lstat m d) as [[| |]|] eqn:El; try done.
  destruct (m !! (d ++ [name (c :: p)])) eqn:E; [done|].
  intros [= <-]. by exists d.
Qed.

Lemma dir_added_insert m k : m !! k = None → dir_added m (<[k := Dir]> m).
Proof.
  intros Hk k'. destruct (decide (k = k')) as [<-|Hne].
  - right. by rewrite lookup_insert_eq.
  - left. by rewrite lookup_insert_ne.
Qed.

Lemma is_dir_dir_added m m' p : dir_added m m' → is_dir m p = true → is_dir m' p = true.
Proof.
  intros H. unfold is_dir, stat. rewrite (resolve_dir_added m m' p H).
  destruct (resolve m p) as [q|]; [|done]. unfold lstat.
  destruct q as [|c q]; [done|]. destruct (H (c :: q)) as [->|[-> ->]]; done.
Qed.

(** A successful [os.mkdir(p)] makes [p] a directory and adds nothing else. *)
Lemma os_mkdir_ok m p m' :
  os_mkdir m p = inl m' → dir_added m m' ∧ is_dir m' p = true.
Proof.
  intros (d & Hd & Hl & Hn & -> & Hp)%os_mkdir_inl.
  assert (Ha : dir_added m (<[d ++ [name p] := Dir]> m)) by by apply dir_added_insert.
  split; [done|]. unfold is_dir, stat. rewrite (resolve_dir_added _ _ p Ha).
  unfold resolve in *. rewrite <- (parent_name p Hp) at 1.
  rewrite (resolve_from_snoc m _ _ _ _ _ Hd); [|intros t; by rewrite Hn].
  by rewrite lstat_snoc, lookup_insert_eq.
Qed.

Lemma mkdir_exist_ok_ok m p m' :
  mkdir_exist_ok m p = Some m' → dir_added m m' ∧ is_dir m' p = true.
Proof.
  unfold mkdir_exist_ok. destruct (os_mkdir m p) as [m1|e] eqn:E.
  - intros [= <-]. by apply os_mkdir_ok.
  - destruct e; [done| |]; destruct (is_dir m p) eqn:Ed; try done;
      intros [= <-]; (split; [apply dir_added_refl|done]).
Qed.

Lemma mkdir_chain_ok ancs : ∀ m p m',
  mkdir_chain m p ancs = Some m' → dir_added m m' ∧ is_dir m' p = true.
Proof.
  induction ancs as [|q ancs IH]; intros m p m'.
  - rewrite mkdir_chain_nil. apply mkdir_exist_ok_ok.
  - rewrite mkdir_chain_cons. destruct (os_mkdir m p) as [m1|e] eqn:E.
    + intros [= <-]. by apply os_mkdir_ok.
    + destruct e.
      * destruct (mkdir_chain m q ancs) as [m1|] eqn:E1; [|done].
        intros [H1 H2]%mkdir_exist_ok_ok. apply IH in E1 as [H3 _].
        split; [by eapply dir_added_trans|done].
      * destruct (is_dir m p) eqn:Ed; [|done].
        intros [= <-]. split; [apply dir_added_refl|done].
      * destruct (is_dir m p) eqn:Ed; [|done].
        intros [= <-]. split; [apply dir_added_refl|done].
Qed.

Lemma mkdir_parents_ok m p m' :
  mkdir_parents m p = Some m' → dir_added m m' ∧ is_dir m' p = true.
Proof. apply mkdir_chain_ok. Qed.

Lemma wf_os_mkdir m p m' : wf m → os_mkdir m p = inl m' → wf m'.
Proof.
  intros Hwf (d & Hd & Hl & Hn & -> & Hp)%os_mkdir_inl k x.
  assert (Hkeep : ∀ q, lstat m q = Some Dir → lstat (<[d ++ [name p] := Dir]> m) q = Some Dir).
  { intros q. unfold lstat. destruct q as [|c q]; [done|]. intros Hq.
    rewrite lookup_insert_ne; [done|]. intros E. rewrite E in Hn. congruence. }
  destruct (decide (k = d ++ [name p])) as [->|Hne].
  - intros _. rewrite parent_snoc. by apply Hkeep.
  - rewrite lookup_insert_ne by done. intros Hk. apply Hkeep. by eapply Hwf.
Qed.

Lemma wf_mkdir_exist_ok m p m' : wf m → mkdir_exist_ok m p = Some m' → wf m'.
Proof.
  unfold mkdir_exist_ok. intros Hwf. destruct (os_mkdir m p) as [m1|e] eqn:E.
  - intros [= <-]. by eapply wf_os_mkdir.
  - destruct e; [done| |]; destruct (is_dir m p); try done; by intros [= <-].
Qed.

Lemma wf_mkdir_chain ancs : ∀ m p m', wf m → mkdir_chain m p ancs = Some m' → wf m'.
Proof.
  induction ancs as [|q ancs IH]; intros m p m' Hwf.
  - rewrite mkdir_chain_nil. by apply wf_mkdir_exist_ok.
  - rewrite mkdir_chain_cons. destruct (os_mkdir m p) as [m1|e] eqn:E.
    + intros [= <-]. by eapply wf_os_mkdir.
    + destruct e.
      * destruct (mkdir_chain m q ancs) as [m1|] eqn:E1; [|done].
        apply wf_mkdir_exist_ok. by eapply IH.
      * destruct (is_dir m p); [|done]. by intros [= <-].
      * destruct (is_dir m p); [|done]. by intros [= <-].
Qed.

(** In a well-formed store, [os.mkdir] of a directory that is there fails
    with an error other than [ENOENT]. *)
Lemma os_mkdir_there m p :
  wf m → is_dir m p = true → ∃ e, os_mkdir m p = inr e ∧ e ≠ ENOENT.
Proof.
  intros Hwf Hd. destruct (decide (p = [])) as [->|Hp]; [by exists EEXIST|].
  unfold os_mkdir. destruct p as [|c0 p0]; [done|]. set (p := c0 :: p0) in *.
  destruct (resolve m (parent p)) as [d|] eqn:Er; [|by exists EOTHER].
  destruct (m !! (d ++ [name p])) as [x|] eqn:Ex.
  - pose proof (Hwf _ _ Ex) as Hpar. rewrite parent_snoc in Hpar. rewrite Hpar.
    by exists EEXIST.
  - exfalso. unfold is_dir, stat, resolve in Hd. unfold resolve in Er.
    rewrite <- (parent_name p Hp) in Hd.
    rewrite (resolve_from_snoc m _ _ _ _ _ Er) in Hd; [|intros t; by rewrite Ex].
    by rewrite lstat_snoc, Ex in Hd.
Qed.

Lemma mkdir_chain_there m p ancs :
  wf m → is_dir m p = true → mkdir_chain m p ancs = Some m.
Proof.
  intros Hwf Hd. destruct (os_mkdir_there m p Hwf Hd) as (e & He & Hne).
  destruct ancs; [rewrite mkdir_chain_nil|rewrite mkdir_chain_cons];
    rewrite He, Hd; by destruct e.
Qed.

Lemma mkdir_parents_there m p :
  wf m → is_dir m p = true → mkdir_parents m p = Some m.
Proof. apply mkdir_chain_there. Qed.

(** ** How a run can end *)

Section Keeps.
Context {A B : Type} (R : fs → fs → Prop).
Context (Hrefl : ∀ m, R m m) (Htrans : ∀ m1 m2 m3, R m1 m2 → R m2 m3 → R m1 m3).

Lemma keeps_pure (c : M A) : pure_ c → keeps R c.
Proof. intros H m. by rewrite H. Qed.

Lemma keeps_bind (c : M A) (k : A → M B) :
  keeps R c → (∀ a, keeps R (k a)) → keeps R (c ≫= k).
Proof.
  intros Hc Hk m. unfold mbind, M_bind. specialize (Hc m).
  destruct (c m) as [a m1|m1|code m1]; simpl in *; [|done..].
  eapply Htrans; [exact Hc|apply Hk].
Qed.

Lemma keeps_try (c : M A) (a : A) : keeps R c → keeps R (try_except c a).
Proof.
  intros Hc m. unfold try_except. specialize (Hc m). by destruct (c m).
Qed.

Lemma keeps_call (f : fs → option fs) :
  (∀ m m', f m = Some m' → R m m') → keeps R (call f).
Proof.
  intros Hf m. unfold call. destruct (f m) as [m'|] eqn:E; simpl; [by apply Hf|done].
Qed.

End Keeps.

Section NoExit.
Context {A B : Type}.

Lemma no_exit_ret (a : A) : no_exit (mret a : M A).
Proof. by intros m code m'. Qed.

Lemma no_exit_ask (f : fs → A) : no_exit (ask f).
Proof. by intros m code m'. Qed.

Lemma no_exit_check (f : fs → option A) : no_exit (check f).
Proof. intros m code m'. unfold check. by destruct (f m). Qed.

Lemma no_exit_call (f : fs → option fs) : no_exit (call f).
Proof. intros m code m'. unfold call. by destruct (f m). Qed.

Lemma no_exit_bind (c : M A) (k : A → M B) :
  no_exit c → (∀ a, no_exit (k a)) → no_exit (c ≫= k).
Proof.
  intros Hc Hk m code m'. unfold mbind, M_bind. specialize (Hc m).
  destruct (c m) as [a m1|m1|code1 m1]; [apply Hk|done|]. by destruct (Hc code1 m1).
Qed.

Lemma no_exit_try (c : M A) (a : A) : no_exit c → no_exit (try_except c a).
Proof.
  intros Hc m code m'. unfold try_except. specialize (Hc m).
  destruct (c m) as [a1 m1|m1|code1 m1]; [done..|]. by destruct (Hc code1 m1).
Qed.

Lemma bind_Exited (c : M A) (k : A → M B) m code m' :
  (c ≫= k) m = Exited code m' →
  c m = Exited code m' ∨ ∃ a m1, c m = Ok a m1 ∧ k a m1 = Exited code m'.
Proof.
  unfold mbind, M_bind. destruct (c m) as [a m1|m1|code1 m1]; [|done|].
  - intros H. right. by exists a, m1.
  - intros [= -> ->]. by left.
Qed.

End NoExit.

Lemma mover_move_all_no_exit moves : ∀ moved, no_exit (Mover.move_all moves moved).
Proof.
  induction moves as [|[src dst] moves IH]; intros moved; simpl.
  - apply no_exit_ret.
  - apply no_exit_bind; [|intros; apply IH].
    apply no_exit_try. apply no_exit_bind; [apply no_exit_call|intros _].
    apply no_exit_bind; [apply no_exit_call|intros _]. apply no_exit_ret.
Qed.

Lemma mover_remove_loop_no_exit root dirs : ∀ removed,
  no_exit (Mover.remove_loop root dirs removed).
Proof.
  induction dirs as [|p dirs IH]; intros removed; simpl.
  - apply no_exit_ret.
  - apply no_exit_bind; [apply no_exit_check|intros rp].
    apply no_exit_bind; [apply no_exit_check|intros rr].
    case_decide; [apply IH|].
    apply no_exit_bind; [|intros; apply IH].
    apply no_exit_try. apply no_exit_bind; [apply no_exit_check|intros names].
    case_decide; [|apply no_exit_ret].
    apply no_exit_bind; [apply no_exit_call|intros _]. apply no_exit_ret.
Qed.

Lemma mover_remove_empty_dirs_no_exit root : no_exit (Mover.remove_empty_dirs root).
Proof.
  apply no_exit_bind; [apply no_exit_ask|intros]. apply mover_remove_loop_no_exit.
Qed.

Lemma validate_roots_cases roots m :
  Mover.validate_roots roots m = Ok () m ∨
  (Mover.validate_roots roots m = Exited 2 m ∧
   ∃ p, p ∈ roots ∧ exists_ m p && is_dir m p = false).
Proof.
  induction roots as [|p roots IH]; simpl; [by left|].
  unfold mbind, M_bind, ask.
  destruct (exists_ m p && is_dir m p) eqn:E.
  - destruct IH as [IH|(IH & q & Hq & Hq')]; [by left|right].
    split; [done|]. exists q. split; [by right|done].
  - right. split; [done|]. exists p. split; [by left|done].
Qed.

Lemma refuse_inside_cases main_root targets m :
  Mover.refuse_inside main_root targets m = Ok () m ∨
  (Mover.refuse_inside main_root targets m = Exited 2 m ∧
   ∃ t, t ∈ targets ∧ Mover.is_subpath m t main_root = true).
Proof.
  induction targets as [|t targets IH]; simpl; [by left|].
  unfold mbind, M_bind, ask.
  destruct (Mover.is_subpath m t main_root) eqn:E.
  - right. split; [done|]. exists t. split; [by left|done].
  - destruct IH as [IH|(IH & q & Hq & Hq')]; [by left|right].
    split; [done|]. exists q. split; [by right|done].
Qed.
(** X1: when pipeline B ends in [sys.exit], the code is 2 and nothing has
    been moved or removed: the store is the one the run found, with at most
    directories added.  The exit has one of three causes: a root that is
    missing or no directory (then the store is untouched), roots that lead
    to the same place, or a destination inside the main tree. *)
Theorem mover_exit_only_adds_directories a m code m' :
  Mover.main a m = Exited code m' →
  code = 2 ∧ dir_added m m' ∧
  ((m' = m ∧ ∃ p, p ∈ [Mover.main_root a; Mover.older_root a] ∧
                  exists_ m p && is_dir m p = false) ∨
   (is_Some (resolve m' (Mover.main_root a)) ∧
    resolve m' (Mover.main_root a) = resolve m' (Mover.older_root a)) ∨
   (∃ t, t ∈ [Mover.dest_root a; Mover.symlinks_dest a] ∧
         Mover.is_subpath m' t (Mover.main_root a) = true)).
Proof.
  unfold Mover.main. intros H.
  apply bind_Exited in H as [H|(? & m0 & H0 & H)].
  { destruct (validate_roots_cases [Mover.main_root a; Mover.older_root a] m)
      as [E|[E Hp]]; rewrite E in H; [done|].
    injection H as <- <-. split; [done|]. split; [apply dir_added_refl|by left]. }
  destruct (validate_roots_cases [Mover.main_root a; Mover.older_root a] m)
    as [E|[E Hp]]; rewrite E in H0; [|done]. injection H0 as _ <-.
  apply bind_Exited in H as [H|(? & m1 & H1 & H)]; [by apply no_exit_call in H|].
  apply call_Ok, mkdir_parents_ok in H1 as [H1 _].
  apply bind_Exited in H as [H|(? & m2 & H2 & H)]; [by apply no_exit_call in H|].
  apply call_Ok, mkdir_parents_ok in H2 as [H2 _].
  assert (H12 : dir_added m m2) by by eapply dir_added_trans.
  apply bind_Exited in H as [H|(rm & ? & Hrm & H)]; [by apply no_exit_check in H|].
  apply check_Ok in Hrm as [Hrm ->].
  apply bind_Exited in H as [H|(ro & ? & Hro & H)]; [by apply no_exit_check in H|].
  apply check_Ok in Hro as [Hro ->].
  case_decide as Heq.
  { injection H as <- <-. split; [done|]. split; [done|]. right; left.
    rewrite Hrm, Hro, Heq. by split; [eexists|]. }
  apply bind_Exited in H as [H|(? & m3 & H3 & H)].
  { destruct (refuse_inside_cases (Mover.main_root a)
                [Mover.dest_root a; Mover.symlinks_dest a] m2) as [E'|[E' Ht]];
      rewrite E' in H; [done|].
    injection H as <- <-. split; [done|]. split; [done|]. by right; right. }
  exfalso. revert H. apply no_exit_bind; [apply no_exit_ask|intros main_hashes].
  apply no_exit_bind; [apply no_exit_ask|intros pl].
  destruct (negb (Mover.apply a)); [apply no_exit_ret|].
  apply no_exit_bind; [apply mover_move_all_no_exit|intros moved_r].
  apply no_exit_bind; [apply mover_move_all_no_exit|intros moved_s].
  apply no_exit_bind; [|intros; apply no_exit_ret].
  destruct (Mover.keep_empty_dirs a); [apply no_exit_ret|].
  apply mover_remove_empty_dirs_no_exit.
Qed.

Lemma mover_exit_only_adds_directories_witness :
  2 = 2 ∧ dir_added dry_fs (final (Mover.main nested_args dry_fs)).
Proof.
  destruct (mover_exit_only_adds_directories nested_args dry_fs 2
              (final (Mover.main nested_args dry_fs))) as (H1 & H2 & _);
    [vm_compute; reflexivity|]. by split.
Defined.
Lemma validate_roots_pure roots : pure_ (Mover.validate_roots roots).
Proof.
  intros m. by destruct (validate_roots_cases roots m) as [->|[-> _]].
Qed.

Lemma refuse_inside_pure main_root targets :
  pure_ (Mover.refuse_inside main_root targets).
Proof.
  intros m. by destruct (refuse_inside_cases main_root targets m) as [->|[-> _]].
Qed.

(** The part of [main] of pipeline B after the destination roots are
    made, in a run without [--apply]. *)
Lemma mover_preview_pure a :
  Mover.apply a = false →
  pure_ (rm ← check (λ m, resolve m (Mover.main_root a));
         ro ← check (λ m, resolve m (Mover.older_root a));
         if decide (rm = ro) then sys_exit 2
         else
           Mover.refuse_inside (Mover.main_root a)
             [Mover.dest_root a; Mover.symlinks_dest a];;
           main_hashes ← ask (λ m, Mover.build_hash_set m (Mover.main_root a));
           pl ← ask (λ m, Mover.plan_moves m main_hashes (Mover.older_root a)
                            (Mover.dest_root a) (Mover.symlinks_dest a));
           if negb (Mover.apply a) then mret (Mover.Summary pl 0 0 [])
           else
             moved_r ← Mover.move_all (Mover.moves_regular pl) 0;
             moved_s ← Mover.move_all (Mover.moves_syms pl) 0;
             removed ← (if Mover.keep_empty_dirs a then mret []
                        else Mover.remove_empty_dirs (Mover.older_root a));
             mret (Mover.Summary pl moved_r moved_s removed)).
Proof.
  intros Hdry. rewrite Hdry. cbn [negb].
  apply pure_bind; [apply pure_check|intros rm].
  apply pure_bind; [apply pure_check|intros ro].
  case_decide; [apply pure_sys_exit|].
  apply pure_bind; [apply refuse_inside_pure|intros _].
  apply pure_bind; [apply pure_ask|intros main_hashes].
  apply pure_bind; [apply pure_ask|intros pl]. apply pure_ret.
Qed.

(** X2: pipeline B without [--apply] moves nothing and removes nothing,
    however the run ends: the store it leaves is the store it found with at
    most directories added. *)
Theorem mover_preview_only_adds_directories a m :
  Mover.apply a = false → dir_added m (final (Mover.main a m)).
Proof.
  intros Hdry. revert m. change (keeps dir_added (Mover.main a)). unfold Mover.main.
  apply keeps_bind; [apply dir_added_trans| |intros _].
  { apply keeps_pure; [apply dir_added_refl|apply validate_roots_pure]. }
  apply keeps_bind; [apply dir_added_trans| |intros _].
  { apply keeps_call; [apply dir_added_refl|]. intros m m' H. by apply mkdir_parents_ok in H as [H _]. }
  apply keeps_bind; [apply dir_added_trans| |intros _].
  { apply keeps_call; [apply dir_added_refl|]. intros m m' H. by apply mkdir_parents_ok in H as [H _]. }
  apply keeps_pure; [apply dir_added_refl|]. by apply mover_preview_pure.
Qed.

Lemma mover_preview_only_adds_directories_witness :
  dir_added dry_fs (final (Mover.main dry_args dry_fs)).
Proof. apply (mover_preview_only_adds_directories dry_args dry_fs). reflexivity. Defined.

(** X3: when both destination roots are directories of a well-formed
    store, pipeline B without [--apply] leaves the store exactly as it
    found it. *)
Theorem mover_preview_with_roots_changes_nothing a m :
  wf m → Mover.apply a = false →
  is_dir m (Mover.dest_root a) = true → is_dir m (Mover.symlinks_dest a) = true →
  final (Mover.main a m) = m.
Proof.
  intros Hwf Hdry Hd Hs. unfold Mover.main.
  unfold mbind at 1, M_bind at 1.
  destruct (validate_roots_cases [Mover.main_root a; Mover.older_root a] m)
    as [E|[E _]]; rewrite E; [|done].
  unfold mbind at 1, M_bind at 1. unfold call at 1.
  rewrite (mkdir_parents_there m _ Hwf Hd).
  unfold mbind at 1, M_bind at 1. unfold call at 1.
  rewrite (mkdir_parents_there m _ Hwf Hs).
  by apply mover_preview_pure.
Qed.

Lemma mover_preview_with_roots_changes_nothing_witness :
  final (Mover.main (Mover.Args ["cur"] ["old"] ["dst"] ["sym"] false false) member_fs)
  = member_fs.
Proof.
  apply mover_preview_with_roots_changes_nothing;
    [apply wfb_wf; vm_compute; reflexivity|reflexivity|vm_compute; reflexivity..].
Defined.
(** X4: [ensure_parent_dir(path)], when it returns, has made the parent of
    [path] a directory and has added nothing but directories; in a
    well-formed store the store stays well-formed, and a second call
    changes nothing. *)
Theorem ensure_parent_dir_makes_parent p m u m' :
  wf m → Mover.ensure_parent_dir p m = Ok u m' →
  dir_added m m' ∧ wf m' ∧ is_dir m' (parent p) = true ∧
  Mover.ensure_parent_dir p m' = Ok () m'.
Proof.
  intros Hwf H. unfold Mover.ensure_parent_dir in H. apply call_Ok in H.
  pose proof (mkdir_parents_ok _ _ _ H) as [H1 H2].
  assert (Hwf' : wf m') by by eapply wf_mkdir_chain.
  repeat split; try done.
  unfold Mover.ensure_parent_dir, call. by rewrite mkdir_parents_there.
Qed.

Lemma ensure_parent_dir_makes_parent_witness :
  ∃ m', dir_added dry_fs m' ∧ is_dir m' ["dst"; "a"] = true.
Proof.
  exists (final (Mover.ensure_parent_dir ["dst"; "a"; "x.txt"] dry_fs)).
  destruct (ensure_parent_dir_makes_parent ["dst"; "a"; "x.txt"] dry_fs ()
              (final (Mover.ensure_parent_dir ["dst"; "a"; "x.txt"] dry_fs)))
    as (H1 & _ & H2 & _);
    [apply wfb_wf; vm_compute; reflexivity|vm_compute; reflexivity|].
  split; [exact H1|exact H2].
Defined.

Lemma is_file_dir_added m m' p : dir_added m m' → is_file m p = true → is_file m' p = true.
Proof.
  intros H. unfold is_file, stat. rewrite (resolve_dir_added m m' p H).
  destruct (resolve m p) as [q|]; [|done]. unfold lstat.
  destruct q as [|c q]; [done|]. destruct (H (c :: q)) as [->|[-> ->]]; done.
Qed.

Lemma is_file_not_dir m p : is_file m p = true → is_dir m p = false.
Proof. unfold is_file, is_dir. by destruct (stat m p) as [[| |]|]. Qed.

Lemma os_mkdir_file m p : is_file m p = true → ∃ e, os_mkdir m p = inr e.
Proof.
  intros Hf. destruct (os_mkdir m p) as [m'|e] eqn:E; [|by exists e].
  apply os_mkdir_inl in E as (d & Hd & Hl & Hn & -> & Hp). exfalso.
  unfold is_file, stat, resolve in Hf. unfold resolve in Hd.
  rewrite <- (parent_name p Hp) in Hf.
  rewrite (resolve_from_snoc m _ _ _ _ _ Hd) in Hf; [|intros t; by rewrite Hn].
  by rewrite lstat_snoc, Hn in Hf.
Qed.

Lemma mkdir_exist_ok_file m p : is_file m p = true → mkdir_exist_ok m p = None.
Proof.
  intros Hf. unfold mkdir_exist_ok. destruct (os_mkdir_file m p Hf) as [e ->].
  rewrite (is_file_not_dir m p Hf). by destruct e.
Qed.

(** [mkdir(parents=True, exist_ok=True)] of a path that leads to a regular
    file raises. *)
Lemma mkdir_chain_file ancs : ∀ m p,
  is_file m p = true → mkdir_chain m p ancs = None.
Proof.
  induction ancs as [|q ancs IH]; intros m p Hf.
  - rewrite mkdir_chain_nil. by apply mkdir_exist_ok_file.
  - rewrite mkdir_chain_cons. destruct (os_mkdir_file m p Hf) as [e ->].
    rewrite (is_file_not_dir m p Hf). destruct e; try done.
    destruct (mkdir_chain m q ancs) as [m1|] eqn:E; [|done].
    apply mkdir_exist_ok_file. apply mkdir_chain_ok in E as [E _].
    by eapply is_file_dir_added.
Qed.

(** X5: a regular destination that exists as a regular file is not
    reported as a configuration error: with both roots in order, the
    exception of [mkdir] escapes from [main], the store untouched. *)
Theorem mover_destination_file_raises a m :
  exists_ m (Mover.main_root a) && is_dir m (Mover.main_root a) = true →
  exists_ m (Mover.older_root a) && is_dir m (Mover.older_root a) = true →
  is_file m (Mover.dest_root a) = true →
  Mover.main a m = Raised m.
Proof.
  intros Hm Ho Hf. unfold Mover.main. unfold mbind at 1, M_bind at 1.
  destruct (validate_roots_cases [Mover.main_root a; Mover.older_root a] m)
    as [E|[_ (p & Hp & Hbad)]].
  - rewrite E. unfold mbind at 1, M_bind at 1, call at 1.
    unfold mkdir_parents. by rewrite mkdir_chain_file.
  - exfalso. apply list_elem_of_In in Hp. destruct Hp as [<-|[<-|[]]]; congruence.
Qed.

Lemma mover_destination_file_raises_witness :
  Mover.main (Mover.Args ["cur"] ["old"] ["cur"; "x"] ["sym"] true false) dry_fs
  = Raised dry_fs.
Proof.
  apply mover_destination_file_raises; vm_compute; reflexivity.
Defined.
(** ** The plan of pipeline B as a selection from the walk *)

Lemma NoDup_omap_keys {A} (f : path * node → option A) (l : list (path * node)) :
  NoDup l.*1 →
  (∀ kv kv' x, f kv = Some x → f kv' = Some x → kv.1 = kv'.1) →
  NoDup (omap f l).
Proof.
  intros Hnd Hinj. induction l as [|kv l IH]; simpl; [constructor|].
  apply NoDup_cons in Hnd as [Hkv Hnd]. specialize (IH Hnd).
  destruct (f kv) as [x|] eqn:E; [|done]. constructor; [|done].
  intros (kv' & Hin & E')%list_elem_of_omap. apply Hkv.
  rewrite (Hinj _ _ _ E E'). apply list_elem_of_fmap. by exists kv'.
Qed.

(** The walk yields no entry twice. *)
Lemma NoDup_rglob m root : NoDup (rglob m root).
Proof.
  unfold rglob. destruct (resolve m root) as [d|]; [|constructor].
  destruct (lstat m d) as [[| |]|]; try constructor.
  apply NoDup_omap_keys; [apply NoDup_fst_map_to_list|].
  intros kv kv' x H H'.
  destruct (relative_to kv.1 d) as [[|c r]|] eqn:E; try done.
  destruct (relative_to kv'.1 d) as [[|c' r']|] eqn:E'; try done.
  destruct (descends m d (c :: r)); [|done].
  destruct (descends m d (c' :: r')); [|done].
  injection H as <-. injection H' as H'. apply app_inv_head in H'.
  apply relative_to_Some in E, E'. congruence.
Qed.

Section PlanFilter.
Context (m : fs) (main_hashes : gset string).
Context (older_root dest_root symlinks_dest : path).

Local Abbreviation step :=
  (Mover.plan_step m main_hashes older_root dest_root symlinks_dest).

Lemma plan_fold_filter l : ∀ acc,
  (∀ p, p ∈ l → is_Some (relative_to p older_root)) →
  (Mover.moves_syms (foldl step acc l)).*1 =
    (Mover.moves_syms acc).*1 ++ filter (λ p, is_symlink m p = true) l ∧
  (Mover.moves_regular (foldl step acc l)).*1 =
    (Mover.moves_regular acc).*1 ++ filter (λ p, wanted m main_hashes p = true) l ∧
  Mover.scanned_regular (foldl step acc l) =
    Mover.scanned_regular acc + length (filter (λ p, hashed m p = true) l).
Proof.
  induction l as [|p l IH]; intros acc Hrel.
  - simpl. rewrite !filter_nil, !app_nil_r. simpl. by rewrite Nat.add_0_r.
  - destruct (Hrel p) as [rel Hp]; [by left|].
    assert (Hrel' : ∀ q, q ∈ l → is_Some (relative_to q older_root)).
    { intros q Hq. apply Hrel. by right. }
    simpl. destruct (IH (step acc p) Hrel') as (H1 & H2 & H3).
    rewrite H1, H2, H3. clear H1 H2 H3 IH.
    rewrite !filter_cons. unfold Mover.plan_step, wanted, hashed. rewrite Hp.
    destruct (is_symlink m p) eqn:Es; simpl.
    { by rewrite fmap_app, <- app_assoc. }
    destruct (is_file m p) eqn:Ef; simpl; [|done].
    destruct (file_hash m p) as [h|] eqn:Eh; simpl; [|done].
    destruct (decide (h ∉ main_hashes)) as [Hh|Hh].
    + rewrite bool_decide_eq_true_2 by done.
      simpl. rewrite fmap_app, <- app_assoc. simpl. split; [done|]. split; [done|lia].
    + rewrite bool_decide_eq_false_2 by done.
      simpl. split; [done|]. split; [done|lia].
Qed.

End PlanFilter.
Lemma rglob_relative m root p : p ∈ rglob m root → is_Some (relative_to p root).
Proof. intros (c & r & ->)%rglob_below. rewrite relative_to_app. by eexists. Qed.

(** X6: the plan of pipeline B is a selection from the walk of the older
    tree, in the order of the walk: the link moves are the walked links,
    the regular moves are the walked regular files whose digest is not in
    the index.  So no entry is planned twice, and none both as a file and
    as a link. *)
Theorem plan_selects_from_walk m main_hashes older_root dest_root symlinks_dest :
  let pl := Mover.plan_moves m main_hashes older_root dest_root symlinks_dest in
  (Mover.moves_syms pl).*1 =
    filter (λ p, is_symlink m p = true) (Mover.iter_paths m older_root) ∧
  (Mover.moves_regular pl).*1 =
    filter (λ p, wanted m main_hashes p = true) (Mover.iter_paths m older_root) ∧
  NoDup ((Mover.moves_regular pl).*1 ++ (Mover.moves_syms pl).*1).
Proof.
  intros pl. unfold pl, Mover.plan_moves.
  destruct (plan_fold_filter m main_hashes older_root dest_root symlinks_dest
              (Mover.iter_paths m older_root) (Mover.Plan [] [] 0))
    as (H1 & H2 & _); [apply rglob_relative|].
  rewrite H1, H2. simpl. split; [done|]. split; [done|].
  apply NoDup_app. split; [apply NoDup_filter, NoDup_rglob|].
  split; [|apply NoDup_filter, NoDup_rglob].
  intros p [Hw _]%list_elem_of_filter [Hs _]%list_elem_of_filter.
  unfold wanted in Hw. by rewrite Hs in Hw.
Qed.

Lemma count_fold m l : ∀ f s d,
  foldl (λ '(files, syms, dirs) p,
           if is_symlink m p then (files, S syms, dirs)
           else if is_file m p then (S files, syms, dirs)
           else if is_dir m p then (files, syms, S dirs)
           else (files, syms, dirs)) (f, s, d) l =
  (f + length (filter (λ p, negb (is_symlink m p) && is_file m p = true) l),
   s + length (filter (λ p, is_symlink m p = true) l),
   d + length (filter (λ p, negb (is_symlink m p) && negb (is_file m p)
                              && is_dir m p = true) l)).
Proof.
  induction l as [|p l IH]; intros f s d.
  - cbn [foldl]. by rewrite !filter_nil, !Nat.add_0_r.
  - cbn [foldl]. rewrite !filter_cons.
    destruct (is_symlink m p); simpl; [rewrite IH; repeat (apply pair_equal_spec; split); simpl; lia|].
    destruct (is_file m p); simpl; [rewrite IH; repeat (apply pair_equal_spec; split); simpl; lia|].
    destruct (is_dir m p); simpl; rewrite IH; repeat (apply pair_equal_spec; split); simpl; lia.
Qed.

Lemma filter_length_le_impl {A} (P Q : A → Prop)
    `{!∀ x, Decision (P x), !∀ x, Decision (Q x)} (l : list A) :
  (∀ x, P x → Q x) → length (filter P l) ≤ length (filter Q l).
Proof.
  intros Himp. induction l as [|x l IH]; [done|]. rewrite !filter_cons.
  destruct (decide (P x)) as [HP|HP].
  - rewrite decide_True by auto. simpl. lia.
  - destruct (decide (Q x)); simpl; lia.
Qed.

(** X7: the totals that [count_items] announces for the older tree bound
    what [plan_moves] then does: the links counted are exactly the link
    moves planned, the regular moves planned are at most the files hashed,
    and these are at most the files counted.  No entry is counted twice. *)
Theorem count_items_bounds_plan m main_hashes older_root dest_root symlinks_dest
    files syms dirs :
  Mover.count_items m older_root = (files, syms, dirs) →
  let pl := Mover.plan_moves m main_hashes older_root dest_root symlinks_dest in
  length (Mover.moves_syms pl) = syms ∧
  length (Mover.moves_regular pl) ≤ Mover.scanned_regular pl ∧
  Mover.scanned_regular pl ≤ files ∧
  files + syms + dirs ≤ length (Mover.iter_paths m older_root).
Proof.
  unfold Mover.count_items. rewrite count_fold, !Nat.add_0_l. intros [= <- <- <-].
  unfold Mover.plan_moves.
  destruct (plan_fold_filter m main_hashes older_root dest_root symlinks_dest
              (Mover.iter_paths m older_root) (Mover.Plan [] [] 0))
    as (H1 & H2 & H3); [apply rglob_relative|].
  apply (f_equal length) in H1, H2. rewrite length_fmap in H1, H2.
  rewrite H1, H2, H3. simpl. split; [done|].
  split; [|split].
  - apply filter_length_le_impl. intros p. unfold wanted, hashed.
    destruct (negb (is_symlink m p) && is_file m p); [|done]. simpl.
    by destruct (file_hash m p).
  - apply filter_length_le_impl. intros p. unfold hashed.
    destruct (negb (is_symlink m p) && is_file m p); [done|]. by simpl.
  - set (l := Mover.iter_paths m older_root). clearbody l.
    induction l as [|p l IH]; [done|]. rewrite !filter_cons.
    destruct (is_symlink m p), (is_file m p), (is_dir m p); simpl in *; lia.
Qed.

Lemma count_items_bounds_plan_witness :
  length (Mover.moves_syms (Mover.plan_moves member_fs {[ "A" ]} ["old"] ["dst"] ["sym"])) = 1 ∧
  Mover.scanned_regular (Mover.plan_moves member_fs {[ "A" ]} ["old"] ["dst"] ["sym"]) ≤ 3.
Proof.
  destruct (count_items_bounds_plan member_fs {[ "A" ]} ["old"] ["dst"] ["sym"] 3 1 1)
    as (H1 & _ & H2 & _); [vm_compute; reflexivity|]. split; [exact H1|exact H2].
Defined.
Lemma NoDup_snd_of_fst {A B} (l : list (A * B)) :
  NoDup l.*1 → (∀ x y, x ∈ l → y ∈ l → x.2 = y.2 → x.1 = y.1) → NoDup l.*2.
Proof.
  induction l as [|x l IH]; simpl; [constructor|].
  intros [Hx Hnd]%NoDup_cons Hinj. constructor.
  - intros (y & Hy & Hin)%list_elem_of_fmap. apply Hx.
    rewrite (Hinj x y); [|by left|by right|done].
    apply list_elem_of_fmap. by exists y.
  - apply IH; [done|]. intros a b Ha Hb. apply Hinj; by right.
Qed.

(** X8: when nothing exists below the destination root, the plan of
    pipeline B keeps every relative path as it is ([older/rel] goes to
    [dest/rel], no numbering), and no two planned moves of regular files
    share a destination. *)
Theorem fresh_destination_keeps_relative_paths
    m main_hashes older_root dest_root symlinks_dest :
  (∀ rel, rel ≠ [] → exists_ m (dest_root ++ rel) = false) →
  let pl := Mover.plan_moves m main_hashes older_root dest_root symlinks_dest in
  (∀ src dst, (src, dst) ∈ Mover.moves_regular pl →
     ∃ rel, rel ≠ [] ∧ src = older_root ++ rel ∧ dst = dest_root ++ rel) ∧
  NoDup (Mover.moves_regular pl).*2.
Proof.
  intros Hfresh pl.
  assert (Hrel : ∀ src dst, (src, dst) ∈ Mover.moves_regular pl →
            ∃ rel, rel ≠ [] ∧ src = older_root ++ rel ∧ dst = dest_root ++ rel).
  { intros src dst Hin. unfold pl, Mover.plan_moves in Hin.
    apply (proj1 (plan_fold_regular _ _ _ _ _ _ _ _)) in Hin
      as [Hin|(p & Hp & Hsrc & _ & _ & h & rel & _ & _ & Hr & Hdst)];
      [by apply elem_of_nil in Hin|].
    simpl in Hsrc, Hdst. subst src.
    apply rglob_below in Hp as (c & r & ->). rewrite relative_to_app in Hr.
    injection Hr as <-. exists (c :: r). split; [done|]. split; [done|].
    rewrite Hdst. apply unique_destination_path_cases. by apply Hfresh. }
  split; [exact Hrel|].
  apply NoDup_snd_of_fst.
  - unfold pl, Mover.plan_moves.
    destruct (plan_fold_filter m main_hashes older_root dest_root symlinks_dest
                (Mover.iter_paths m older_root) (Mover.Plan [] [] 0))
      as (_ & H2 & _); [apply rglob_relative|].
    rewrite H2. apply NoDup_filter, NoDup_rglob.
  - intros [s1 d1] [s2 d2] H1 H2. simpl. intros <-.
    apply Hrel in H1 as (r1 & _ & -> & E1), H2 as (r2 & _ & -> & E2).
    rewrite E1 in E2. apply app_inv_head in E2. by subst.
Qed.
Lemma nothing_below_fresh m d :
  no_links m → nothing_below m d = true →
  ∀ rel, rel ≠ [] → exists_ m (d ++ rel) = false.
Proof.
  intros Hnl Hb rel Hrel. unfold exists_. rewrite stat_no_links by done.
  unfold lstat. destruct (d ++ rel) as [|c q] eqn:E.
  { apply app_eq_nil in E as [_ ->]. done. }
  rewrite <- E. destruct (m !! (d ++ rel)) as [x|] eqn:Ex; [|done]. exfalso.
  unfold nothing_below in Hb. rewrite forallb_forall in Hb.
  specialize (Hb (d ++ rel, x)). simpl in Hb.
  rewrite bool_decide_eq_true_2 in Hb by by exists rel.
  assert (Hin : In (d ++ rel, x) (map_to_list m)).
  { apply list_elem_of_In. by apply elem_of_map_to_list. }
  by apply Hb in Hin.
Qed.

Lemma fresh_destination_keeps_relative_paths_witness :
  NoDup (Mover.moves_regular (Mover.plan_moves dry_fs {[ "A" ]} ["old"] ["dst"] ["sym"])).*2.
Proof.
  apply (fresh_destination_keeps_relative_paths dry_fs {[ "A" ]} ["old"] ["dst"] ["sym"]).
  apply nothing_below_fresh; [apply no_links_check|]; vm_compute; reflexivity.
Defined.
(** X9: the moving loops of pipeline B always run to their end: a move
    that fails is passed over, the loop neither raises nor exits, and the
    count of the moves that went through grows by at most the number of
    moves planned. *)
Theorem mover_move_all_completes moves : ∀ moved m,
  ∃ moved' m', Mover.move_all moves moved m = Ok moved' m' ∧
    moved ≤ moved' ∧ moved' ≤ moved + length moves.
Proof.
  induction moves as [|[src dst] moves IH]; intros moved m.
  - exists moved, m. simpl. split; [done|lia].
  - simpl. unfold mbind at 1, M_bind at 1. unfold try_except.
    destruct ((Mover.ensure_parent_dir dst;;
               call (λ m, shutil_move m src dst);; mret (S moved)) m)
      as [n m1|m1|code m1] eqn:E.
    + apply bind_Ok in E as (? & ? & _ & E).
      apply bind_Ok in E as (? & ? & _ & E). apply ret_Ok in E as [-> _].
      destruct (IH (S moved) m1) as (n & m' & -> & Hn1 & Hn2).
      exists n, m'. split; [done|]. simpl. lia.
    + destruct (IH moved m1) as (n & m' & -> & Hn1 & Hn2).
      exists n, m'. split; [done|]. simpl. lia.
    + exfalso. revert E. apply no_exit_bind; [apply no_exit_call|intros _].
      apply no_exit_bind; [apply no_exit_call|intros _]. apply no_exit_ret.
Qed.

Lemma size_delete_Some (m : fs) k x : m !! k = Some x → size m = S (size (delete k m)).
Proof.
  intros H. rewrite <- (insert_delete_id m k x H) at 1.
  by rewrite map_size_insert, lookup_delete_eq.
Qed.

Lemma mover_remove_loop_count root dirs : ∀ removed m r m',
  Mover.remove_loop root dirs removed m = Ok r m' →
  dir_deleted m m' ∧ size m' + length r = size m + length removed ∧
  ∃ new, r = removed ++ new ∧ new `sublist_of` dirs.
Proof.
  induction dirs as [|p dirs IH]; intros removed m r m' H.
  - apply ret_Ok in H as [-> ->]. split; [apply dir_deleted_refl|]. split; [done|].
    exists []. by rewrite app_nil_r.
  - simpl in H. apply bind_Ok in H as (rp & ? & [_ ->]%check_Ok & H).
    apply bind_Ok in H as (rr & ? & [_ ->]%check_Ok & H).
    case_decide as Heq.
    { destruct (IH _ _ _ _ H) as (H1 & H2 & new & -> & H3).
      split; [done|]. split; [done|]. exists new. split; [done|].
      by apply sublist_cons. }
    apply bind_Ok in H as (removed' & m1 & Htry & H).
    destruct (IH _ _ _ _ H) as (H1 & H2 & new & -> & H3). clear IH H.
    unfold try_except in Htry.
    destruct ((names ← check (λ m, scandir m p);
               if decide (names = []) then
                 call (λ m, os_rmdir m p);; mret (removed ++ [p])
               else mret removed) m) as [a ma|ma|code ma] eqn:E; [| |done].
    + injection Htry as -> ->.
      apply bind_Ok in E as (names & ? & [_ ->]%check_Ok & E).
      case_decide as Hn.
      * apply bind_Ok in E as (? & m2 & Hrm%call_Ok & [-> ->]%ret_Ok).
        apply os_rmdir_Some in Hrm as (key & _ & Hkey & _ & ->).
        split; [eapply dir_deleted_trans; [by apply dir_deleted_delete|done]|].
        rewrite (size_delete_Some m key Dir Hkey).
        split; [rewrite !length_app in *; simpl in *; lia|].
        exists (p :: new). rewrite <- app_assoc. split; [done|].
        by apply sublist_skip.
      * apply ret_Ok in E as [-> ->]. split; [done|]. split; [done|].
        exists new. split; [done|]. by apply sublist_cons.
    + injection Htry as <- <-.
      assert (ma = m) as ->.
      { unfold mbind, M_bind, check in E. destruct (scandir m p) as [names|]; [|congruence].
        case_decide; [|done]. unfold call in E.
        destruct (os_rmdir m p); [done|congruence]. }
      split; [done|]. split; [done|]. exists new. split; [done|]. by apply sublist_cons.
Qed.

(** X10: when [remove_empty_dirs] of pipeline B returns, the list it
    returns counts exactly the entries that are gone, all of them
    directories; the list holds walked directories only, in the order of
    the walk. *)
Theorem mover_removed_dirs_counted root m removed m' :
  Mover.remove_empty_dirs root m = Ok removed m' →
  dir_deleted m m' ∧ size m = size m' + length removed ∧
  removed `sublist_of` walk_bottomup (walk_fuel m) m root.
Proof.
  unfold Mover.remove_empty_dirs. intros H.
  apply bind_Ok in H as (dirs & ? & [-> ->]%ask_Ok & H).
  apply mover_remove_loop_count in H as (H1 & H2 & new & -> & H3).
  split; [done|]. split; [simpl in *; lia|done].
Qed.

Lemma mover_removed_dirs_counted_witness :
  ∃ (removed : list path) (m' : fs), size inside_fs = size m' + length removed.
Proof.
  exists (default [] (value (Mover.remove_empty_dirs ["old"] inside_fs))),
    (final (Mover.remove_empty_dirs ["old"] inside_fs)).
  apply (mover_removed_dirs_counted ["old"] inside_fs). vm_compute. reflexivity.
Defined.
(** ** Pipeline A: how a run can end *)

Lemma dedup_plan_group_no_exit dry main_dir D newest paths : ∀ actions,
  no_exit (Dedup.plan_group dry main_dir D newest paths actions).
Proof.
  induction paths as [|p paths IH]; intros actions; simpl.
  - apply no_exit_ret.
  - case_decide; [apply IH|].
    apply no_exit_bind; [apply no_exit_check|intros rp].
    apply no_exit_bind; [apply no_exit_check|intros rmain].
    apply no_exit_bind; [apply no_exit_check|intros rel].
    apply no_exit_bind; [destruct dry; [apply no_exit_ret|apply no_exit_call]|intros _].
    apply no_exit_bind; [apply no_exit_ask|intros taken].
    apply no_exit_bind; [destruct taken; [apply no_exit_ask|apply no_exit_ret]|intros dst].
    apply IH.
Qed.

Lemma dedup_plan_groups_no_exit dry main_dir D by_hash : ∀ actions kept,
  no_exit (Dedup.plan_groups dry main_dir D by_hash actions kept).
Proof.
  induction by_hash as [|[h paths] by_hash IH]; intros actions kept; simpl.
  - apply no_exit_ret.
  - destruct paths as [|p0 [|p1 ps]]; [apply IH..|].
    apply no_exit_bind; [apply no_exit_ask|intros newest].
    apply no_exit_bind; [apply dedup_plan_group_no_exit|intros actions'].
    apply IH.
Qed.

Lemma dedup_move_all_no_exit dry actions : ∀ failed,
  no_exit (Dedup.move_all dry actions failed).
Proof.
  induction actions as [|[src dst] actions IH]; intros failed; simpl.
  - apply no_exit_ret.
  - destruct dry; [apply IH|].
    apply no_exit_bind; [|intros; apply IH].
    apply no_exit_try. apply no_exit_bind; [apply no_exit_call|intros _].
    apply no_exit_bind; [apply no_exit_call|intros _]. apply no_exit_ret.
Qed.

Lemma dedup_remove_loop_no_exit root keep dirs :
  no_exit (Dedup.remove_loop root keep dirs).
Proof.
  induction dirs as [|p dirs IH]; simpl.
  - apply no_exit_ret.
  - apply no_exit_bind; [case_decide; [apply no_exit_ret|apply no_exit_check]|intros skip].
    apply no_exit_bind; [|intros _; apply IH].
    destruct skip; [apply no_exit_ret|].
    apply no_exit_try. apply no_exit_bind; [apply no_exit_check|intros names].
    case_decide; [apply no_exit_call|apply no_exit_ret].
Qed.

(** X11: pipeline A ends in [sys.exit] exactly when the main directory
    is missing or no directory; the code is then 1 and the store is
    untouched. *)
Theorem dedup_exit_iff_invalid_directory a m code m' :
  Dedup.main a m = Exited code m' ↔
  code = 1 ∧ m' = m ∧
  ∃ d, resolve m (Dedup.main_dir a) = Some d ∧ exists_ m d && is_dir m d = false.
Proof.
  unfold Dedup.main. split.
  - intros H. apply bind_Exited in H as [H|(d & ? & [Hd ->]%check_Ok & H)];
      [by apply no_exit_check in H|].
    apply bind_Exited in H as [H|(ok & ? & [-> ->]%ask_Ok & H)];
      [by apply no_exit_ask in H|].
    destruct (exists_ m d && is_dir m d) eqn:E; cbn [negb] in H.
    + exfalso. revert H.
      apply no_exit_bind;
        [destruct (Dedup.dry_run a); [apply no_exit_ret|apply no_exit_call]|intros _].
      apply no_exit_bind; [apply no_exit_check|intros files].
      apply no_exit_bind; [apply no_exit_ask|intros by_hash].
      apply no_exit_bind; [apply dedup_plan_groups_no_exit|intros ak].
      apply no_exit_bind; [apply dedup_move_all_no_exit|intros failed].
      apply no_exit_bind; [|intros _; apply no_exit_ret].
      destruct (Dedup.dry_run a); [apply no_exit_ret|].
      apply no_exit_bind; [apply no_exit_ask|intros]. apply dedup_remove_loop_no_exit.
    + injection H as <- <-. split; [done|]. split; [done|]. by exists d.
  - intros (-> & -> & d & Hd & E).
    unfold mbind at 1, M_bind at 1, check at 1. rewrite Hd.
    unfold mbind at 1, M_bind at 1, ask at 1. by rewrite E.
Qed.

Lemma dedup_exit_iff_invalid_directory_witness :
  Dedup.main (Dedup.Args ["r"; "x.txt"] false false) link_fs = Exited 1 link_fs.
Proof.
  apply dedup_exit_iff_invalid_directory. split; [done|]. split; [done|].
  exists ["r"; "x.txt"]. split; vm_compute; reflexivity.
Defined.
(** ** Pipeline A: groups and plan *)

Lemma setdefault_append_nonempty by_hash h p :
  Forall (λ kv : string * list path, kv.2 ≠ []) by_hash →
  Forall (λ kv : string * list path, kv.2 ≠ []) (Dedup.setdefault_append by_hash h p).
Proof.
  induction by_hash as [|[k ps] rest IH]; simpl; intros H.
  - by repeat constructor.
  - apply Forall_cons in H as [H1 H2]. case_decide.
    + constructor; [|done]. simpl. by destruct ps.
    + constructor; [done|by apply IH].
Qed.

Lemma group_files_nonempty m files :
  Forall (λ kv : string * list path, kv.2 ≠ []) (Dedup.group_files m files).
Proof.
  unfold Dedup.group_files.
  assert (H : ∀ by_hash, Forall (λ kv : string * list path, kv.2 ≠ []) by_hash →
    Forall (λ kv : string * list path, kv.2 ≠ [])
      (foldl (λ by_hash fpath,
                match Dedup.sha256_of_file m fpath with
                | Some h => Dedup.setdefault_append by_hash h fpath
                | None => by_hash
                end) by_hash files)).
  { induction files as [|f files IH]; intros by_hash Hne; simpl; [done|].
    apply IH. destruct (Dedup.sha256_of_file m f); [|done].
    by apply setdefault_append_nonempty. }
  apply H. constructor.
Qed.

Lemma group_of_nonempty by_hash h :
  group_of by_hash h ≠ [] → (h, group_of by_hash h) ∈ by_hash.
Proof.
  induction by_hash as [|[k ps] rest IH]; simpl; [done|].
  case_decide as Hk; [subst; by left|]. intros H. right. by apply IH.
Qed.

(** X12: the hashing loop of pipeline A groups by content: the
    dictionary has every digest once, and the list under a digest is, in
    the order of the scan, the list of the scanned files with that digest;
    no list is empty, and a file that cannot be hashed is in none. *)
Theorem group_files_groups_by_digest m files :
  NoDup (Dedup.group_files m files).*1 ∧
  ∀ h ps, (h, ps) ∈ Dedup.group_files m files ↔
          ps ≠ [] ∧ ps = filter (λ p, Dedup.sha256_of_file m p = Some h) files.
Proof.
  destruct (group_files_spec m files) as [Hnd Hg]. split; [done|].
  intros h ps. split.
  - intros Hin. split.
    + pose proof (group_files_nonempty m files) as Hne.
      rewrite Forall_forall in Hne. by apply (Hne (h, ps)).
    + rewrite <- Hg. symmetry. by apply group_of_elem.
  - intros [Hne ->]. rewrite <- Hg in *. by apply group_of_nonempty.
Qed.
Lemma plan_group_sources dry main_dir D newest paths : ∀ actions m res m',
  Dedup.plan_group dry main_dir D newest paths actions m = Ok res m' →
  ∃ new, res = actions ++ new ∧ new.*1 = filter (λ p, p ≠ newest) paths.
Proof.
  induction paths as [|p paths IH]; intros actions m res m' H.
  - apply ret_Ok in H as [-> _]. exists []. by rewrite filter_nil, app_nil_r.
  - simpl in H. rewrite filter_cons. case_decide as Hp.
    + subst p. rewrite decide_False by by intros ?. by eapply IH.
    + rewrite decide_True by done.
      apply bind_Ok in H as (rp & ? & _ & H).
      apply bind_Ok in H as (rmain & ? & _ & H).
      apply bind_Ok in H as (rel & ? & _ & H).
      apply bind_Ok in H as (? & ? & _ & H).
      apply bind_Ok in H as (taken & ? & _ & H).
      apply bind_Ok in H as (dst & ? & _ & H).
      apply IH in H as (new & -> & Hnew). exists ((p, dst) :: new).
      rewrite <- app_assoc. split; [done|]. cbn [fmap list_fmap fst]. by f_equal.
Qed.

Lemma filter_ne_Permutation (l : list path) x :
  NoDup l → x ∈ l → x :: filter (λ p, p ≠ x) l ≡ₚ l.
Proof.
  induction l as [|y l IH]; intros Hnd Hx; [by apply elem_of_nil in Hx|].
  apply NoDup_cons in Hnd as [Hy Hnd]. rewrite filter_cons.
  destruct (decide (y = x)) as [->|Hne].
  - rewrite decide_False by by intros ?. constructor.
    clear IH Hx. induction l as [|z l IH]; [done|].
    rewrite filter_cons. apply not_elem_of_cons in Hy as [Hz Hy].
    apply NoDup_cons in Hnd as [_ Hnd].
    rewrite decide_True by done. constructor. by apply IH.
  - rewrite decide_True by done. apply elem_of_cons in Hx as [->|Hx]; [done|].
    rewrite perm_swap. constructor. by apply IH.
Qed.

(** The planning loop splits the groups: one member of each group goes to
    [kept], the others to the sources of [actions]. *)
Lemma plan_groups_partition dry main_dir D by_hash : ∀ actions kept m res m',
  Forall (λ g : string * list path, NoDup g.2) by_hash →
  Dedup.plan_groups dry main_dir D by_hash actions kept m = Ok res m' →
  ∃ new_a new_k, res = (actions ++ new_a, kept ++ new_k) ∧
    new_k ++ new_a.*1 ≡ₚ concat by_hash.*2 ∧
    Forall2 (λ k (g : string * list path), k ∈ g.2) new_k
            (filter (λ g : string * list path, g.2 ≠ []) by_hash).
Proof.
  induction by_hash as [|[h paths] by_hash IH]; intros actions kept m res m' Hnd H.
  - apply ret_Ok in H as [-> _]. exists [], []. rewrite !app_nil_r. by repeat split.
  - apply Forall_cons in Hnd as [Hnd1 Hnd]. simpl in Hnd1.
    cbn [Dedup.plan_groups] in H. rewrite filter_cons. cbn [snd fmap list_fmap concat].
    destruct paths as [|p0 [|p1 ps]].
    + rewrite decide_False by by intros ?.
      destruct (IH _ _ _ _ _ Hnd H) as (na & nk & -> & Hp & Hf). by exists na, nk.
    + rewrite decide_True by done.
      destruct (IH _ _ _ _ _ Hnd H) as (na & nk & -> & Hp & Hf).
      exists na, (p0 :: nk). rewrite <- app_assoc. split; [done|]. split.
      * simpl. by constructor.
      * constructor; [by left|done].
    + rewrite decide_True by done.
      apply bind_Ok in H as (newest & ? & [-> ->]%ask_Ok & H).
      apply bind_Ok in H as (actions' & m1 & Hg & H).
      destruct (IH _ _ _ _ _ Hnd H) as (na & nk & -> & Hp & Hf).
      set (newest := Dedup.choose_newest m p0 (p1 :: ps)) in *.
      assert (Hin : newest ∈ p0 :: p1 :: ps) by apply choose_newest_least.
      apply plan_group_sources in Hg as (ga & -> & Hga).
      exists (ga ++ na), (newest :: nk). rewrite <- !app_assoc. split; [done|]. split.
      * rewrite fmap_app, Hga. rewrite <- Hp.
        rewrite <- (filter_ne_Permutation (p0 :: p1 :: ps) newest Hnd1 Hin) at 2.
        set (F := filter (λ p, p ≠ newest) (p0 :: p1 :: ps)).
        rewrite <- !app_comm_cons. constructor.
        rewrite !app_assoc. apply Permutation_app_tail. apply Permutation_app_comm.
      * constructor; [done|done].
Qed.
Lemma concat_setdefault_append by_hash h (p : path) :
  concat (Dedup.setdefault_append by_hash h p).*2 ≡ₚ concat by_hash.*2 ++ [p].
Proof.
  induction by_hash as [|[k ps] rest IH]; simpl; [done|].
  case_decide; simpl.
  - rewrite <- !app_assoc. apply Permutation_app_head, Permutation_app_comm.
  - by rewrite IH, app_assoc.
Qed.

Lemma concat_group_files m files :
  concat (Dedup.group_files m files).*2 ≡ₚ
    filter (λ p, is_Some (Dedup.sha256_of_file m p)) files.
Proof.
  unfold Dedup.group_files.
  assert (H : ∀ by_hash,
    concat (foldl (λ by_hash fpath,
                     match Dedup.sha256_of_file m fpath with
                     | Some h => Dedup.setdefault_append by_hash h fpath
                     | None => by_hash
                     end) by_hash files).*2 ≡ₚ
    concat by_hash.*2 ++ filter (λ p, is_Some (Dedup.sha256_of_file m p)) files).
  { induction files as [|f files IH]; intros by_hash; simpl.
    - by rewrite filter_nil, app_nil_r.
    - rewrite IH, filter_cons. destruct (Dedup.sha256_of_file m f) as [h|] eqn:E.
      + rewrite decide_True by by eexists. rewrite concat_setdefault_append.
        by rewrite <- app_assoc.
      + rewrite decide_False; [done|]. by intros [? ?]. }
  apply (H []).
Qed.

Lemma filter_Forall_id {A} (P : A → Prop) `{!∀ x, Decision (P x)} (l : list A) :
  Forall P l → filter P l = l.
Proof.
  induction 1 as [|x l Hx Hl IH]; [done|]. by rewrite filter_cons_True, IH.
Qed.

(** X14: the planning loop of pipeline A, run on the groups of a scan
    that lists no file twice, keeps exactly one member of every group and
    schedules every other member exactly once: the files kept and the
    sources of the moves are, together, the scanned files that could be
    hashed, each once.  So the file that stays is never scheduled. *)
Theorem plan_keeps_one_and_schedules_the_rest dry main_dir D m0 files m acts kept m' :
  NoDup files →
  Dedup.plan_groups dry main_dir D (Dedup.group_files m0 files) [] [] m
    = Ok (acts, kept) m' →
  kept ++ acts.*1 ≡ₚ filter (λ p, is_Some (Dedup.sha256_of_file m0 p)) files ∧
  Forall2 (λ k (g : string * list path), k ∈ g.2) kept (Dedup.group_files m0 files) ∧
  ∀ k, k ∈ kept → k ∉ acts.*1.
Proof.
  intros Hnd H.
  destruct (group_files_spec m0 files) as [Hkeys Hg].
  pose proof (group_files_nonempty m0 files) as Hne.
  apply plan_groups_partition in H as (na & nk & [= -> ->] & Hp & Hf).
  - assert (Hperm : nk ++ na.*1 ≡ₚ
              filter (λ p, is_Some (Dedup.sha256_of_file m0 p)) files).
    { by rewrite Hp, concat_group_files. }
    simpl. split; [done|]. split.
    + by rewrite (filter_Forall_id _ _ Hne) in Hf.
    + assert (Hnd' : NoDup (nk ++ na.*1)).
      { rewrite Hperm. by apply NoDup_filter. }
      apply NoDup_app in Hnd' as (_ & Hdis & _). exact Hdis.
  - apply Forall_forall. intros [h ps] Hin. simpl.
    rewrite <- (group_of_elem _ h ps Hkeys Hin), Hg. by apply NoDup_filter.
Qed.
Lemma plan_keeps_one_and_schedules_the_rest_witness :
  [["r"; "b"; "x.txt"]] ++ [["r"; "a"; "x.txt"]] ≡ₚ
  filter (λ p, is_Some (Dedup.sha256_of_file twice_fs p))
         [["r"; "a"; "x.txt"]; ["r"; "b"; "x.txt"]].
Proof.
  apply (plan_keeps_one_and_schedules_the_rest true ["r"] ["r"; Dedup.duplicates_name]
           twice_fs [["r"; "a"; "x.txt"]; ["r"; "b"; "x.txt"]] twice_fs
           [(["r"; "a"; "x.txt"], ["r"; Dedup.duplicates_name; "a"; "x.txt"])]
           [["r"; "b"; "x.txt"]] twice_fs).
  - repeat constructor; vm_compute; set_solver.
  - vm_compute. reflexivity.
Defined.
(** X13: the moving loop of pipeline A always runs to its end; the pairs
    it reports as failed are planned pairs, in the order of the plan; with
    [--dry-run] nothing fails and the store is not touched. *)
Theorem dedup_move_all_completes dry actions : ∀ failed m,
  ∃ extra m', Dedup.move_all dry actions failed m = Ok (failed ++ extra) m' ∧
    extra `sublist_of` actions ∧ (dry = true → extra = [] ∧ m' = m).
Proof.
  induction actions as [|[src dst] actions IH]; intros failed m.
  - exists [], m. rewrite app_nil_r. by repeat split.
  - cbn [Dedup.move_all]. destruct dry.
    { destruct (IH failed m) as (extra & m' & -> & Hs & Hd).
      exists extra, m'. split; [done|]. split; [by apply sublist_cons|done]. }
    unfold mbind at 1, M_bind at 1. unfold try_except.
    destruct ((call (λ m, mkdir_parents m (parent dst));;
               call (λ m, shutil_move m src dst);; mret failed) m)
      as [f m1|m1|code m1] eqn:E.
    + apply bind_Ok in E as (? & ? & _ & E).
      apply bind_Ok in E as (? & ? & _ & E). apply ret_Ok in E as [-> _].
      destruct (IH failed m1) as (extra & m' & -> & Hs & _).
      exists extra, m'. split; [done|]. split; [by apply sublist_cons|done].
    + destruct (IH (failed ++ [(src, dst)]) m1) as (extra & m' & -> & Hs & _).
      exists ((src, dst) :: extra), m'. rewrite <- app_assoc.
      split; [done|]. split; [by apply sublist_skip|done].
    + exfalso. revert E. apply no_exit_bind; [apply no_exit_call|intros _].
      apply no_exit_bind; [apply no_exit_call|intros _]. apply no_exit_ret.
Qed.

Lemma placed_dir_added m m' main_dir p :
  dir_added m m' → placed m' main_dir p = placed m main_dir p.
Proof. intros H. unfold placed. by rewrite !(resolve_dir_added m m' _ H). Qed.

Lemma bind_Raised {A B} (c : M A) (k : A → M B) m m' :
  (c ≫= k) m = Raised m' →
  c m = Raised m' ∨ ∃ a m1, c m = Ok a m1 ∧ k a m1 = Raised m'.
Proof.
  unfold mbind, M_bind. destruct (c m) as [a m1|m1|code1 m1]; [|by left; congruence|done].
  intros H. right. by exists a, m1.
Qed.

Lemma check_Raised {A} (f : fs → option A) m m' :
  check f m = Raised m' → f m = None ∧ m' = m.
Proof. unfold check. destruct (f m); [done|]. by intros [= <-]. Qed.

Lemma plan_group_outsider dry main_dir D newest paths : ∀ actions m,
  (∃ p, p ∈ paths ∧ p ≠ newest ∧ placed m main_dir p = None) →
  ∃ m', Dedup.plan_group dry main_dir D newest paths actions m = Raised m'.
Proof.
  induction paths as [|p paths IH]; intros actions m.
  { by intros (p & ?%elem_of_nil & _). }
  cbn [Dedup.plan_group]. case_decide as Hp.
  { intros (q & [->|Hq]%elem_of_cons & Hne & Hpl); [done|]. apply IH. by exists q. }
  intros Hout.
  unfold mbind at 1, M_bind at 1, check at 1.
  destruct (resolve m p) as [rp|] eqn:Erp; [|by eexists].
  unfold mbind at 1, M_bind at 1, check at 1.
  destruct (resolve m main_dir) as [rmain|] eqn:Erm; [|by eexists].
  unfold mbind at 1, M_bind at 1, check at 1.
  destruct (relative_to rp rmain) as [rel|] eqn:Erel; [|by eexists].
  assert (Hpl : placed m main_dir p = Some rel).
  { unfold placed. by rewrite Erp, Erm. }
  destruct Hout as (q & [->|Hq]%elem_of_cons & Hne & Hq'); [congruence|].
  unfold mbind at 1, M_bind at 1.
  assert (∃ m1, dir_added m m1 ∧
            ((if dry then mret () else call (λ m, mkdir_parents m (parent (D ++ rel)))) m
               = Ok () m1 ∨
             (if dry then mret () else call (λ m, mkdir_parents m (parent (D ++ rel)))) m
               = Raised m1)) as (m1 & Hadd & [-> | ->]); [| |by eexists].
  { destruct dry; [exists m; split; [apply dir_added_refl|by left]|].
    unfold call. destruct (mkdir_parents m (parent (D ++ rel))) as [m1|] eqn:Emk.
    - exists m1. split; [by apply mkdir_parents_ok in Emk as [? _]|by left].
    - exists m. split; [apply dir_added_refl|by right]. }
  unfold mbind at 1, M_bind at 1, ask at 1.
  unfold mbind at 1, M_bind at 1.
  assert (∃ d, (if exists_ m1 (D ++ rel)
                then ask (λ m0, Dedup.unique_destination m0 (parent (D ++ rel)) (name p))
                else mret (D ++ rel)) m1 = Ok d m1) as [d ->].
  { destruct (exists_ m1 (D ++ rel)); by eexists. }
  apply IH. exists q. split; [done|]. split; [done|].
  by rewrite (placed_dir_added m m1).
Qed.

Lemma plan_group_dry_raised main_dir D newest paths : ∀ actions m m',
  Dedup.plan_group true main_dir D newest paths actions m = Raised m' →
  m' = m ∧ ∃ p, p ∈ paths ∧ p ≠ newest ∧ placed m main_dir p = None.
Proof.
  induction paths as [|p paths IH]; intros actions m m' H; [done|].
  cbn [Dedup.plan_group] in H. case_decide as Hp.
  { destruct (IH _ _ _ H) as (-> & q & Hq & Hne & Hpl).
    split; [done|]. exists q. split; [by right|done]. }
  assert (Hhere : placed m main_dir p = None →
            m = m ∧ ∃ q, q ∈ p :: paths ∧ q ≠ newest ∧ placed m main_dir q = None).
  { intros Hpl. split; [done|]. exists p. split; [by left|done]. }
  apply bind_Raised in H as [[E ->]%check_Raised|(rp & ? & [Erp ->]%check_Ok & H)].
  { apply Hhere. unfold placed. by rewrite E. }
  apply bind_Raised in H as [[E ->]%check_Raised|(rmain & ? & [Erm ->]%check_Ok & H)].
  { apply Hhere. unfold placed. by rewrite Erp, E. }
  apply bind_Raised in H as [[E ->]%check_Raised|(rel & ? & [Erel ->]%check_Ok & H)].
  { apply Hhere. unfold placed. by rewrite Erp, Erm. }
  apply bind_Raised in H as [H|(? & ? & [_ ->]%ret_Ok & H)]; [done|].
  apply bind_Raised in H as [H|(taken & ? & [_ ->]%ask_Ok & H)]; [done|].
  apply bind_Raised in H as [H|(dst & m1 & Hd & H)].
  { by destruct taken. }
  assert (m1 = m) as ->.
  { destruct taken; [by apply ask_Ok in Hd as [_ ->]|by apply ret_Ok in Hd as [_ ->]]. }
  destruct (IH _ _ _ H) as (-> & q & Hq & Hne & Hpl).
  split; [done|]. exists q. split; [by right|done].
Qed.

(** X15: the planning of a group raises when a member other than the one
    that stays cannot be placed below the main directory (its resolution
    fails or leads out of it): the [ValueError] of [relative_to] is not
    caught.  With [--dry-run] this is the only way the planning of a group
    raises, and the store is then untouched. *)
Theorem plan_group_raises_on_outsider dry main_dir D newest paths actions m :
  ((∃ p, p ∈ paths ∧ p ≠ newest ∧ placed m main_dir p = None) →
   ∃ m', Dedup.plan_group dry main_dir D newest paths actions m = Raised m') ∧
  (∀ m', Dedup.plan_group true main_dir D newest paths actions m = Raised m' →
         m' = m ∧ ∃ p, p ∈ paths ∧ p ≠ newest ∧ placed m main_dir p = None).
Proof.
  split; [apply plan_group_outsider|apply plan_group_dry_raised].
Qed.

Lemma plan_group_raises_on_outsider_witness :
  ∃ m', Dedup.plan_group true ["r"] ["r"; Dedup.duplicates_name] ["r"; "a"]
          [["r"; "a"]; ["r"; "l"]] [] outside_fs = Raised m'.
Proof.
  apply (plan_group_raises_on_outsider true ["r"] ["r"; Dedup.duplicates_name]
           ["r"; "a"] [["r"; "a"]; ["r"; "l"]] [] outside_fs).
  exists ["r"; "l"]. split; [by right; left|]. split; [done|]. vm_compute. reflexivity.
Defined.
(** ** Names: the numbered name keeps the extension *)

Lemma string_length_app a b :
  String.length (a +:+ b) = String.length a + String.length b.
Proof. induction a as [|c a IH]; simpl; [done|]. by rewrite IH. Qed.

Lemma string_app_assoc a b c : (a +:+ b) +:+ c = a +:+ (b +:+ c).
Proof.
  induction a as [|x a IH]; [done|].
  change (String x ((a +:+ b) +:+ c) = String x (a +:+ (b +:+ c))). by rewrite IH.
Qed.

Lemma rfind_dot_lt s : ∀ i, rfind_dot s = Some i → i < String.length s.
Proof.
  induction s as [|c s IH]; intros i; simpl; [done|].
  destruct (rfind_dot s) as [j|].
  - intros [= <-]. specialize (IH j eq_refl). lia.
  - destruct (Ascii.eqb c (Ascii.ascii_of_nat 46)); [|done]. intros [= <-]. lia.
Qed.

Lemma rfind_dot_app a b :
  rfind_dot (a +:+ b) =
    match rfind_dot b with
    | Some j => Some (String.length a + j)
    | None => rfind_dot a
    end.
Proof.
  induction a as [|c a IH].
  - change ("" +:+ b) with b. by destruct (rfind_dot b).
  - change (String c a +:+ b) with (String c (a +:+ b)).
    cbn [rfind_dot String.length]. rewrite IH.
    destruct (rfind_dot b) as [j|]; [done|]. done.
Qed.

Lemma substring_app_r a b :
  String.substring (String.length a) (String.length b) (a +:+ b) = b.
Proof.
  induction a as [|c a IH]; [apply substring_all|].
  change (String c a +:+ b) with (String c (a +:+ b)). exact IH.
Qed.

Lemma substring_app_l a b :
  String.substring 0 (String.length a) (a +:+ b) = a.
Proof.
  induction a as [|c a IH]; simpl; [by destruct b|].
  change (String c (String.substring 0 (String.length a) (a +:+ b)) = String c a).
  by rewrite IH.
Qed.

Lemma length_substring_0 s : ∀ i,
  i ≤ String.length s → String.length (String.substring 0 i s) = i.
Proof.
  induction s as [|c s IH]; intros [|i] Hi; simpl in *; try done; try lia.
  rewrite IH; [done|lia].
Qed.

(** A name with a suffix: the suffix starts with the last dot of the name
    and has a character after it. *)
Lemma suffix_shape nm :
  suffix nm ≠ "" →
  rfind_dot (suffix nm) = Some 0 ∧ 2 ≤ String.length (suffix nm) ∧
  1 ≤ String.length (stem nm).
Proof.
  intros Hsf. pose proof (stem_suffix nm) as Hnm. revert Hsf Hnm.
  unfold suffix, stem, split_index.
  destruct (rfind_dot nm) as [i|] eqn:Ei; [|done].
  destruct ((0 <? i) && (i <? String.length nm - 1)) eqn:Eb; [|done].
  apply andb_true_iff in Eb as [H0%Nat.ltb_lt H1%Nat.ltb_lt].
  set (st := String.substring 0 i nm). set (sf := String.substring i _ nm).
  intros _ Hnm.
  assert (Hst : String.length st = i) by (apply length_substring_0; lia).
  assert (Hlen : String.length nm = i + String.length sf).
  { by rewrite <- Hnm at 1; rewrite string_length_app, Hst. }
  rewrite <- Hnm, rfind_dot_app in Ei.
  destruct (rfind_dot sf) as [j|] eqn:Ej.
  - injection Ei as Ei. split; [f_equal; lia|]. split; lia.
  - apply rfind_dot_lt in Ei. lia.
Qed.

Lemma suffix_numbered st n sf :
  rfind_dot sf = Some 0 → 2 ≤ String.length sf →
  suffix (numbered st n sf) = sf ∧ stem (numbered st n sf) = st +:+ " (" +:+ num_str n +:+ ")".
Proof.
  intros Hdot Hlen. unfold numbered.
  set (hd := st +:+ " (" +:+ num_str n +:+ ")").
  assert (Hnm : st +:+ " (" +:+ num_str n +:+ ")" +:+ sf = hd +:+ sf).
  { unfold hd. by rewrite !string_app_assoc. }
  rewrite Hnm.
  assert (Hhd : 1 ≤ String.length hd).
  { unfold hd. rewrite !string_length_app. simpl. lia. }
  unfold suffix, stem, split_index. rewrite rfind_dot_app, Hdot, Nat.add_0_r.
  rewrite string_length_app.
  assert (Hb : (0 <? String.length hd) && (String.length hd <? String.length hd + String.length sf - 1) = true).
  { apply andb_true_iff. split; apply Nat.ltb_lt; lia. }
  rewrite Hb. replace (String.length hd + String.length sf - String.length hd)
    with (String.length sf) by lia.
  split; [apply substring_app_r|apply substring_app_l].
Qed.
(** X16: the destination that either script computes lies in the directory
    of the wanted path, whatever the name; and for a name that has an
    extension it keeps the extension: [a.txt] becomes [a (n).txt], never a
    name with another suffix. *)
Theorem numbered_name_keeps_extension m dest_path base_dir filename :
  (parent (Mover.unique_destination_path m dest_path) = parent dest_path ∧
   (suffix (name dest_path) ≠ "" →
    suffix (name (Mover.unique_destination_path m dest_path)) = suffix (name dest_path))) ∧
  (parent (Dedup.unique_destination m base_dir filename) = base_dir ∧
   (suffix filename ≠ "" →
    suffix (name (Dedup.unique_destination m base_dir filename)) = suffix filename)).
Proof.
  split.
  - destruct (unique_destination_path_cases m dest_path) as [Hfree Htaken].
    destruct (exists_ m dest_path); [|by rewrite Hfree].
    destruct (Htaken eq_refl) as (n & _ & -> & _).
    rewrite name_snoc, parent_snoc. split; [done|]. intros Hsf.
    destruct (suffix_shape _ Hsf) as (Hdot & Hlen & _). by apply suffix_numbered.
  - destruct (unique_destination_cases m base_dir filename) as [Hfree Htaken].
    destruct (exists_ m (base_dir ++ [filename])).
    + destruct (Htaken eq_refl) as (n & _ & -> & _).
      rewrite name_snoc, parent_snoc. split; [done|]. intros Hsf.
      destruct (suffix_shape _ Hsf) as (Hdot & Hlen & _). by apply suffix_numbered.
    + rewrite Hfree by done. by rewrite name_snoc, parent_snoc.
Qed.

Lemma numbered_name_keeps_extension_witness :
  (parent (Mover.unique_destination_path collide_fs ["dst"; "a.txt"]) = ["dst"] ∧
   suffix (name (Mover.unique_destination_path collide_fs ["dst"; "a.txt"])) = ".txt") ∧
  (parent (Dedup.unique_destination collide_fs ["dst"] "a.txt") = ["dst"] ∧
   suffix (name (Dedup.unique_destination collide_fs ["dst"] "a.txt")) = ".txt").
Proof.
  destruct (numbered_name_keeps_extension collide_fs ["dst"; "a.txt"] ["dst"] "a.txt")
    as [[HBp HBs] [HAp HAs]].
  split; (split; [done|]).
  - apply HBs. vm_compute. discriminate.
  - apply HAs. vm_compute. discriminate.
Defined.

(** ** The scan of pipeline A *)

Lemma prune_kept m D dirpath dirnames kept :
  Dedup.prune m D dirpath dirnames = Some kept →
  ∀ d, d ∈ kept → d ∈ dirnames ∧ resolve m (dirpath ++ [d]) ≠ resolve m D.
Proof.
  revert kept. induction dirnames as [|d0 dirnames IH]; intros kept; simpl.
  - intros [= <-] d Hd. by apply elem_of_nil in Hd.
  - destruct (resolve m (dirpath ++ [d0])) as [a|] eqn:Ea; [|done].
    destruct (resolve m D) as [b|] eqn:Eb; [|done].
    destruct (Dedup.prune m D dirpath dirnames) as [rest|]; [|done].
    intros [= <-] d Hd. specialize (IH rest eq_refl).
    case_decide as Hab.
    + destruct (IH d Hd) as [H1 H2]. split; [by right|done].
    + apply elem_of_cons in Hd as [->|Hd].
      * split; [by left|]. rewrite Ea. congruence.
      * destruct (IH d Hd) as [H1 H2]. split; [by right|done].
Qed.

(** X18: whatever the flag [--follow-symlinks] says, the scan of pipeline
    A lists only paths that lead to regular files, and never enters a
    directory that leads to the quarantine directory: every directory on
    the way from the top to a listed file is a directory that resolves to
    something else than the quarantine directory does. *)
Theorem scan_never_enters_quarantine fuel m followlinks D : ∀ top files,
  Dedup.scan fuel m followlinks D top = Some files →
  ∀ p, p ∈ files →
    is_file m p = true ∧
    ∃ rel, p = top ++ rel ∧ rel ≠ [] ∧
      ∀ pre suf, rel = pre ++ suf → pre ≠ [] → suf ≠ [] →
        is_dir m (top ++ pre) = true ∧ resolve m (top ++ pre) ≠ resolve m D.
Proof.
  induction fuel as [|fuel IH]; intros top files.
  { intros [= <-] p Hp. by apply elem_of_nil in Hp. }
  cbn [Dedup.scan]. destruct (scandir m top) as [names|].
  2:{ intros [= <-] p Hp. by apply elem_of_nil in Hp. }
  destruct (Dedup.prune m D top _) as [kept|] eqn:Epr; [|done].
  destruct (mapM _ kept) as [below|] eqn:Emap; [|done].
  intros [= <-] p [Hp|Hp]%elem_of_app.
  - apply list_elem_of_filter in Hp as [Hf Hp].
    apply list_elem_of_fmap in Hp as (n & -> & _). split; [done|].
    exists [n]. split; [done|]. split; [done|].
    intros pre suf E Hpre Hsuf. destruct pre as [|x pre]; [done|].
    destruct pre, suf; simplify_eq/=.
  - apply elem_of_concat in Hp as (sub & Hsub & Hp).
    apply mapM_Some in Emap.
    destruct (proj1 (list_elem_of_lookup _ _) Hsub) as [i Hi].
    destruct (Forall2_lookup_r _ _ _ _ _ Emap Hi) as (d & Hd & Hrun).
    apply list_elem_of_lookup_2 in Hd.
    destruct (prune_kept _ _ _ _ _ Epr d Hd) as [Hdir Hres].
    apply list_elem_of_filter in Hdir as [Hdir _].
    destruct (followlinks || negb (is_symlink m (top ++ [d]))).
    2:{ injection Hrun as <-. by apply elem_of_nil in Hp. }
    destruct (IH _ _ Hrun p Hp) as (Hf & rel & -> & Hrel & Hpre).
    split; [done|]. exists (d :: rel). split; [by rewrite <- app_assoc|].
    split; [done|]. intros pre suf E Hne Hsuf.
    destruct pre as [|x pre]; [done|]. injection E as <- ->.
    destruct pre as [|y pre]; [done|].
    replace (top ++ d :: y :: pre) with ((top ++ [d]) ++ y :: pre)
      by by rewrite <- app_assoc.
    by apply (Hpre (y :: pre) suf).
Qed.

Lemma scan_never_enters_quarantine_witness : is_file link_fs ["r"; "l"] = true.
Proof.
  apply (scan_never_enters_quarantine (walk_fuel link_fs) link_fs false
           ["r"; Dedup.duplicates_name] ["r"] [["r"; "x.txt"]; ["r"; "l"]]);
    [vm_compute; reflexivity|by right; left].
Defined.
(** * What the runs can touch *)

Lemma touches_only_refl P m : touches_only P m m.
Proof. by intros Hnl. Qed.

Lemma touches_only_trans P m1 m2 m3 :
  touches_only P m1 m2 → touches_only P m2 m3 → touches_only P m1 m3.
Proof.
  intros H1 H2 Hnl. destruct (H1 Hnl) as [Hnl2 H12]. destruct (H2 Hnl2) as [Hnl3 H23].
  split; [done|]. intros k Hk. by rewrite H23, H12.
Qed.

Lemma touches_only_weaken (P Q : path → Prop) m m' :
  (∀ k, P k → Q k) → touches_only P m m' → touches_only Q m m'.
Proof.
  intros HPQ H Hnl. destruct (H Hnl) as [Hnl' Hs]. split; [done|].
  intros k Hk. apply Hs. auto.
Qed.

Section KeepsRun.
Context {A B : Type} (R : fs → fs → Prop).
Context (Htrans : ∀ m1 m2 m3, R m1 m2 → R m2 m3 → R m1 m3).

(** A continuation needs to keep [R] only on the values and stores that
    the first part can hand to it. *)
Lemma keeps_bind_run (c : M A) (k : A → M B) :
  keeps R c → (∀ m a m1, c m = Ok a m1 → R m1 (final (k a m1))) →
  keeps R (c ≫= k).
Proof.
  intros Hc Hk m. unfold mbind, M_bind. specialize (Hc m).
  destruct (c m) as [a m1|m1|code m1] eqn:E; simpl in *; [|done..].
  eapply Htrans; [exact Hc|by eapply Hk].
Qed.

End KeepsRun.

Lemma no_links_dir_added m m' : dir_added m m' → no_links m → no_links m'.
Proof.
  intros H Hnl k t E. destruct (H k) as [E'|[_ E']]; rewrite E' in E; [|done].
  by apply (Hnl k t).
Qed.

(** Without links, [os.mkdir(p)] makes the entry [p]. *)
Lemma os_mkdir_key m p m' :
  no_links m → os_mkdir m p = inl m' → m' = <[p := Dir]> m ∧ m !! p = None.
Proof.
  intros Hnl (d & Hd & _ & Hn & -> & Hp)%os_mkdir_inl.
  rewrite resolve_no_links in Hd by done. injection Hd as <-.
  rewrite parent_name in * by done. done.
Qed.

Lemma mkdir_exist_ok_key m p m' :
  no_links m → mkdir_exist_ok m p = Some m' →
  ∀ k, k ≠ p → m' !! k = m !! k.
Proof.
  intros Hnl. unfold mkdir_exist_ok. destruct (os_mkdir m p) as [m1|e] eqn:E.
  - intros [= <-] k Hk. apply os_mkdir_key in E as [-> _]; [|done].
    by rewrite lookup_insert_ne.
  - destruct e; [done| |]; destruct (is_dir m p); try done; by intros [= <-].
Qed.

Lemma mkdir_chain_keys ancs : ∀ m p m',
  no_links m → mkdir_chain m p ancs = Some m' →
  ∀ k, k ∉ p :: ancs → m' !! k = m !! k.
Proof.
  induction ancs as [|q ancs IH]; intros m p m' Hnl.
  - rewrite mkdir_chain_nil. intros H k Hk. apply (mkdir_exist_ok_key m p m' Hnl H).
    intros ->. apply Hk. by left.
  - rewrite mkdir_chain_cons. destruct (os_mkdir m p) as [m1|e] eqn:E.
    + intros [= <-] k Hk. apply os_mkdir_key in E as [-> _]; [|done].
      rewrite lookup_insert_ne; [done|]. intros ->. apply Hk. by left.
    + destruct e.
      * destruct (mkdir_chain m q ancs) as [m1|] eqn:E1; [|done].
        intros H k Hk.
        assert (Hnl1 : no_links m1).
        { apply mkdir_chain_ok in E1 as [E1 _]. by eapply no_links_dir_added. }
        rewrite (mkdir_exist_ok_key m1 p m' Hnl1 H).
        -- apply (IH _ _ _ Hnl E1). intros Hin. apply Hk. by right.
        -- intros ->. apply Hk. by left.
      * destruct (is_dir m p); [|done]. by intros [= <-].
      * destruct (is_dir m p); [|done]. by intros [= <-].
Qed.

Lemma parent_prefix (p : path) : parent p `prefix_of` p.
Proof.
  destruct (decide (p = [])) as [->|Hp]; [done|].
  exists [name p]. by rewrite parent_name.
Qed.

Lemma ancestors_prefix n : ∀ p q, q ∈ ancestors n p → q `prefix_of` p.
Proof.
  induction n as [|n IH]; intros p q; simpl; [by intros ?%elem_of_nil|].
  destruct (parent p) as [|c r] eqn:E; [by intros ?%elem_of_nil|].
  rewrite <- E. intros [->|Hq]%elem_of_cons; [apply parent_prefix|].
  etrans; [by apply IH|apply parent_prefix].
Qed.

(** Without links, [mkdir(parents=True, exist_ok=True)] of [p] touches
    only [p] and what lies above it, and adds directories only. *)
Lemma mkdir_parents_touches m p m' :
  mkdir_parents m p = Some m' →
  touches_only (λ k, k `prefix_of` p) m m'.
Proof.
  intros H Hnl. split.
  - apply mkdir_parents_ok in H as [H _]. by eapply no_links_dir_added.
  - intros k Hk. apply (mkdir_chain_keys _ _ _ _ Hnl H).
    intros [->|Hin]%elem_of_cons; [by apply Hk|].
    apply Hk. by eapply ancestors_prefix.
Qed.
Lemma list_to_map_rekeyed (f : path * node → path * node) (l : list (path * node)) k :
  (∀ kv, kv ∈ l → (f kv).1 = k ∨ kv.1 = k → f kv = kv) →
  (list_to_map (f <$> l) : fs) !! k = (list_to_map l : fs) !! k.
Proof.
  induction l as [|kv l IH]; intros H; [done|].
  cbn [fmap list_fmap list_to_map foldr]. 
  assert (IH' : (list_to_map (f <$> l) : fs) !! k = (list_to_map l : fs) !! k).
  { apply IH. intros kv' Hin. apply H. by right. }
  destruct (decide ((f kv).1 = k)) as [E|E].
  - assert (Ekv : f kv = kv) by (apply H; [by left|by left]).
    rewrite Ekv in *. rewrite <- E. by rewrite !lookup_insert_eq.
  - destruct (decide (kv.1 = k)) as [E'|E'].
    + assert (Ekv : f kv = kv) by (apply H; [by left|by right]).
      by rewrite Ekv in E.
    + by rewrite !lookup_insert_ne.
Qed.

(** Re-keying a subtree leaves every entry outside the two subtrees where
    it is, and makes no entry that was not there. *)
Lemma rekey_outside s d m k :
  ¬ s `prefix_of` k → ¬ d `prefix_of` k → rekey s d m !! k = m !! k.
Proof.
  intros Hs Hd. unfold rekey.
  rewrite <- (list_to_map_to_list m) at 2.
  apply list_to_map_rekeyed. intros [k' x] _ Hk. simpl in *.
  destruct (relative_to k' s) as [r|] eqn:E; [|done]. exfalso.
  apply relative_to_Some in E as ->. destruct Hk as [<-|<-].
  - apply Hd. by exists r.
  - apply Hs. by exists r.
Qed.

Lemma rekey_values s d m k x :
  rekey s d m !! k = Some x → ∃ k', m !! k' = Some x.
Proof.
  unfold rekey. intros H%elem_of_list_to_map_2.
  apply list_elem_of_fmap in H as ([k' x'] & E & Hin).
  apply elem_of_map_to_list in Hin. exists k'.
  simpl in E. destruct (relative_to k' s); by injection E as _ ->.
Qed.

Lemma no_links_rekey s d m : no_links m → no_links (rekey s d m).
Proof. intros Hnl k t [k' E]%rekey_values. by apply (Hnl k' t). Qed.

Lemma no_links_delete (m : fs) k : no_links m → no_links (delete k m).
Proof.
  intros Hnl k' t. destruct (decide (k' = k)) as [->|Hk].
  - by rewrite lookup_delete_eq.
  - rewrite lookup_delete_ne by done. apply Hnl.
Qed.

Lemma no_links_insert (m : fs) k x :
  no_links m → (∀ t, x ≠ Symlink t) → no_links (<[k := x]> m).
Proof.
  intros Hnl Hx k' t. destruct (decide (k' = k)) as [->|Hk].
  - rewrite lookup_insert_eq. intros [= ->]. by apply (Hx t).
  - rewrite lookup_insert_ne by done. apply Hnl.
Qed.

Lemma prefix_refl_path (p : path) : p `prefix_of` p.
Proof. done. Qed.

(** Without links, [os.rename(src, dst)] touches only what lies at or
    below [src] and at or below [dst]. *)
Lemma os_rename_touches m src dst m' :
  os_rename m src dst = Some m' →
  touches_only (λ k, src `prefix_of` k ∨ dst `prefix_of` k) m m'.
Proof.
  intros H Hnl. unfold os_rename in H.
  destruct src as [|s0 src0]; [done|]. set (src := s0 :: src0) in *.
  destruct dst as [|d0 dst0]; [done|]. set (dst := d0 :: dst0) in *.
  rewrite !resolve_no_links, !parent_name in H by done.
  destruct (m !! src) as [n|] eqn:En; [|done].
  destruct (lstat m (parent dst)) as [[| |]|]; try done.
  case_decide as Heq; [by injection H as <-|].
  assert (Hout : ∀ k, ¬ (src `prefix_of` k ∨ dst `prefix_of` k) → k ≠ src ∧ k ≠ dst ∧
                      ¬ src `prefix_of` k ∧ ¬ dst `prefix_of` k).
  { intros k Hk. repeat split; [intros ->|intros ->|intros ?|intros ?]; apply Hk; auto. }
  assert (Hmove : m' = <[dst := n]> (delete src m) → (∀ t, n ≠ Symlink t) →
                  no_links m' ∧ same_outside (λ k, src `prefix_of` k ∨ dst `prefix_of` k) m m').
  { intros -> Hn. split; [apply no_links_insert; [by apply no_links_delete|done]|].
    intros k (H1 & H2 & _)%Hout. by rewrite lookup_insert_ne, lookup_delete_ne. }
  assert (Hn : ∀ t, n ≠ Symlink t).
  { intros t ->. by apply (Hnl src t). }
  destruct n as [h t| t |].
  - destruct (m !! dst) as [[| |]|]; try done; injection H as <-; by apply Hmove.
  - by destruct (Hn t).
  - destruct (m !! dst) as [[| |]|] eqn:Ed; try done.
    + case_decide as Hl; [|done]. case_decide as Hr; [done|]. injection H as <-.
      split; [by apply no_links_rekey, no_links_delete|].
      intros k (H1 & H2 & H3 & H4)%Hout.
      by rewrite rekey_outside, lookup_delete_ne.
    + case_decide as Hr; [done|]. injection H as <-.
      split; [by apply no_links_rekey|].
      intros k (H1 & H2 & H3 & H4)%Hout. by rewrite rekey_outside.
Qed.

Lemma shutil_move_touches m src dst m' :
  shutil_move m src dst = Some m' →
  touches_only (λ k, src `prefix_of` k ∨ dst `prefix_of` k) m m'.
Proof.
  unfold shutil_move. intros H.
  destruct (is_dir m dst); [|by apply os_rename_touches].
  destruct (bool_decide (resolve m src = resolve m dst) && negb (is_symlink m src));
    [by apply os_rename_touches|].
  destruct (exists_ m (dst ++ [name src])); [done|].
  apply os_rename_touches in H. eapply touches_only_weaken; [|exact H].
  intros k [?|[r ->]]; [by left|right]. exists ([name src] ++ r). by rewrite app_assoc.
Qed.

Lemma os_rmdir_touches m p m' :
  os_rmdir m p = Some m' → touches_only (λ k, k = p) m m'.
Proof.
  intros (key & Hkey & Hd & _ & ->)%os_rmdir_Some Hnl.
  rewrite resolve_no_links in Hkey by done. injection Hkey as <-.
  split; [by apply no_links_delete|]. intros k Hk. by rewrite lookup_delete_ne.
Qed.
(** ** Pipeline B *)

Lemma unique_destination_path_below m dest rel :
  rel ≠ [] → ∃ r, r ≠ [] ∧ Mover.unique_destination_path m (dest ++ rel) = dest ++ r.
Proof.
  intros Hrel. destruct (unique_destination_path_cases m (dest ++ rel)) as [Hfree Htaken].
  destruct (exists_ m (dest ++ rel)).
  - destruct (Htaken eq_refl) as (n & _ & -> & _). rewrite parent_app by done.
    eexists. split; [|by rewrite <- app_assoc]. by destruct (parent rel).
  - exists rel. split; [done|]. by apply Hfree.
Qed.

(** Every planned move takes an entry of the older tree to a place
    strictly inside its destination tree. *)
Lemma plan_moves_region m main_hashes older_root dest_root symlinks_dest :
  let pl := Mover.plan_moves m main_hashes older_root dest_root symlinks_dest in
  (∀ s d, (s, d) ∈ Mover.moves_regular pl →
     older_root `prefix_of` s ∧ ∃ r, r ≠ [] ∧ d = dest_root ++ r) ∧
  (∀ s d, (s, d) ∈ Mover.moves_syms pl →
     older_root `prefix_of` s ∧ ∃ r, r ≠ [] ∧ d = symlinks_dest ++ r).
Proof.
  intros pl. split; intros s d Hin; unfold pl, Mover.plan_moves in Hin.
  - apply (proj1 (plan_fold_regular _ _ _ _ _ _ _ _)) in Hin
      as [Hin|(p & Hp & Hsrc & _ & _ & h & rel & _ & _ & Hr & Hdst)];
      [by apply elem_of_nil in Hin|].
    simpl in Hsrc, Hdst. subst s.
    apply rglob_below in Hp as (c & r & ->). rewrite relative_to_app in Hr.
    injection Hr as <-. split; [by eexists|]. rewrite Hdst.
    by apply unique_destination_path_below.
  - apply (proj1 (plan_fold_links _ _ _ _ _ _ _ _)) in Hin
      as [Hin|(p & Hp & Hsrc & _ & rel & Hr & Hdst)];
      [by apply elem_of_nil in Hin|].
    simpl in Hsrc, Hdst. subst s.
    apply rglob_below in Hp as (c & r & ->). rewrite relative_to_app in Hr.
    injection Hr as <-. split; [by eexists|]. rewrite Hdst.
    by apply unique_destination_path_below.
Qed.

Lemma mover_move_all_touches (P : path → Prop) moves :
  (∀ s d, (s, d) ∈ moves →
     ∀ k, s `prefix_of` k ∨ d `prefix_of` k ∨ k `prefix_of` parent d → P k) →
  ∀ moved, keeps (touches_only P) (Mover.move_all moves moved).
Proof.
  induction moves as [|[src dst] moves IH]; intros HP moved.
  - apply keeps_pure; [apply touches_only_refl|apply pure_ret].
  - cbn [Mover.move_all]. apply keeps_bind; [apply touches_only_trans| |].
    + apply keeps_try. apply keeps_bind; [apply touches_only_trans| |intros _].
      * apply keeps_call; [apply touches_only_refl|]. intros m m' Hrun.
        apply mkdir_parents_touches in Hrun. eapply touches_only_weaken; [|exact Hrun].
        intros k Hk. apply (HP src dst); [by left|auto].
      * apply keeps_bind; [apply touches_only_trans| |intros _].
        -- apply keeps_call; [apply touches_only_refl|]. intros m m' Hrun.
           apply shutil_move_touches in Hrun. eapply touches_only_weaken; [|exact Hrun].
           intros k Hk. apply (HP src dst); [by left|]. destruct Hk; auto.
        -- apply keeps_pure; [apply touches_only_refl|apply pure_ret].
    + intros moved'. apply IH. intros s d Hin. apply HP. by right.
Qed.

Lemma mover_remove_loop_touches (P : path → Prop) root dirs :
  (∀ p, p ∈ dirs → P p) →
  ∀ removed, keeps (touches_only P) (Mover.remove_loop root dirs removed).
Proof.
  induction dirs as [|p dirs IH]; intros HP removed.
  - apply keeps_pure; [apply touches_only_refl|apply pure_ret].
  - cbn [Mover.remove_loop].
    assert (IH' : ∀ removed, keeps (touches_only P) (Mover.remove_loop root dirs removed)).
    { apply IH. intros q Hq. apply HP. by right. }
    apply keeps_bind; [apply touches_only_trans| |intros rp].
    { apply keeps_pure; [apply touches_only_refl|apply pure_check]. }
    apply keeps_bind; [apply touches_only_trans| |intros rr].
    { apply keeps_pure; [apply touches_only_refl|apply pure_check]. }
    case_decide; [apply IH'|].
    apply keeps_bind; [apply touches_only_trans| |intros; apply IH'].
    apply keeps_try. apply keeps_bind; [apply touches_only_trans| |intros names].
    { apply keeps_pure; [apply touches_only_refl|apply pure_check]. }
    case_decide; [|apply keeps_pure; [apply touches_only_refl|apply pure_ret]].
    apply keeps_bind; [apply touches_only_trans| |intros _].
    + apply keeps_call; [apply touches_only_refl|]. intros m m' Hrun.
      apply os_rmdir_touches in Hrun. eapply touches_only_weaken; [|exact Hrun].
      intros k ->. apply HP. by left.
    + apply keeps_pure; [apply touches_only_refl|apply pure_ret].
Qed.

Lemma mover_remove_empty_dirs_touches root :
  keeps (touches_only (λ k, root `prefix_of` k)) (Mover.remove_empty_dirs root).
Proof.
  unfold Mover.remove_empty_dirs.
  apply keeps_bind_run; [apply touches_only_trans| |].
  - apply keeps_pure; [apply touches_only_refl|apply pure_ask].
  - intros m dirs m1 [-> ->]%ask_Ok. apply mover_remove_loop_touches.
    intros p Hp. by apply walk_bottomup_prefix in Hp.
Qed.
Lemma comparable_below (k d r : path) : k `prefix_of` d ++ r → comparable k d.
Proof. intros H. apply (prefix_weak_total k d (d ++ r)); [done|by exists r]. Qed.

Lemma moves_in_region (P : path → Prop) older dest (moves : list (path * path)) :
  (∀ k, older `prefix_of` k → P k) → (∀ k, comparable k dest → P k) →
  (∀ s d, (s, d) ∈ moves → older `prefix_of` s ∧ ∃ r, r ≠ [] ∧ d = dest ++ r) →
  ∀ s d, (s, d) ∈ moves →
    ∀ k, s `prefix_of` k ∨ d `prefix_of` k ∨ k `prefix_of` parent d → P k.
Proof.
  intros Ho Hd Hmoves s d Hin k Hk.
  destruct (Hmoves s d Hin) as (Hs & r & Hr & ->).
  destruct Hk as [Hk|[Hk|Hk]].
  - apply Ho. by etrans.
  - apply Hd. right. etrans; [|exact Hk]. by exists r.
  - apply Hd. rewrite parent_app in Hk by done. by eapply comparable_below.
Qed.

(** Pipeline B, run on a store without links, touches only its region. *)
Lemma mover_main_touches a : keeps (touches_only (mover_region a)) (Mover.main a).
Proof.
  assert (Hpure : ∀ A (c : M A), pure_ c → keeps (touches_only (mover_region a)) c).
  { intros A c Hc. apply keeps_pure; [apply touches_only_refl|done]. }
  assert (Hmk : ∀ p, (∀ k, k `prefix_of` p → mover_region a k) →
            keeps (touches_only (mover_region a)) (call (λ m, mkdir_parents m p))).
  { intros p Hp. apply keeps_call; [apply touches_only_refl|]. intros m m' Hrun.
    apply mkdir_parents_touches in Hrun. eapply touches_only_weaken; [|exact Hrun].
    exact Hp. }
  unfold Mover.main.
  apply keeps_bind; [apply touches_only_trans| |intros _].
  { apply Hpure, validate_roots_pure. }
  apply keeps_bind; [apply touches_only_trans| |intros _].
  { apply Hmk. intros k Hk. right; left. by left. }
  apply keeps_bind; [apply touches_only_trans| |intros _].
  { apply Hmk. intros k Hk. right; right. by left. }
  apply keeps_bind; [apply touches_only_trans|apply Hpure, pure_check|intros rm].
  apply keeps_bind; [apply touches_only_trans|apply Hpure, pure_check|intros ro].
  case_decide; [apply Hpure, pure_sys_exit|].
  apply keeps_bind; [apply touches_only_trans|apply Hpure, refuse_inside_pure|intros _].
  apply keeps_bind; [apply touches_only_trans|apply Hpure, pure_ask|intros main_hashes].
  apply keeps_bind_run; [apply touches_only_trans|apply Hpure, pure_ask|].
  intros m pl m1 [-> ->]%ask_Ok.
  destruct (plan_moves_region m main_hashes (Mover.older_root a) (Mover.dest_root a)
              (Mover.symlinks_dest a)) as [Hreg Hsym].
  set (pl := Mover.plan_moves m main_hashes (Mover.older_root a) (Mover.dest_root a)
               (Mover.symlinks_dest a)) in *.
  generalize m. change (keeps (touches_only (mover_region a))
    (if negb (Mover.apply a) then mret (Mover.Summary pl 0 0 [])
     else
       moved_r ← Mover.move_all (Mover.moves_regular pl) 0;
       moved_s ← Mover.move_all (Mover.moves_syms pl) 0;
       removed ← (if Mover.keep_empty_dirs a then mret []
                  else Mover.remove_empty_dirs (Mover.older_root a));
       mret (Mover.Summary pl moved_r moved_s removed))).
  destruct (negb (Mover.apply a)); [apply Hpure, pure_ret|].
  apply keeps_bind; [apply touches_only_trans| |intros moved_r].
  { apply mover_move_all_touches.
    apply (moves_in_region _ (Mover.older_root a) (Mover.dest_root a)); [| |done].
    - intros k Hk. by left.
    - intros k Hk. right; by left. }
  apply keeps_bind; [apply touches_only_trans| |intros moved_s].
  { apply mover_move_all_touches.
    apply (moves_in_region _ (Mover.older_root a) (Mover.symlinks_dest a)); [| |done].
    - intros k Hk. by left.
    - intros k Hk. right; by right. }
  apply keeps_bind; [apply touches_only_trans| |intros removed; apply Hpure, pure_ret].
  destruct (Mover.keep_empty_dirs a); [apply Hpure, pure_ret|].
  intros m0. eapply touches_only_weaken; [|apply mover_remove_empty_dirs_touches].
  intros k Hk. by left.
Qed.

(** X19: pipeline B, run on a store without symbolic links, touches only
    the older tree, the two destination trees and the directories above
    the destination roots (which [mkdir] makes when they are missing),
    however it ends.  So when the main root is neither inside nor above the
    older root or a destination root, the main tree is left exactly as it
    was. *)
Theorem mover_leaves_main_tree_alone a m :
  no_links m →
  same_outside (mover_region a) m (final (Mover.main a m)) ∧
  (¬ comparable (Mover.main_root a) (Mover.older_root a) →
   ¬ comparable (Mover.main_root a) (Mover.dest_root a) →
   ¬ comparable (Mover.main_root a) (Mover.symlinks_dest a) →
   ∀ k, Mover.main_root a `prefix_of` k → final (Mover.main a m) !! k = m !! k).
Proof.
  intros Hnl. destruct (mover_main_touches a m Hnl) as [_ Hsame]. split; [done|].
  intros Ho Hd Hs k Hk. apply Hsame. intros [H|[H|H]].
  - apply Ho. by apply (prefix_weak_total _ _ k).
  - apply Hd. destruct H as [H|H].
    + left. by etrans.
    + by apply (prefix_weak_total _ _ k).
  - apply Hs. destruct H as [H|H].
    + left. by etrans.
    + by apply (prefix_weak_total _ _ k).
Qed.

Lemma mover_leaves_main_tree_alone_witness :
  final (Mover.main (Mover.Args ["cur"] ["old"] ["dst"] ["sym"] true false) dry_fs)
    !! ["cur"; "x"] = dry_fs !! ["cur"; "x"].
Proof.
  destruct (mover_leaves_main_tree_alone
              (Mover.Args ["cur"] ["old"] ["dst"] ["sym"] true false) dry_fs)
    as [_ H]; [apply no_links_check; vm_compute; reflexivity|].
  apply H; try (by intros [[r [=]]|[r [=]]]). by exists ["x"].
Defined.
(** ** Pipeline A *)

Lemma mkdir_exist_ok_touches m p m' :
  mkdir_exist_ok m p = Some m' → touches_only (λ k, k = p) m m'.
Proof.
  intros H Hnl. split.
  - apply mkdir_exist_ok_ok in H as [H _]. by eapply no_links_dir_added.
  - intros k Hk. by apply (mkdir_exist_ok_key m p m' Hnl H).
Qed.

Lemma scan_below fuel m followlinks D : ∀ top files,
  Dedup.scan fuel m followlinks D top = Some files →
  ∀ p, p ∈ files → ∃ rel, rel ≠ [] ∧ p = top ++ rel.
Proof.
  induction fuel as [|fuel IH]; intros top files.
  { intros [= <-] p Hp. by apply elem_of_nil in Hp. }
  cbn [Dedup.scan]. destruct (scandir m top) as [names|].
  2:{ intros [= <-] p Hp. by apply elem_of_nil in Hp. }
  destruct (Dedup.prune m D top _) as [kept|] eqn:Epr; [|done].
  destruct (mapM _ kept) as [below|] eqn:Emap; [|done].
  intros [= <-] p [Hp|Hp]%elem_of_app.
  - apply list_elem_of_filter in Hp as [_ Hp].
    apply list_elem_of_fmap in Hp as (n & -> & _). by exists [n].
  - apply elem_of_concat in Hp as (sub & Hsub & Hp).
    apply mapM_Some in Emap.
    destruct (proj1 (list_elem_of_lookup _ _) Hsub) as [i Hi].
    destruct (Forall2_lookup_r _ _ _ _ _ Emap Hi) as (d & Hd & Hrun).
    destruct (followlinks || negb (is_symlink m (top ++ [d]))).
    2:{ injection Hrun as <-. by apply elem_of_nil in Hp. }
    destruct (IH _ _ Hrun p Hp) as (rel & Hrel & ->).
    exists (d :: rel). split; [done|]. by rewrite <- app_assoc.
Qed.

Section DedupRegion.
Context (main : path) (n : string).
Local Abbreviation D := (main ++ [n]).
Local Abbreviation P := (λ k : path, comparable k main).
Local Abbreviation Q := (λ sd : path * path,
  main `prefix_of` sd.1 ∧ ∃ y, y ≠ [] ∧ sd.2 = main ++ y).

Lemma dedup_destination_below m rel p :
  (∃ y, y ≠ [] ∧ D ++ rel = main ++ y) ∧
  (∃ y, y ≠ [] ∧ Dedup.unique_destination m (parent (D ++ rel)) (name p) = main ++ y) ∧
  ∀ k, k `prefix_of` parent (D ++ rel) → comparable k main.
Proof.
  assert (Hpar : parent (D ++ rel) = main ++ parent ([n] ++ rel)).
  { rewrite <- app_assoc. by apply parent_app. }
  split; [|split].
  - exists ([n] ++ rel). split; [done|]. by rewrite <- app_assoc.
  - destruct (unique_destination_form m (parent (D ++ rel)) (name p)) as [x ->].
    rewrite Hpar, <- app_assoc. eexists. split; [|done]. by destruct (parent ([n] ++ rel)).
  - intros k Hk. rewrite Hpar in Hk. by eapply comparable_below.
Qed.

Lemma plan_group_touches dry newest paths : ∀ actions,
  keeps (touches_only P) (Dedup.plan_group dry main D newest paths actions).
Proof.
  assert (Hpure : ∀ A (c : M A), pure_ c → keeps (touches_only P) c).
  { intros A c Hc. apply keeps_pure; [apply touches_only_refl|done]. }
  induction paths as [|p paths IH]; intros actions; cbn [Dedup.plan_group].
  - apply Hpure, pure_ret.
  - case_decide; [apply IH|].
    apply keeps_bind; [apply touches_only_trans|apply Hpure, pure_check|intros rp].
    apply keeps_bind; [apply touches_only_trans|apply Hpure, pure_check|intros rmain].
    apply keeps_bind; [apply touches_only_trans|apply Hpure, pure_check|intros rel].
    apply keeps_bind; [apply touches_only_trans| |intros _].
    { destruct dry; [apply Hpure, pure_ret|].
      apply keeps_call; [apply touches_only_refl|]. intros m m' Hrun.
      apply mkdir_parents_touches in Hrun. eapply touches_only_weaken; [|exact Hrun].
      apply (dedup_destination_below m rel p). }
    apply keeps_bind; [apply touches_only_trans|apply Hpure, pure_ask|intros taken].
    apply keeps_bind; [apply touches_only_trans| |intros dst; apply IH].
    destruct taken; [apply Hpure, pure_ask|apply Hpure, pure_ret].
Qed.

Lemma plan_group_region dry newest paths : ∀ actions m res m',
  (∀ p, p ∈ paths → main `prefix_of` p) →
  Forall Q actions →
  Dedup.plan_group dry main D newest paths actions m = Ok res m' →
  Forall Q res.
Proof.
  induction paths as [|p paths IH]; intros actions m res m' Hp Hact H.
  - by apply ret_Ok in H as [-> _].
  - cbn [Dedup.plan_group] in H.
    assert (Hp' : ∀ q, q ∈ paths → main `prefix_of` q).
    { intros q Hq. apply Hp. by right. }
    case_decide; [by eapply IH|].
    apply bind_Ok in H as (rp & ? & _ & H).
    apply bind_Ok in H as (rmain & ? & _ & H).
    apply bind_Ok in H as (rel & ? & _ & H).
    apply bind_Ok in H as (? & m1 & _ & H).
    apply bind_Ok in H as (taken & ? & [_ ->]%ask_Ok & H).
    apply bind_Ok in H as (dst & m2 & Hdst & H).
    eapply IH; [done| |exact H].
    apply Forall_app. split; [done|]. constructor; [|constructor].
    split; [apply Hp; by left|]. simpl.
    destruct taken.
    + apply ask_Ok in Hdst as [-> _]. apply dedup_destination_below.
    + apply ret_Ok in Hdst as [-> _]. apply (dedup_destination_below m1 rel p).
Qed.

Lemma plan_groups_touches dry by_hash : ∀ actions kept,
  keeps (touches_only P) (Dedup.plan_groups dry main D by_hash actions kept).
Proof.
  assert (Hpure : ∀ A (c : M A), pure_ c → keeps (touches_only P) c).
  { intros A c Hc. apply keeps_pure; [apply touches_only_refl|done]. }
  induction by_hash as [|[h paths] by_hash IH]; intros actions kept;
    cbn [Dedup.plan_groups].
  - apply Hpure, pure_ret.
  - destruct paths as [|p0 [|p1 ps]]; [apply IH..|].
    apply keeps_bind; [apply touches_only_trans|apply Hpure, pure_ask|intros newest].
    apply keeps_bind; [apply touches_only_trans|apply plan_group_touches|intros].
    apply IH.
Qed.

Lemma plan_groups_region dry by_hash : ∀ actions kept m res m',
  (∀ h paths p, (h, paths) ∈ by_hash → p ∈ paths → main `prefix_of` p) →
  Forall Q actions →
  Dedup.plan_groups dry main D by_hash actions kept m = Ok res m' →
  Forall Q res.1.
Proof.
  induction by_hash as [|[h paths] by_hash IH]; intros actions kept m res m' Hp Hact H.
  - by apply ret_Ok in H as [-> _].
  - cbn [Dedup.plan_groups] in H.
    assert (Hp' : ∀ h paths p, (h, paths) ∈ by_hash → p ∈ paths → main `prefix_of` p).
    { intros h' paths' p Hin. apply (Hp h'). by right. }
    destruct paths as [|p0 [|p1 ps]]; [by eapply IH..|].
    apply bind_Ok in H as (newest & ? & _ & H).
    apply bind_Ok in H as (actions' & m1 & Hg & H).
    eapply IH; [done| |exact H].
    eapply plan_group_region; [|done|exact Hg].
    intros p Hin. apply (Hp h (p0 :: p1 :: ps)); [by left|done].
Qed.

Lemma dedup_move_all_touches dry actions :
  Forall Q actions →
  ∀ failed, keeps (touches_only P) (Dedup.move_all dry actions failed).
Proof.
  assert (Hpure : ∀ A (c : M A), pure_ c → keeps (touches_only P) c).
  { intros A c Hc. apply keeps_pure; [apply touches_only_refl|done]. }
  induction actions as [|[src dst] actions IH]; intros HQ failed;
    cbn [Dedup.move_all].
  - apply Hpure, pure_ret.
  - apply Forall_cons in HQ as [(Hs & y & Hy & Hd) HQ]. simpl in Hs, Hd. subst dst.
    destruct dry; [by apply IH|].
    apply keeps_bind; [apply touches_only_trans| |intros; by apply IH].
    apply keeps_try. apply keeps_bind; [apply touches_only_trans| |intros _].
    + apply keeps_call; [apply touches_only_refl|]. intros m m' Hrun.
      apply mkdir_parents_touches in Hrun. eapply touches_only_weaken; [|exact Hrun].
      intros k Hk. rewrite parent_app in Hk by done. by eapply comparable_below.
    + apply keeps_bind; [apply touches_only_trans| |intros _; apply Hpure, pure_ret].
      apply keeps_call; [apply touches_only_refl|]. intros m m' Hrun.
      apply shutil_move_touches in Hrun. eapply touches_only_weaken; [|exact Hrun].
      intros k [Hk|Hk]; right; [by etrans|]. etrans; [|exact Hk]. by exists y.
Qed.

Lemma dedup_remove_loop_touches keep dirs :
  (∀ p, p ∈ dirs → main `prefix_of` p) →
  keeps (touches_only P) (Dedup.remove_loop main keep dirs).
Proof.
  assert (Hpure : ∀ A (c : M A), pure_ c → keeps (touches_only P) c).
  { intros A c Hc. apply keeps_pure; [apply touches_only_refl|done]. }
  induction dirs as [|p dirs IH]; intros Hp; cbn [Dedup.remove_loop].
  - apply Hpure, pure_ret.
  - apply keeps_bind; [apply touches_only_trans| |intros skip].
    { case_decide; [apply Hpure, pure_ret|apply Hpure, pure_check]. }
    apply keeps_bind; [apply touches_only_trans| |intros _].
    2:{ apply IH. intros q Hq. apply Hp. by right. }
    destruct skip; [apply Hpure, pure_ret|].
    apply keeps_try. apply keeps_bind; [apply touches_only_trans| |intros names].
    { apply Hpure, pure_check. }
    case_decide; [|apply Hpure, pure_ret].
    apply keeps_call; [apply touches_only_refl|]. intros m m' Hrun.
    apply os_rmdir_touches in Hrun. eapply touches_only_weaken; [|exact Hrun].
    intros k ->. right. apply Hp. by left.
Qed.

End DedupRegion.
(** X20: pipeline A, run on a store without symbolic links, touches only
    what lies in the main directory and, above it, the directories that
    [mkdir] makes when they are missing; every other entry of the store is
    left exactly as it was, however the run ends. *)
Theorem dedup_stays_in_main_directory a m :
  no_links m →
  ∀ k, ¬ comparable k (Dedup.main_dir a) → final (Dedup.main a m) !! k = m !! k.
Proof.
  intros Hnl.
  set (P := λ k : path, comparable k (Dedup.main_dir a)).
  assert (Hpure : ∀ A (c : M A), pure_ c → keeps (touches_only P) c).
  { intros A c Hc. apply keeps_pure; [apply touches_only_refl|done]. }
  enough (H : keeps (touches_only P) (Dedup.main a)) by by destruct (H m Hnl).
  clear m Hnl. unfold Dedup.main.
  apply keeps_bind_run; [apply touches_only_trans|apply Hpure, pure_check|].
  intros m d ? [Hd ->]%check_Ok Hnl.
  rewrite resolve_no_links in Hd by done. injection Hd as <-.
  revert m Hnl.
  apply (keeps_bind (touches_only P));
    [apply touches_only_trans|apply Hpure, pure_ask|intros ok].
  destruct (negb ok); [apply Hpure, pure_sys_exit|].
  apply keeps_bind; [apply touches_only_trans| |intros _].
  { destruct (Dedup.dry_run a); [apply Hpure, pure_ret|].
    apply keeps_call; [apply touches_only_refl|]. intros m m' Hrun.
    apply mkdir_exist_ok_touches in Hrun. eapply touches_only_weaken; [|exact Hrun].
    intros k ->. right. by eexists. }
  apply keeps_bind_run; [apply touches_only_trans|apply Hpure, pure_check|].
  intros m files ? [Hscan ->]%check_Ok. revert m Hscan.
  enough (Hfiles : (∀ p, p ∈ files → Dedup.main_dir a `prefix_of` p) →
            keeps (touches_only P)
              (by_hash ← ask (λ m, Dedup.group_files m files);
               ak ← Dedup.plan_groups (Dedup.dry_run a) (Dedup.main_dir a)
                      (Dedup.main_dir a ++ [Dedup.duplicates_name]) by_hash [] [];
               failed ← Dedup.move_all (Dedup.dry_run a) ak.1 [];
               (if Dedup.dry_run a then mret ()
                else Dedup.remove_empty_dirs (Dedup.main_dir a)
                       [Dedup.main_dir a ++ [Dedup.duplicates_name]]);;
               mret (Dedup.Report ak.1 ak.2 failed))).
  { intros m Hscan. apply Hfiles. intros p Hp.
    destruct (scan_below _ _ _ _ _ _ Hscan p Hp) as (rel & _ & ->). by eexists. }
  intros Hfiles.
  apply keeps_bind_run; [apply touches_only_trans|apply Hpure, pure_ask|].
  intros m by_hash ? [-> ->]%ask_Ok.
  assert (Hgroups : ∀ h paths p, (h, paths) ∈ Dedup.group_files m files →
            p ∈ paths → Dedup.main_dir a `prefix_of` p).
  { intros h paths p Hin Hp. apply Hfiles.
    destruct (group_files_spec m files) as [Hkeys Hg].
    rewrite <- (group_of_elem _ h paths Hkeys Hin), Hg in Hp.
    by apply list_elem_of_filter in Hp as [_ Hp]. }
  generalize m at 1 3.
  apply (keeps_bind_run (touches_only P));
    [apply touches_only_trans|apply plan_groups_touches|].
  intros m1 ak m2 Hplan.
  apply plan_groups_region in Hplan; [|done|constructor].
  revert m2.
  apply (keeps_bind (touches_only P));
    [apply touches_only_trans|by apply dedup_move_all_touches|intros failed].
  apply keeps_bind; [apply touches_only_trans| |intros _; apply Hpure, pure_ret].
  destruct (Dedup.dry_run a); [apply Hpure, pure_ret|].
  unfold Dedup.remove_empty_dirs.
  apply keeps_bind_run; [apply touches_only_trans|apply Hpure, pure_ask|].
  intros m3 dirs ? [-> ->]%ask_Ok. apply dedup_remove_loop_touches.
  intros p Hp. by apply walk_bottomup_prefix in Hp.
Qed.

Lemma dedup_stays_in_main_directory_witness :
  final (Dedup.main (Dedup.Args ["cur"] false false) dry_fs) !! ["old"; "y"]
  = dry_fs !! ["old"; "y"].
Proof.
  apply dedup_stays_in_main_directory; [apply no_links_check; vm_compute; reflexivity|].
  by intros [[r [=]]|[r [=]]].
Defined.
(** * Moves that go through *)

Lemma is_dir_no_links m p : no_links m → is_dir m p = true ↔ lstat m p = Some Dir.
Proof.
  intros Hnl. unfold is_dir. rewrite stat_no_links by done.
  destruct (lstat m p) as [[| |]|]; naive_solver.
Qed.

Lemma length_parent (p : path) : p ≠ [] → S (length (parent p)) = length p.
Proof.
  intros Hp. rewrite <- (parent_name p Hp) at 2. rewrite length_app. simpl. lia.
Qed.

Lemma not_prefix_parent (p : path) : p ≠ [] → ¬ p `prefix_of` parent p.
Proof.
  intros Hp [r Hr]. apply (f_equal length) in Hr. rewrite length_app in Hr.
  pose proof (length_parent p Hp). lia.
Qed.

(** Without links and in a well-formed store, the chain of [mkdir] calls
    for [p] goes through when nothing but directories is in the way. *)
Lemma mkdir_chain_clear n : ∀ p m,
  length p ≤ n → no_links m → wf m →
  (∀ q, q ≠ [] → q `prefix_of` p → m !! q = None ∨ m !! q = Some Dir) →
  is_Some (mkdir_chain m p (ancestors n p)).
Proof.
  induction n as [|n IH]; intros p m Hlen Hnl Hwf Hway.
  { destruct p; [|simpl in Hlen; lia]. by eexists. }
  destruct (decide (p = [])) as [->|Hp]; [by eexists|].
  assert (Hself : m !! p = None ∨ m !! p = Some Dir) by by apply Hway.
  rewrite ancestors_S.
  destruct (parent p) as [|c0 q0] eqn:Epar.
  - rewrite mkdir_chain_nil, (os_mkdir_no_links m p Hnl Hp), Epar. simpl.
    destruct Hself as [-> | E]; [by eexists|]. rewrite E.
    rewrite (proj2 (is_dir_no_links m p Hnl)); [by eexists|].
    unfold lstat. by destruct p.
  - rewrite <- Epar in *. assert (Hq : parent p ≠ []) by (by rewrite Epar).
    clear c0 q0 Epar.
    rewrite mkdir_chain_cons, (os_mkdir_no_links m p Hnl Hp).
    destruct (lstat m (parent p)) as [[h t| t |]|] eqn:El.
    + exfalso. unfold lstat in El. destruct (parent p) as [|c q] eqn:E; [done|].
      rewrite <- E in *. destruct (Hway (parent p) Hq (parent_prefix p)); congruence.
    + exfalso. unfold lstat in El. destruct (parent p) as [|c q] eqn:E; [done|].
      rewrite <- E in *. destruct (Hway (parent p) Hq (parent_prefix p)); congruence.
    + destruct Hself as [-> | E]; [by eexists|]. rewrite E.
      rewrite (proj2 (is_dir_no_links m p Hnl)); [by eexists|].
      unfold lstat. by destruct p.
    + destruct (IH (parent p) m) as [m1 E1]; [|done|done| |].
      { pose proof (length_parent p Hp). lia. }
      { intros q Hq1 Hq2. apply Hway; [done|]. etrans; [done|apply parent_prefix]. }
      rewrite E1.
      pose proof (mkdir_chain_ok _ _ _ _ E1) as [Hadd Hdir].
      assert (Hnl1 : no_links m1) by by eapply no_links_dir_added.
      assert (Hp1 : m1 !! p = m !! p).
      { apply (mkdir_chain_keys _ _ _ _ Hnl E1).
        intros [E|Hin]%elem_of_cons.
        - apply (not_prefix_parent p Hp). by rewrite <- E.
        - apply ancestors_prefix in Hin. by apply (not_prefix_parent p Hp). }
      unfold mkdir_exist_ok. rewrite (os_mkdir_no_links m1 p Hnl1 Hp).
      apply (is_dir_no_links m1 _ Hnl1) in Hdir. rewrite Hdir, Hp1.
      destruct Hself as [-> | E]; [by eexists|]. rewrite E.
      rewrite (proj2 (is_dir_no_links m1 p Hnl1)); [by eexists|].
      unfold lstat. destruct p; [done|]. by rewrite Hp1.
Qed.
Lemma wf_move_file (m : fs) s d h t :
  wf m → m !! s = Some (File h t) → m !! d = None → d ≠ [] →
  lstat m (parent d) = Some Dir →
  wf (<[d := File h t]> (delete s m)).
Proof.
  intros Hwf Hs Hd Hdne Hpar.
  assert (Hkeep : ∀ q, lstat m q = Some Dir →
            lstat (<[d := File h t]> (delete s m)) q = Some Dir).
  { intros q. unfold lstat. destruct q as [|c q]; [done|]. intros Hq.
    rewrite lookup_insert_ne by congruence. rewrite lookup_delete_ne by congruence. done. }
  intros k x. destruct (decide (k = d)) as [->|Hk].
  - intros _. by apply Hkeep.
  - rewrite lookup_insert_ne by done. destruct (decide (k = s)) as [->|Hk'].
    + by rewrite lookup_delete_eq.
    + rewrite lookup_delete_ne by done. intros Hx. apply Hkeep. by eapply Hwf.
Qed.

(** Without links, the move of a regular file to a free place in a
    directory is a rename. *)
Lemma shutil_move_file m s d h t :
  no_links m → m !! s = Some (File h t) → s ≠ [] → m !! d = None → d ≠ [] →
  lstat m (parent d) = Some Dir →
  shutil_move m s d = Some (<[d := File h t]> (delete s m)).
Proof.
  intros Hnl Hs Hsne Hd Hdne Hpar. unfold shutil_move.
  assert (is_dir m d = false) as ->.
  { unfold is_dir. rewrite stat_no_links by done. unfold lstat.
    destruct d; [done|]. by rewrite Hd. }
  unfold os_rename. destruct s as [|s0 s1]; [done|]. destruct d as [|d0 d1]; [done|].
  rewrite !resolve_no_links, !parent_name by done. rewrite Hs, Hpar.
  rewrite decide_False by congruence. by rewrite Hd.
Qed.

Section MoveAll.
Context (m0 : fs) (all : list (path * path)).
Hypothesis Hsrc : ∀ s d, (s, d) ∈ all → s ≠ [] ∧ file_at m0 s.
Hypothesis Hdst : ∀ s d, (s, d) ∈ all → d ≠ [] ∧ m0 !! d = None ∧ clear_way m0 d.
Hypothesis Hnds : NoDup all.*1.
Hypothesis Hndd : NoDup all.*2.
Hypothesis Hsep : ∀ s d s' d', (s, d) ∈ all → (s', d') ∈ all → d `prefix_of` d' → d = d'.

Lemma src_not_dst s d s' d' : (s, d) ∈ all → (s', d') ∈ all → s ≠ d'.
Proof.
  intros H1 H2 ->. destruct (Hsrc _ _ H1) as (_ & h & t & E).
  destruct (Hdst _ _ H2) as (_ & E' & _). congruence.
Qed.

Lemma src_not_above_dst s d s' d' :
  (s, d) ∈ all → (s', d') ∈ all → s `prefix_of` d' → False.
Proof.
  intros H1 H2 Hpre. destruct (Hsrc _ _ H1) as (Hs & h & t & E).
  destruct (Hdst _ _ H2) as (_ & _ & Hway).
  destruct (Hway s Hs Hpre) as [E'|E']; [by eapply src_not_dst|congruence..].
Qed.

(** The moving loop of pipeline B moves every planned file when the plan
    is in order: the sources are distinct regular files, the destinations
    are distinct free places, none above another, with nothing but
    directories above them. *)
Lemma move_all_goes_through : ∀ todo done m moved,
  all = done ++ todo → no_links m → wf m →
  (∀ s d, (s, d) ∈ todo → m !! s = m0 !! s ∧ m !! d = None ∧ clear_way m d) →
  (∀ s d, (s, d) ∈ done → m !! d = m0 !! s ∧ m !! s = None) →
  ∃ m', Mover.move_all todo moved m = Ok (moved + length todo) m' ∧
        no_links m' ∧ wf m' ∧
        ∀ s d, (s, d) ∈ all → m' !! d = m0 !! s ∧ m' !! s = None.
Proof.
  induction todo as [|[s d] todo IH]; intros done m moved Hall Hnl Hwf Htodo Hdone.
  { exists m. simpl. rewrite Nat.add_0_r. split; [done|]. split; [done|]. split; [done|].
    rewrite app_nil_r in Hall. subst done. done. }
  assert (Hin : (s, d) ∈ all) by (rewrite Hall, elem_of_app; right; by left).
  assert (Hin_todo : ∀ s' d', (s', d') ∈ todo → (s', d') ∈ all).
  { intros s' d' H. rewrite Hall, elem_of_app. right. by right. }
  assert (Hin_done : ∀ s' d', (s', d') ∈ done → (s', d') ∈ all).
  { intros s' d' H. rewrite Hall, elem_of_app. by left. }
  destruct (Hsrc _ _ Hin) as (Hsne & h & t & Hs0).
  destruct (Hdst _ _ Hin) as (Hdne & Hd0 & Hway0).
  destruct (Htodo s d) as (Hs & Hd & Hway); [by left|]. rewrite Hs0 in Hs.
  assert (Hnds' : (s ∉ done.*1) ∧ (s ∉ todo.*1)).
  { rewrite Hall, fmap_app in Hnds. apply NoDup_app in Hnds as (_ & H1 & H2).
    simpl in H2. apply NoDup_cons in H2 as [H2 _]. split; [|done].
    intros H. apply (H1 s H). by left. }
  assert (Hndd' : (d ∉ done.*2) ∧ (d ∉ todo.*2)).
  { rewrite Hall, fmap_app in Hndd. apply NoDup_app in Hndd as (_ & H1 & H2).
    simpl in H2. apply NoDup_cons in H2 as [H2 _]. split; [|done].
    intros H. apply (H1 d H). by left. }
  destruct Hnds' as [Hs_done Hs_todo]. destruct Hndd' as [Hd_done Hd_todo].
  (* the parents of the destination *)
  destruct (mkdir_chain_clear (length (parent d)) (parent d) m) as [m1 Hmk];
    [done|done|done| |].
  { intros q Hq Hpre. apply Hway; [done|by etrans; [|apply parent_prefix]|].
    intros ->. by apply (not_prefix_parent d Hdne). }
  change (mkdir_parents m (parent d) = Some m1) in Hmk.
  pose proof (mkdir_parents_ok _ _ _ Hmk) as [Hadd Hdir].
  assert (Hnl1 : no_links m1) by by eapply no_links_dir_added.
  assert (Hwf1 : wf m1) by by eapply wf_mkdir_chain.
  destruct (mkdir_parents_touches _ _ _ Hmk Hnl) as [_ Hsame].
  apply (is_dir_no_links m1 _ Hnl1) in Hdir.
  assert (Hsome : ∀ k x, m !! k = Some x → m1 !! k = Some x).
  { intros k x E. destruct (Hadd k) as [E'|[E' _]]; congruence. }
  assert (Hd1 : m1 !! d = None).
  { rewrite Hsame; [done|]. by apply not_prefix_parent. }
  pose proof (Hsome _ _ Hs) as Hs1.
  (* the move *)
  pose proof (shutil_move_file m1 s d h t Hnl1 Hs1 Hsne Hd1 Hdne Hdir) as Hmv.
  set (m2 := <[d := File h t]> (delete s m1)) in *.
  assert (Hsd : s ≠ d) by (intros ->; congruence).
  assert (Hm2 : ∀ k, k ≠ s → k ≠ d → m2 !! k = m1 !! k).
  { intros k H1 H2. unfold m2. by rewrite lookup_insert_ne, lookup_delete_ne. }
  destruct (IH (done ++ [(s, d)]) m2 (S moved)) as (m' & Hrun & Hnl' & Hwf' & Hfin).
  - by rewrite <- app_assoc.
  - apply no_links_insert; [by apply no_links_delete|done].
  - by apply wf_move_file.
  - intros s' d' H. pose proof (Hin_todo _ _ H) as Hin'.
    destruct (Htodo s' d') as (Hs' & Hd' & Hway'); [by right|].
    destruct (Hsrc _ _ Hin') as (_ & h' & t' & Hs0').
    assert (s' ≠ s).
    { intros ->. apply Hs_todo. apply list_elem_of_fmap. by exists (s, d'). }
    assert (d' ≠ d).
    { intros ->. apply Hd_todo. apply list_elem_of_fmap. by exists (s', d). }
    assert (s' ≠ d) by by eapply src_not_dst.
    assert (s ≠ d') by by eapply (src_not_dst s d s' d').
    split; [|split].
    + rewrite Hm2 by done. rewrite Hs0' in Hs'. rewrite (Hsome _ _ Hs'). congruence.
    + rewrite Hm2 by done. rewrite Hsame; [done|].
      intros Hpre. assert (d' = d); [|done].
      apply (Hsep s' d' s d); [done..|]. etrans; [done|apply parent_prefix].
    + intros q Hq Hpre Hne. destruct (decide (q = s)) as [->|Hqs].
      { left. unfold m2. rewrite lookup_insert_ne by done. apply lookup_delete_eq. }
      assert (q ≠ d).
      { intros ->. assert (d = d'); [|done]. by apply (Hsep s d s' d'). }
      rewrite Hm2 by done. destruct (Hadd q) as [->|[_ ->]]; [by apply Hway'|by right].
  - intros s' d' [H|H]%elem_of_app.
    + pose proof (Hin_done _ _ H) as Hin'. destruct (Hdone _ _ H) as [Hd' Hs'].
      destruct (Hsrc _ _ Hin') as (Hsne' & h' & t' & Hs0').
      assert (d' ≠ d).
      { intros ->. apply Hd_done. apply list_elem_of_fmap. by exists (s', d). }
      assert (s' ≠ s).
      { intros ->. apply Hs_done. apply list_elem_of_fmap. by exists (s, d'). }
      assert (s' ≠ d) by by eapply src_not_dst.
      assert (s ≠ d') by by eapply (src_not_dst s d s' d').
      split.
      * rewrite Hm2 by done. rewrite Hs0' in Hd'. by rewrite (Hsome _ _ Hd'), Hs0'.
      * rewrite Hm2 by done. rewrite Hsame; [done|]. intros Hpre.
        apply (src_not_above_dst s' d' s d); [done..|]. etrans; [done|apply parent_prefix].
    + apply list_elem_of_singleton in H as [= -> ->]. split.
      * unfold m2. by rewrite lookup_insert_eq.
      * unfold m2. rewrite lookup_insert_ne by done. apply lookup_delete_eq.
  - exists m'. split; [|done]. cbn [Mover.move_all].
    unfold mbind at 1, M_bind at 1, try_except, Mover.ensure_parent_dir.
    unfold mbind at 1, M_bind at 1, call at 1. rewrite Hmk.
    unfold mbind at 1, M_bind at 1, call at 1. rewrite Hmv.
    unfold mret, M_ret. rewrite Hrun. simpl. f_equal. lia.
Qed.

End MoveAll.
(** ** The plan on a store without links *)

Lemma rglob_no_links m root p :
  no_links m → p ∈ rglob m root →
  ∃ c r, p = root ++ c :: r ∧ is_Some (m !! p) ∧ descends m root (c :: r) = true.
Proof.
  intros Hnl. unfold rglob. rewrite resolve_no_links by done.
  destruct (lstat m root) as [[| |]|]; try by intros ?%elem_of_nil.
  intros ([k x] & Hin & H)%list_elem_of_omap. cbn [fst snd] in H.
  destruct (relative_to k root) as [[|c r]|] eqn:E; try done.
  destruct (descends m root (c :: r)) eqn:Ed; [|done]. injection H as <-.
  apply relative_to_Some in E as ->. apply elem_of_map_to_list in Hin.
  exists c, r. by split; [|split; [eexists|]].
Qed.

Lemma descends_dirs m : ∀ rel d pre suf,
  descends m d rel = true → rel = pre ++ suf → pre ≠ [] → suf ≠ [] →
  m !! (d ++ pre) = Some Dir.
Proof.
  induction rel as [|c rel IH]; intros d pre suf Hd E Hpre Hsuf.
  { by destruct pre. }
  destruct pre as [|c' pre]; [done|]. injection E as <- E.
  destruct rel as [|c2 rel]; [by destruct pre, suf|].
  cbn [descends] in Hd.
  destruct (m !! (d ++ [c])) as [[| |]|] eqn:Ec; try done.
  destruct pre as [|c3 pre]; [done|].
  rewrite (cons_middle c d), app_assoc. by apply (IH _ _ suf).
Qed.

Lemma wf_above m : wf m → ∀ r p,
  is_Some (lstat m (p ++ r)) → r ≠ [] → lstat m p = Some Dir.
Proof.
  intros Hwf r. induction r as [|c r IH] using rev_ind; intros p [x Hx] Hr; [done|].
  rewrite app_assoc, lstat_snoc in Hx. apply Hwf in Hx. rewrite parent_snoc in Hx.
  destruct (decide (r = [])) as [->|Hne]; [by rewrite app_nil_r in Hx|].
  apply IH; [by eexists|done].
Qed.

Section FreshPlan.
Context (m : fs) (main_hashes : gset string).
Context (older_root dest_root symlinks_dest : path).
Hypothesis Hnl : no_links m.
Hypothesis Hwf : wf m.
Hypothesis Hdest : is_dir m dest_root = true.
Hypothesis Hfresh : ∀ rel, rel ≠ [] → m !! (dest_root ++ rel) = None.

Local Abbreviation pl :=
  (Mover.plan_moves m main_hashes older_root dest_root symlinks_dest).

Lemma fresh_plan_move s d :
  (s, d) ∈ Mover.moves_regular pl →
  ∃ rel, rel ≠ [] ∧ s = older_root ++ rel ∧ d = dest_root ++ rel ∧
         file_at m s ∧ descends m older_root rel = true.
Proof.
  intros Hin. unfold Mover.plan_moves in Hin.
  apply (proj1 (plan_fold_regular _ _ _ _ _ _ _ _)) in Hin
    as [Hin|(p & Hp & Hsrc & _ & Hfile & h & rel & _ & _ & Hr & Hdst)];
    [by apply elem_of_nil in Hin|].
  simpl in Hsrc, Hdst. subst s.
  apply (rglob_no_links m _ _ Hnl) in Hp as (c & r & -> & _ & Hdesc).
  rewrite relative_to_app in Hr. injection Hr as <-.
  exists (c :: r). split; [done|]. split; [done|]. split; [|split; [|done]].
  - rewrite Hdst. apply unique_destination_path_cases.
    unfold exists_. rewrite stat_no_links by done. unfold lstat.
    destruct (dest_root ++ c :: r) eqn:E; [by destruct dest_root|].
    rewrite <- E. by rewrite Hfresh.
  - unfold is_file in Hfile. rewrite stat_no_links in Hfile by done.
    unfold lstat in Hfile. destruct (older_root ++ c :: r) eqn:E; [by destruct older_root|].
    rewrite <- E in *. unfold file_at.
    destruct (m !! (older_root ++ c :: r)) as [[h' t| |]|]; try done. by exists h', t.
Qed.

Lemma fresh_plan_sources s d :
  (s, d) ∈ Mover.moves_regular pl → s ≠ [] ∧ file_at m s.
Proof.
  intros (rel & Hrel & -> & _ & Hf & _)%fresh_plan_move. split; [|done].
  by destruct older_root, rel.
Qed.

Lemma fresh_plan_destinations s d :
  (s, d) ∈ Mover.moves_regular pl → d ≠ [] ∧ m !! d = None ∧ clear_way m d.
Proof.
  intros (rel & Hrel & -> & -> & _ & _)%fresh_plan_move.
  split; [by destruct dest_root, rel|]. split; [by apply Hfresh|].
  intros q Hq Hpre Hne.
  destruct (prefix_weak_total q dest_root (dest_root ++ rel) Hpre) as [[r Hr]|[r ->]];
    [by exists rel| |].
  - right. apply (is_dir_no_links m _ Hnl) in Hdest.
    destruct (decide (r = [])) as [->|Hr'].
    + rewrite app_nil_r in Hr. subst q. unfold lstat in Hdest. by destruct dest_root.
    + rewrite Hr in Hdest. apply (wf_above m Hwf r q) in Hr'; [|by eexists].
      unfold lstat in Hr'. by destruct q.
  - destruct (decide (r = [])) as [->|Hr']; [|left; by apply Hfresh].
    right. rewrite app_nil_r in *. apply (is_dir_no_links m _ Hnl) in Hdest.
    unfold lstat in Hdest. by destruct dest_root.
Qed.

Lemma fresh_plan_separate s d s' d' :
  (s, d) ∈ Mover.moves_regular pl → (s', d') ∈ Mover.moves_regular pl →
  d `prefix_of` d' → d = d'.
Proof.
  intros (rel & Hrel & -> & -> & (h & t & Hf) & _)%fresh_plan_move
         (rel' & Hrel' & -> & -> & _ & Hdesc)%fresh_plan_move [r Hr].
  rewrite <- app_assoc in Hr. apply app_inv_head in Hr. subst rel'.
  destruct (decide (r = [])) as [->|Hne]; [by rewrite app_nil_r|].
  rewrite (descends_dirs m _ _ rel r Hdesc eq_refl Hrel Hne) in Hf. done.
Qed.

Lemma fresh_plan_NoDup :
  NoDup (Mover.moves_regular pl).*1 ∧ NoDup (Mover.moves_regular pl).*2.
Proof.
  assert (H1 : NoDup (Mover.moves_regular pl).*1).
  { unfold Mover.plan_moves.
    destruct (plan_fold_filter m main_hashes older_root dest_root symlinks_dest
                (Mover.iter_paths m older_root) (Mover.Plan [] [] 0))
      as (_ & H2 & _); [apply rglob_relative|].
    rewrite H2. apply NoDup_filter, NoDup_rglob. }
  split; [done|]. apply NoDup_snd_of_fst; [done|].
  intros [s1 d1] [s2 d2] Ha Hb. simpl. intros <-.
  apply fresh_plan_move in Ha as (r1 & _ & -> & E1 & _), Hb as (r2 & _ & -> & E2 & _).
  rewrite E1 in E2. apply app_inv_head in E2. by subst.
Qed.

Lemma fresh_plan_no_link_moves : Mover.moves_syms pl = [].
Proof.
  unfold Mover.plan_moves.
  destruct (plan_fold_filter m main_hashes older_root dest_root symlinks_dest
              (Mover.iter_paths m older_root) (Mover.Plan [] [] 0))
    as (H1 & _ & _); [apply rglob_relative|].
  simpl in H1. apply (fmap_nil_inv fst). rewrite H1. clear H1.
  induction (Mover.iter_paths m older_root) as [|p l IH]; [done|].
  rewrite filter_cons, is_symlink_no_links by done. rewrite decide_False by done.
  exact IH.
Qed.

End FreshPlan.
Lemma lstat_nonempty m (p : path) : p ≠ [] → lstat m p = m !! p.
Proof. by destruct p. Qed.

Lemma empty_dir_fresh m d :
  wf m → listdir m d = [] → ∀ rel, rel ≠ [] → m !! (d ++ rel) = None.
Proof.
  intros Hwf Hempty rel Hrel. destruct rel as [|c r]; [done|].
  pose proof (proj1 (listdir_empty m d) Hempty c) as Hc.
  destruct (m !! (d ++ c :: r)) as [x|] eqn:E; [|done]. exfalso.
  destruct (decide (r = [])) as [->|Hr]; [congruence|].
  assert (Hl : lstat m (d ++ [c]) = Some Dir).
  { apply (wf_above m Hwf r); [|done]. rewrite <- app_assoc. simpl.
    exists x. rewrite lstat_nonempty; [done|]. by destruct d. }
  rewrite lstat_snoc in Hl. congruence.
Qed.

(** X21: an apply run of pipeline B that returns, on a well-formed store
    without links in which both destination roots are directories and
    the regular destination root is empty, has moved every
    planned file: the plan is the plan of the store the run found, every
    planned move went through, each planned source [older/rel] is gone
    from where it was, and its entry is at [dest/rel]. *)
Theorem mover_apply_moves_what_it_planned a m s m' :
  no_links m → wf m →
  is_dir m (Mover.dest_root a) = true → is_dir m (Mover.symlinks_dest a) = true →
  listdir m (Mover.dest_root a) = [] →
  Mover.apply a = true →
  Mover.main a m = Ok s m' →
  Mover.planned s =
    Mover.plan_moves m (Mover.build_hash_set m (Mover.main_root a))
      (Mover.older_root a) (Mover.dest_root a) (Mover.symlinks_dest a) ∧
  Mover.moved_regular s = length (Mover.moves_regular (Mover.planned s)) ∧
  Mover.moves_syms (Mover.planned s) = [] ∧
  ∀ src dst, (src, dst) ∈ Mover.moves_regular (Mover.planned s) →
    (∃ rel, rel ≠ [] ∧ src = Mover.older_root a ++ rel ∧ dst = Mover.dest_root a ++ rel) ∧
    file_at m src ∧ m' !! dst = m !! src ∧ m' !! src = None.
Proof.
  intros Hnl Hwf Hdest Hsym Hempty Happly H.
  pose proof (empty_dir_fresh m _ Hwf Hempty) as Hfresh. unfold Mover.main in H.
  apply bind_Ok in H as (? & m0 & H0 & H).
  destruct (validate_roots_cases [Mover.main_root a; Mover.older_root a] m)
    as [E|[E _]]; rewrite E in H0; [|done]. injection H0 as _ <-.
  apply bind_Ok in H as (? & m1 & H1%call_Ok & H).
  rewrite mkdir_parents_there in H1 by done. injection H1 as <-.
  apply bind_Ok in H as (? & m1 & H1%call_Ok & H).
  rewrite mkdir_parents_there in H1 by done. injection H1 as <-.
  apply bind_Ok in H as (rm & ? & [_ ->]%check_Ok & H).
  apply bind_Ok in H as (ro & ? & [_ ->]%check_Ok & H).
  case_decide; [done|].
  apply bind_Ok in H as (? & m1 & H1 & H).
  destruct (refuse_inside_cases (Mover.main_root a)
              [Mover.dest_root a; Mover.symlinks_dest a] m) as [E'|[E' _]];
    rewrite E' in H1; [|done]. injection H1 as _ <-.
  apply bind_Ok in H as (main_hashes & ? & [-> ->]%ask_Ok & H).
  apply bind_Ok in H as (pl & ? & [-> ->]%ask_Ok & H).
  set (pl := Mover.plan_moves m (Mover.build_hash_set m (Mover.main_root a))
               (Mover.older_root a) (Mover.dest_root a) (Mover.symlinks_dest a)) in *.
  rewrite Happly in H. cbn [negb] in H.
  apply bind_Ok in H as (moved_r & m1 & Hmove & H).
  destruct (move_all_goes_through m (Mover.moves_regular pl)) with
    (todo := Mover.moves_regular pl) (done := @nil (path * path)) (m := m) (moved := 0)
    as (mn & Hrun & Hnln & Hwfn & Hfin).
  { by apply fresh_plan_sources. }
  { by apply fresh_plan_destinations. }
  { by apply fresh_plan_NoDup. }
  { by apply fresh_plan_NoDup. }
  { by apply fresh_plan_separate. }
  { done. } { done. } { done. }
  { intros src dst Hin. split; [done|].
    apply fresh_plan_destinations in Hin; [|done..]. by destruct Hin as (_ & ? & ?). }
  { by intros src dst ?%elem_of_nil. }
  rewrite Hrun in Hmove. injection Hmove as <- <-.
  apply bind_Ok in H as (moved_s & m2 & Hmove & H).
  assert (Hnosym : Mover.moves_syms pl = []) by by apply fresh_plan_no_link_moves.
  rewrite Hnosym in Hmove.
  apply ret_Ok in Hmove as [-> ->].
  apply bind_Ok in H as (removed & m3 & Hrm & H).
  apply ret_Ok in H as [-> ->].
  assert (Hdel : dir_deleted mn m3).
  { destruct (Mover.keep_empty_dirs a).
    - apply ret_Ok in Hrm as [_ ->]. apply dir_deleted_refl.
    - unfold Mover.remove_empty_dirs in Hrm.
      apply bind_Ok in Hrm as (dirs & ? & [_ ->]%ask_Ok & Hrm).
      by apply mover_remove_loop_count in Hrm as [Hrm _]. }
  cbn [Mover.planned Mover.moved_regular]. split; [done|]. split; [done|].
  split; [done|].
  intros src dst Hin.
  pose proof Hin as Hmv. apply fresh_plan_move in Hmv; [|done..].
  destruct Hmv as (rel & Hrel & -> & -> & Hfile & _).
  destruct (Hfin _ _ Hin) as [Hd Hs]. destruct Hfile as (h & t & Hfile).
  split; [by exists rel|]. split; [by exists h, t|].
  rewrite Hfile in *. split.
  - destruct (Hdel (Mover.dest_root a ++ rel)) as [->|[E1 _]]; [done|congruence].
  - destruct (Hdel (Mover.older_root a ++ rel)) as [->|[E1 _]]; [done|congruence].
Qed.

Lemma mover_apply_moves_what_it_planned_witness :
  ∃ s m', Mover.main mover_apply_args apply_fs = Ok s m' ∧
    m' !! ["dst"; "sub"; "z"] = apply_fs !! ["old"; "sub"; "z"] ∧
    m' !! ["old"; "sub"; "z"] = None.
Proof.
  pose (s0 := default (Mover.Summary (Mover.Plan [] [] 0) 0 0 [])
                (value (Mover.main mover_apply_args apply_fs))).
  pose (m1 := final (Mover.main mover_apply_args apply_fs)).
  assert (E : Mover.main mover_apply_args apply_fs = Ok s0 m1)
    by (vm_compute; reflexivity).
  exists s0, m1. split; [exact E|].
  destruct (mover_apply_moves_what_it_planned mover_apply_args apply_fs s0 m1)
    as (Hpl & _ & _ & Hmoves).
  - apply no_links_check. vm_compute. reflexivity.
  - apply wfb_wf. vm_compute. reflexivity.
  - vm_compute. reflexivity.
  - vm_compute. reflexivity.
  - vm_compute. reflexivity.
  - reflexivity.
  - exact E.
  - destruct (Hmoves ["old"; "sub"; "z"] ["dst"; "sub"; "z"]) as (_ & _ & H1 & H2).
    + rewrite Hpl.
      assert (Ep : Mover.moves_regular
                (Mover.plan_moves apply_fs
                   (Mover.build_hash_set apply_fs (Mover.main_root mover_apply_args))
                   (Mover.older_root mover_apply_args) (Mover.dest_root mover_apply_args)
                   (Mover.symlinks_dest mover_apply_args))
              = [(["old"; "sub"; "z"], ["dst"; "sub"; "z"])])
        by (vm_compute; reflexivity).
      rewrite Ep. by left.
    + split; [exact H1|exact H2].
Defined.
(** * Files that stay where they are *)

Lemma file_stays_refl k m : file_stays k m m.
Proof. by intros Hnl. Qed.

Lemma file_stays_trans k m1 m2 m3 :
  file_stays k m1 m2 → file_stays k m2 m3 → file_stays k m1 m3.
Proof.
  intros H1 H2 Hnl. destruct (H1 Hnl) as [Hnl2 H12]. destruct (H2 Hnl2) as [Hnl3 H23].
  split; [done|]. intros Hf. specialize (H12 Hf). rewrite <- H12. apply H23.
  destruct Hf as (h & t & Hf). exists h, t. congruence.
Qed.

Lemma file_stays_dir_added k m m' : dir_added m m' → file_stays k m m'.
Proof.
  intros Hadd Hnl. split; [by eapply no_links_dir_added|].
  intros (h & t & Hf). destruct (Hadd k) as [E|[E _]]; [done|congruence].
Qed.

Lemma file_stays_dir_deleted k m m' : dir_deleted m m' → file_stays k m m'.
Proof.
  intros Hdel Hnl. split; [by eapply no_links_dir_deleted|].
  intros (h & t & Hf). destruct (Hdel k) as [E|[E _]]; [done|congruence].
Qed.

Lemma file_stays_touches (P : path → Prop) k m m' :
  touches_only P m m' → ¬ P k → file_stays k m m'.
Proof.
  intros H HP Hnl. destruct (H Hnl) as [Hnl' Hsame]. split; [done|].
  intros _. by apply Hsame.
Qed.

Lemma keeps_file_stays_pure {A} k (c : M A) : pure_ c → keeps (file_stays k) c.
Proof. intros Hc. apply keeps_pure; [apply file_stays_refl|done]. Qed.

Lemma keeps_file_stays_mkdir k p :
  keeps (file_stays k) (call (λ m, mkdir_parents m p)).
Proof.
  apply keeps_call; [apply file_stays_refl|]. intros m m' Hrun.
  apply file_stays_dir_added. by apply mkdir_parents_ok in Hrun as [? _].
Qed.

Lemma keeps_file_stays_move k src dst :
  ¬ src `prefix_of` k → ¬ dst `prefix_of` k →
  keeps (file_stays k) (call (λ m, shutil_move m src dst)).
Proof.
  intros Hs Hd. apply keeps_call; [apply file_stays_refl|]. intros m m' Hrun.
  apply shutil_move_touches in Hrun. eapply file_stays_touches; [exact Hrun|].
  by intros [?|?].
Qed.

Lemma keeps_file_stays_rmdir k p :
  keeps (file_stays k) (call (λ m, os_rmdir m p)).
Proof.
  apply keeps_call; [apply file_stays_refl|]. intros m m' Hrun.
  apply os_rmdir_Some in Hrun as (key & _ & Hkey & _ & ->).
  by apply file_stays_dir_deleted, dir_deleted_delete.
Qed.

Lemma mover_move_all_stays k moves :
  (∀ s d, (s, d) ∈ moves → ¬ s `prefix_of` k ∧ ¬ d `prefix_of` k) →
  ∀ moved, keeps (file_stays k) (Mover.move_all moves moved).
Proof.
  induction moves as [|[src dst] moves IH]; intros Hk moved; cbn [Mover.move_all].
  - apply keeps_file_stays_pure, pure_ret.
  - destruct (Hk src dst) as [Hs Hd]; [by left|].
    apply keeps_bind; [apply file_stays_trans| |intros; apply IH].
    2:{ intros s d Hin. apply Hk. by right. }
    apply keeps_try. apply keeps_bind; [apply file_stays_trans| |intros _].
    { apply keeps_file_stays_mkdir. }
    apply keeps_bind; [apply file_stays_trans| |intros _].
    { by apply keeps_file_stays_move. }
    apply keeps_file_stays_pure, pure_ret.
Qed.

Lemma mover_remove_empty_dirs_stays k root :
  keeps (file_stays k) (Mover.remove_empty_dirs root).
Proof.
  unfold Mover.remove_empty_dirs.
  apply keeps_bind; [apply file_stays_trans|apply keeps_file_stays_pure, pure_ask|].
  intros dirs. generalize (@nil path).
  induction dirs as [|p dirs IH]; intros removed; cbn [Mover.remove_loop].
  - apply keeps_file_stays_pure, pure_ret.
  - apply keeps_bind; [apply file_stays_trans|apply keeps_file_stays_pure, pure_check|].
    intros rp.
    apply keeps_bind; [apply file_stays_trans|apply keeps_file_stays_pure, pure_check|].
    intros rr. case_decide; [apply IH|].
    apply keeps_bind; [apply file_stays_trans| |intros; apply IH].
    apply keeps_try.
    apply keeps_bind; [apply file_stays_trans|apply keeps_file_stays_pure, pure_check|].
    intros names. case_decide; [|apply keeps_file_stays_pure, pure_ret].
    apply keeps_bind; [apply file_stays_trans|apply keeps_file_stays_rmdir|intros _].
    apply keeps_file_stays_pure, pure_ret.
Qed.

(** A regular file that is no source of the plan lies neither at or below
    a source nor at or below a destination of the plan. *)
Lemma planned_moves_miss m main_hashes older_root dest_root symlinks_dest k :
  no_links m → wf m → file_at m k →
  let pl := Mover.plan_moves m main_hashes older_root dest_root symlinks_dest in
  k ∉ (Mover.moves_regular pl).*1 →
  ∀ s d, (s, d) ∈ Mover.moves_regular pl → ¬ s `prefix_of` k ∧ ¬ d `prefix_of` k.
Proof.
  intros Hnl Hwf (h & t & Hk) pl Hnot s d Hin.
  assert (Hkl : ∀ r p, k = p ++ r → r ≠ [] → lstat m p = Some Dir).
  { intros r p -> Hr. apply (wf_above m Hwf r); [|done]. exists (File h t).
    rewrite lstat_nonempty; [done|]. by destruct p, r. }
  pose proof Hin as Hin'. unfold pl, Mover.plan_moves in Hin'.
  apply (proj1 (plan_fold_regular _ _ _ _ _ _ _ _)) in Hin'
    as [Hin'|(p & Hp & Hsrc & _ & Hfile & h' & rel & _ & _ & Hr & Hdst)];
    [by apply elem_of_nil in Hin'|].
  simpl in Hsrc, Hdst. subst s. split.
  - intros [r ->]. destruct (decide (r = [])) as [->|Hr'].
    + rewrite app_nil_r in *. apply Hnot. apply list_elem_of_fmap. by exists (p, d).
    + specialize (Hkl r p eq_refl Hr'). unfold is_file in Hfile.
      rewrite stat_no_links, Hkl in Hfile by done. done.
  - intros [r ->].
    pose proof (unique_destination_path_free m (dest_root ++ rel)) as Hfree.
    rewrite <- Hdst in Hfree. unfold exists_ in Hfree.
    rewrite stat_no_links in Hfree by done.
    destruct (decide (r = [])) as [->|Hr'].
    + rewrite app_nil_r in *. rewrite lstat_nonempty, Hk in Hfree; [done|].
      intros ->. unfold lstat in Hfree. done.
    + by rewrite (Hkl r d eq_refl Hr') in Hfree.
Qed.
Lemma keeps_Ok {A : Type} (R : fs → fs → Prop) (c : M A) m a m' :
  keeps R c → c m = Ok a m' → R m m'.
Proof. intros H E. specialize (H m). by rewrite E in H. Qed.

(** X22: a run of pipeline B that returns, on a well-formed store without
    links, changes no regular file but the sources of its plan: every
    regular file of the store that the plan does not list as a source, in
    the older tree or anywhere else, is afterwards where it was and as it
    was.  In particular a file of the older tree whose content is in the
    current tree is left in place. *)
Theorem mover_changes_planned_files_only a m s m' :
  no_links m → wf m → Mover.main a m = Ok s m' →
  ∀ k, file_at m k → k ∉ (Mover.moves_regular (Mover.planned s)).*1 →
       m' !! k = m !! k.
Proof.
  intros Hnl Hwf H k Hk Hnot. unfold Mover.main in H.
  apply bind_Ok in H as (? & m0 & H0 & H).
  destruct (validate_roots_cases [Mover.main_root a; Mover.older_root a] m)
    as [E|[E _]]; rewrite E in H0; [|done]. injection H0 as _ <-.
  apply bind_Ok in H as (? & m1 & H1%call_Ok & H).
  apply bind_Ok in H as (? & m2 & H2%call_Ok & H).
  assert (Hadd : dir_added m m2).
  { apply mkdir_parents_ok in H1 as [H1 _], H2 as [H2 _]. by eapply dir_added_trans. }
  assert (Hwf2 : wf m2).
  { eapply wf_mkdir_chain; [|exact H2]. by eapply wf_mkdir_chain. }
  assert (Hnl2 : no_links m2) by by eapply no_links_dir_added.
  destruct (file_stays_dir_added k m m2 Hadd Hnl) as [_ Hk2]. specialize (Hk2 Hk).
  assert (Hf2 : file_at m2 k).
  { destruct Hk as (h & t & Hk). exists h, t. congruence. }
  rewrite <- Hk2. clear Hk2 Hk Hadd H1 H2 Hnl Hwf E m m1.
  apply bind_Ok in H as (rm & ? & [_ ->]%check_Ok & H).
  apply bind_Ok in H as (ro & ? & [_ ->]%check_Ok & H).
  case_decide; [done|].
  apply bind_Ok in H as (? & m1 & H1 & H).
  destruct (refuse_inside_cases (Mover.main_root a)
              [Mover.dest_root a; Mover.symlinks_dest a] m2) as [E'|[E' _]];
    rewrite E' in H1; [|done]. injection H1 as _ <-.
  apply bind_Ok in H as (main_hashes & ? & [-> ->]%ask_Ok & H).
  apply bind_Ok in H as (pl & ? & [-> ->]%ask_Ok & H).
  set (pl := Mover.plan_moves m2 (Mover.build_hash_set m2 (Mover.main_root a))
               (Mover.older_root a) (Mover.dest_root a) (Mover.symlinks_dest a)) in *.
  assert (Hmiss : ∀ s d, (s, d) ∈ Mover.moves_regular pl →
                    ¬ s `prefix_of` k ∧ ¬ d `prefix_of` k).
  { apply planned_moves_miss; [done..|].
    destruct (negb (Mover.apply a)).
    - by apply ret_Ok in H as [-> _].
    - apply bind_Ok in H as (? & ? & _ & H). apply bind_Ok in H as (? & ? & _ & H).
      apply bind_Ok in H as (? & ? & _ & H). by apply ret_Ok in H as [-> _]. }
  destruct (negb (Mover.apply a)); [by apply ret_Ok in H as [_ ->]|].
  apply bind_Ok in H as (moved_r & m3 & Hmove & H).
  apply (keeps_Ok _ _ _ _ _ (mover_move_all_stays k _ Hmiss 0)) in Hmove.
  apply bind_Ok in H as (moved_s & m4 & Hmove' & H).
  assert (Hnosym : Mover.moves_syms pl = []) by by apply fresh_plan_no_link_moves.
  rewrite Hnosym in Hmove'. apply ret_Ok in Hmove' as [_ ->].
  apply bind_Ok in H as (removed & m5 & Hrm & H). apply ret_Ok in H as [_ ->].
  assert (Hrm' : file_stays k m3 m5).
  { destruct (Mover.keep_empty_dirs a).
    - apply ret_Ok in Hrm as [_ ->]. apply file_stays_refl.
    - by apply (keeps_Ok _ _ _ _ _ (mover_remove_empty_dirs_stays k _)) in Hrm. }
  destruct (file_stays_trans k m2 m3 m5 Hmove Hrm' Hnl2) as [_ Hfin]. by apply Hfin.
Qed.

Lemma mover_changes_planned_files_only_witness :
  ∃ s m', Mover.main mover_apply_args apply_fs = Ok s m' ∧
    m' !! ["old"; "y"] = apply_fs !! ["old"; "y"].
Proof.
  pose (s0 := default (Mover.Summary (Mover.Plan [] [] 0) 0 0 [])
                (value (Mover.main mover_apply_args apply_fs))).
  pose (m1 := final (Mover.main mover_apply_args apply_fs)).
  assert (E : Mover.main mover_apply_args apply_fs = Ok s0 m1)
    by (vm_compute; reflexivity).
  exists s0, m1. split; [exact E|].
  apply (mover_changes_planned_files_only mover_apply_args apply_fs s0 m1).
  - apply no_links_check. vm_compute. reflexivity.
  - apply wfb_wf. vm_compute. reflexivity.
  - exact E.
  - by exists (Some "A"), (Some 2%Q).
  - assert (Ep : (Mover.moves_regular (Mover.planned s0)).*1 = [["old"; "sub"; "z"]])
      by (vm_compute; reflexivity).
    rewrite Ep. by intros [=]%list_elem_of_singleton.
Defined.
(** ** Pipeline A *)

Lemma dedup_move_all_stays k dry actions :
  (∀ s d, (s, d) ∈ actions → ¬ s `prefix_of` k ∧ ¬ d `prefix_of` k) →
  ∀ failed, keeps (file_stays k) (Dedup.move_all dry actions failed).
Proof.
  induction actions as [|[src dst] actions IH]; intros Hk failed; cbn [Dedup.move_all].
  - apply keeps_file_stays_pure, pure_ret.
  - destruct (Hk src dst) as [Hs Hd]; [by left|].
    assert (IH' : ∀ failed, keeps (file_stays k) (Dedup.move_all dry actions failed)).
    { apply IH. intros s d Hin. apply Hk. by right. }
    destruct dry; [apply IH'|].
    apply keeps_bind; [apply file_stays_trans| |intros; apply IH'].
    apply keeps_try. apply keeps_bind; [apply file_stays_trans| |intros _].
    { apply keeps_file_stays_mkdir. }
    apply keeps_bind; [apply file_stays_trans| |intros _].
    { by apply keeps_file_stays_move. }
    apply keeps_file_stays_pure, pure_ret.
Qed.

Lemma dedup_remove_empty_dirs_stays k root keep :
  keeps (file_stays k) (Dedup.remove_empty_dirs root keep).
Proof.
  unfold Dedup.remove_empty_dirs.
  apply keeps_bind; [apply file_stays_trans|apply keeps_file_stays_pure, pure_ask|].
  intros dirs.
  induction dirs as [|p dirs IH]; cbn [Dedup.remove_loop].
  - apply keeps_file_stays_pure, pure_ret.
  - apply keeps_bind; [apply file_stays_trans| |intros skip].
    { case_decide; [apply keeps_file_stays_pure, pure_ret
                   |apply keeps_file_stays_pure, pure_check]. }
    apply keeps_bind; [apply file_stays_trans| |intros _; apply IH].
    destruct skip; [apply keeps_file_stays_pure, pure_ret|].
    apply keeps_try.
    apply keeps_bind; [apply file_stays_trans|apply keeps_file_stays_pure, pure_check|].
    intros names. case_decide; [|apply keeps_file_stays_pure, pure_ret].
    apply keeps_file_stays_rmdir.
Qed.

(** A place that does not exist holds no regular file of a well-formed
    store without links, at it or below it. *)
Lemma free_place_misses m d k :
  no_links m → wf m → exists_ m d = false → file_at m k → ¬ d `prefix_of` k.
Proof.
  intros Hnl Hwf Hfree (h & t & Hk) [r ->].
  unfold exists_ in Hfree. rewrite stat_no_links in Hfree by done.
  destruct (decide (r = [])) as [->|Hr].
  - rewrite app_nil_r in Hk. destruct d; [done|]. unfold lstat in Hfree.
    by rewrite Hk in Hfree.
  - rewrite (wf_above m Hwf r d) in Hfree; [done| |done].
    exists (File h t). rewrite lstat_nonempty; [done|]. by destruct d, r.
Qed.

Section DedupPlanStays.
Context (main D k : path) (dry : bool).

Lemma plan_group_misses newest paths : ∀ actions m res m',
  no_links m → wf m → file_at m k →
  (∀ s d, (s, d) ∈ actions → ¬ d `prefix_of` k) →
  Dedup.plan_group dry main D newest paths actions m = Ok res m' →
  no_links m' ∧ wf m' ∧ dir_added m m' ∧
  (∀ s d, (s, d) ∈ res → ¬ d `prefix_of` k) ∧
  ∃ new, res = actions ++ new ∧ ∀ s, s ∈ new.*1 → s ∈ paths.
Proof.
  induction paths as [|p paths IH]; intros actions m res m' Hnl Hwf Hk Hact H.
  - apply ret_Ok in H as [-> ->]. repeat split; try done; [apply dir_added_refl|].
    exists []. rewrite app_nil_r. split; [done|]. by intros s ?%elem_of_nil.
  - cbn [Dedup.plan_group] in H. case_decide.
    { destruct (IH _ _ _ _ Hnl Hwf Hk Hact H) as (? & ? & ? & ? & new & -> & Hnew).
      repeat split; try done. exists new. split; [done|]. intros s Hs. right. by apply Hnew. }
    apply bind_Ok in H as (rp & ? & [_ ->]%check_Ok & H).
    apply bind_Ok in H as (rmain & ? & [_ ->]%check_Ok & H).
    apply bind_Ok in H as (rel & ? & [_ ->]%check_Ok & H).
    apply bind_Ok in H as (? & m1 & Hmk & H).
    assert (Hm1 : no_links m1 ∧ wf m1 ∧ dir_added m m1).
    { destruct dry.
      - apply ret_Ok in Hmk as [_ ->]. split; [done|]. split; [done|apply dir_added_refl].
      - apply call_Ok in Hmk. pose proof (mkdir_parents_ok _ _ _ Hmk) as [Hadd _].
        split; [by eapply no_links_dir_added|]. split; [by eapply wf_mkdir_chain|done]. }
    destruct Hm1 as (Hnl1 & Hwf1 & Hadd1).
    assert (Hk1 : file_at m1 k).
    { destruct Hk as (h & t & Hk). exists h, t.
      destruct (Hadd1 k) as [E|[E _]]; congruence. }
    apply bind_Ok in H as (taken & ? & [-> ->]%ask_Ok & H).
    apply bind_Ok in H as (dst & m2 & Hdst & H).
    assert (Hfree : m2 = m1 ∧ exists_ m1 dst = false).
    { destruct (exists_ m1 (D ++ rel)) eqn:Ex.
      - apply ask_Ok in Hdst as [-> ->]. split; [done|]. apply unique_destination_free.
      - by apply ret_Ok in Hdst as [-> ->]. }
    destruct Hfree as [-> Hfree].
    destruct (IH (actions ++ [(p, dst)]) m1 res m' Hnl1 Hwf1 Hk1)
      as (Hnl' & Hwf' & Hadd' & Hres & new & -> & Hnew); [|exact H|].
    { intros s d [Hin|Hin]%elem_of_app; [by eapply Hact|].
      apply list_elem_of_singleton in Hin as [= -> ->].
      by apply (free_place_misses m1). }
    split; [done|]. split; [done|]. split; [by eapply dir_added_trans|].
    split; [done|]. exists ((p, dst) :: new). rewrite <- app_assoc. split; [done|].
    intros s [->|Hs]%elem_of_cons; [by left|]. right. by apply Hnew.
Qed.

Lemma plan_groups_misses by_hash : ∀ actions kept m res m',
  no_links m → wf m → file_at m k →
  (∀ s d, (s, d) ∈ actions → ¬ d `prefix_of` k) →
  Dedup.plan_groups dry main D by_hash actions kept m = Ok res m' →
  no_links m' ∧ wf m' ∧ dir_added m m' ∧
  (∀ s d, (s, d) ∈ res.1 → ¬ d `prefix_of` k) ∧
  ∃ new, res.1 = actions ++ new ∧
    ∀ s, s ∈ new.*1 → ∃ h paths, (h, paths) ∈ by_hash ∧ s ∈ paths.
Proof.
  induction by_hash as [|[h paths] by_hash IH]; intros actions kept m res m' Hnl Hwf Hk Hact H.
  - apply ret_Ok in H as [-> ->]. repeat split; try done; [apply dir_added_refl|].
    exists []. rewrite app_nil_r. split; [done|]. by intros s ?%elem_of_nil.
  - cbn [Dedup.plan_groups] in H.
    assert (Hrest : ∀ actions kept m res m',
      no_links m → wf m → file_at m k →
      (∀ s d, (s, d) ∈ actions → ¬ d `prefix_of` k) →
      Dedup.plan_groups dry main D by_hash actions kept m = Ok res m' →
      no_links m' ∧ wf m' ∧ dir_added m m' ∧
      (∀ s d, (s, d) ∈ res.1 → ¬ d `prefix_of` k) ∧
      ∃ new, res.1 = actions ++ new ∧
        ∀ s, s ∈ new.*1 → ∃ h' paths', (h', paths') ∈ (h, paths) :: by_hash ∧ s ∈ paths').
    { intros actions0 kept0 m0 res0 m0' ? ? ? ? Hrun.
      destruct (IH _ _ _ _ _ ltac:(done) ltac:(done) ltac:(done) ltac:(done) Hrun)
        as (? & ? & ? & ? & new & ? & Hnew).
      repeat split; try done. exists new. split; [done|]. intros s Hs.
      destruct (Hnew s Hs) as (h' & paths' & ? & ?). exists h', paths'.
      split; [by right|done]. }
    destruct paths as [|p0 [|p1 ps]]; [by eapply Hrest..|].
    apply bind_Ok in H as (newest & ? & [-> ->]%ask_Ok & H).
    apply bind_Ok in H as (actions' & m1 & Hg & H).
    destruct (plan_group_misses _ _ _ _ _ _ Hnl Hwf Hk Hact Hg)
      as (Hnl1 & Hwf1 & Hadd1 & Hact1 & ga & -> & Hga).
    assert (Hk1 : file_at m1 k).
    { destruct Hk as (h0 & t & Hk). exists h0, t.
      destruct (Hadd1 k) as [E|[E _]]; congruence. }
    destruct (Hrest _ _ _ _ _ Hnl1 Hwf1 Hk1 Hact1 H)
      as (Hnl' & Hwf' & Hadd' & Hres & new & Hnew & Hsrc).
    split; [done|]. split; [done|]. split; [by eapply dir_added_trans|].
    split; [done|]. exists (ga ++ new). rewrite app_assoc. split; [done|].
    intros s. rewrite fmap_app. intros [Hs|Hs]%elem_of_app; [|by apply Hsrc].
    exists h, (p0 :: p1 :: ps). split; [by left|by apply Hga].
Qed.

End DedupPlanStays.
Lemma scan_is_file fuel m followlinks D : ∀ top files,
  Dedup.scan fuel m followlinks D top = Some files →
  ∀ p, p ∈ files → is_file m p = true.
Proof.
  induction fuel as [|fuel IH]; intros top files.
  { intros [= <-] p Hp. by apply elem_of_nil in Hp. }
  cbn [Dedup.scan]. destruct (scandir m top) as [names|].
  2:{ intros [= <-] p Hp. by apply elem_of_nil in Hp. }
  destruct (Dedup.prune m D top _) as [kept|] eqn:Epr; [|done].
  destruct (mapM _ kept) as [below|] eqn:Emap; [|done].
  intros [= <-] p [Hp|Hp]%elem_of_app.
  - by apply list_elem_of_filter in Hp as [Hf _].
  - apply elem_of_concat in Hp as (sub & Hsub & Hp).
    apply mapM_Some in Emap.
    destruct (proj1 (list_elem_of_lookup _ _) Hsub) as [i Hi].
    destruct (Forall2_lookup_r _ _ _ _ _ Emap Hi) as (d & Hd & Hrun).
    destruct (followlinks || negb (is_symlink m (top ++ [d]))).
    2:{ injection Hrun as <-. by apply elem_of_nil in Hp. }
    by apply (IH _ _ Hrun).
Qed.

Lemma is_file_file_at m p : no_links m → p ≠ [] → is_file m p = true → file_at m p.
Proof.
  intros Hnl Hp. unfold is_file. rewrite (stat_no_links m Hnl), (lstat_nonempty m p Hp).
  destruct (m !! p) as [[h t| |]|] eqn:E; try done. intros _. by exists h, t.
Qed.

(** X23: a run of pipeline A that returns, on a well-formed store without
    links, changes no regular file but the sources of its planned moves:
    every other regular file of the store is afterwards where it was and as
    it was.  In particular every file that the run reports as kept was a
    regular file and stays in place, untouched. *)
Theorem dedup_changes_planned_files_only a m rep m' :
  no_links m → wf m → Dedup.main a m = Ok rep m' →
  (∀ k, file_at m k → k ∉ (Dedup.actions rep).*1 → m' !! k = m !! k) ∧
  (∀ k, k ∈ Dedup.kept rep → file_at m k ∧ m' !! k = m !! k).
Proof.
  intros Hnl Hwf H. unfold Dedup.main in H.
  apply bind_Ok in H as (R & ? & [HR ->]%check_Ok & H).
  apply bind_Ok in H as (ok & ? & [_ ->]%ask_Ok & H).
  destruct (negb ok); [done|].
  apply bind_Ok in H as (? & m1 & Hmk & H).
  set (D := R ++ [Dedup.duplicates_name]) in *.
  assert (Hm1 : no_links m1 ∧ wf m1 ∧ dir_added m m1).
  { destruct (Dedup.dry_run a).
    - apply ret_Ok in Hmk as [_ ->]. split; [done|]. split; [done|apply dir_added_refl].
    - apply call_Ok in Hmk. pose proof (mkdir_exist_ok_ok _ _ _ Hmk) as [Hadd _].
      split; [by eapply no_links_dir_added|]. split; [by eapply wf_mkdir_exist_ok|done]. }
  destruct Hm1 as (Hnl1 & Hwf1 & Hadd1).
  apply bind_Ok in H as (files & ? & [Hscan ->]%check_Ok & H).
  apply bind_Ok in H as (by_hash & ? & [-> ->]%ask_Ok & H).
  apply bind_Ok in H as (ak & m2 & Hplan & H).
  apply bind_Ok in H as (failed & m3 & Hmove & H).
  apply bind_Ok in H as (? & m4 & Hpost & H). apply ret_Ok in H as [-> ->].
  cbn [Dedup.actions Dedup.kept].
  assert (Hgroups : ∀ h paths p, (h, paths) ∈ Dedup.group_files m1 files →
            p ∈ paths → p ∈ files).
  { intros h paths p Hin Hp.
    destruct (group_files_spec m1 files) as [Hkeys Hg].
    rewrite <- (group_of_elem _ h paths Hkeys Hin), Hg in Hp.
    by apply list_elem_of_filter in Hp as [_ Hp]. }
  assert (Hfiles : ∀ p, p ∈ files → p ≠ [] ∧ file_at m1 p).
  { intros p Hp.
    assert (Hne : p ≠ []).
    { destruct (scan_below _ _ _ _ _ _ Hscan p Hp) as (rel & Hrel & ->).
      by destruct R, rel. }
    split; [done|]. apply is_file_file_at; [done..|by eapply scan_is_file]. }
  assert (Hpost' : ∀ k, file_stays k m3 m4).
  { intros k. destruct (Dedup.dry_run a).
    - apply ret_Ok in Hpost as [_ ->]. apply file_stays_refl.
    - by apply (keeps_Ok _ _ _ _ _ (dedup_remove_empty_dirs_stays k _ _)) in Hpost. }
  assert (Hfirst : ∀ k, file_at m k → k ∉ ak.1.*1 → m4 !! k = m !! k).
  { intros k Hk Hnot.
    assert (Hk1 : file_at m1 k ∧ m1 !! k = m !! k).
    { destruct Hk as (h & t & Hk). destruct (Hadd1 k) as [E|[E _]]; [|congruence].
      split; [exists h, t; congruence|done]. }
    destruct Hk1 as [Hk1 <-].
    destruct (plan_groups_misses R D k (Dedup.dry_run a) (Dedup.group_files m1 files)
                [] [] m1 ak m2 Hnl1 Hwf1 Hk1)
      as (Hnl2 & Hwf2 & Hadd2 & Hdst & new & Hnew & Hsrc); [|exact Hplan|].
    { by intros s d ?%elem_of_nil. }
    simpl in Hnew.
    assert (Hmiss : ∀ s d, (s, d) ∈ ak.1 → ¬ s `prefix_of` k ∧ ¬ d `prefix_of` k).
    { intros s d Hin. split; [|by eapply Hdst].
      assert (Hs : s ∈ files).
      { destruct (Hsrc s) as (h & paths & Hg & Hp); [|by eapply Hgroups].
        rewrite <- Hnew. apply list_elem_of_fmap. by exists (s, d). }
      apply Hfiles in Hs as (Hsne & h & t & Hs). intros [r ->].
      destruct (decide (r = [])) as [->|Hr].
      - rewrite app_nil_r in *. apply Hnot. apply list_elem_of_fmap. by exists (s, d).
      - destruct Hk1 as (h' & t' & Hk1).
        assert (Hl : lstat m1 s = Some Dir).
        { apply (wf_above m1 Hwf1 r); [|done]. exists (File h' t').
          rewrite lstat_nonempty; [done|]. by destruct s, r. }
        rewrite lstat_nonempty in Hl; [congruence|done]. }
    apply (keeps_Ok _ _ _ _ _ (dedup_move_all_stays k _ _ Hmiss [])) in Hmove.
    destruct (file_stays_dir_added k m1 m2 Hadd2 Hnl1) as [_ H12].
    destruct (file_stays_trans k m2 m3 m4 Hmove (Hpost' k) Hnl2) as [_ H24].
    rewrite <- (H12 Hk1). apply H24. destruct Hk1 as (h & t & Hk1). exists h, t.
    by rewrite (H12 (ex_intro _ h (ex_intro _ t Hk1))). }
  split; [exact Hfirst|].
  intros k Hk.
  destruct (scan_no_links m1 D (Dedup.follow_symlinks a) Hnl1 (walk_fuel m1) R)
    as (files' & Hscan' & Hnd & _).
  rewrite Hscan in Hscan'. injection Hscan' as <-.
  destruct (group_files_spec m1 files) as [Hkeys Hg].
  apply plan_groups_partition in Hplan as (na & nk & -> & Hp & _).
  2:{ apply Forall_forall. intros [h ps] Hin. simpl.
      rewrite <- (group_of_elem _ h ps Hkeys Hin), Hg. by apply NoDup_filter. }
  simpl in Hk, Hfirst.
  assert (Hperm : nk ++ na.*1 ≡ₚ
            filter (λ p, is_Some (Dedup.sha256_of_file m1 p)) files).
  { by rewrite Hp, concat_group_files. }
  assert (Hin : k ∈ files).
  { assert (Hk' : k ∈ nk ++ na.*1) by (apply elem_of_app; by left).
    rewrite Hperm in Hk'. by apply list_elem_of_filter in Hk' as [_ ?]. }
  assert (Hnot : k ∉ na.*1).
  { assert (Hnd' : NoDup (nk ++ na.*1)) by (rewrite Hperm; by apply NoDup_filter).
    apply NoDup_app in Hnd' as (_ & Hdis & _). by apply Hdis. }
  destruct (Hfiles k Hin) as (_ & h & t & Hk1).
  assert (Hk0 : file_at m k).
  { exists h, t. destruct (Hadd1 k) as [E|[_ E]]; congruence. }
  split; [done|]. by apply Hfirst.
Qed.

Lemma dedup_changes_planned_files_only_witness :
  ∃ rep m', Dedup.main apply_args twice_fs = Ok rep m' ∧
    m' !! ["r"; "b"; "x.txt"] = twice_fs !! ["r"; "b"; "x.txt"].
Proof.
  pose (rep0 := default (Dedup.Report [] [] []) (value (Dedup.main apply_args twice_fs))).
  pose (m1 := final (Dedup.main apply_args twice_fs)).
  assert (E : Dedup.main apply_args twice_fs = Ok rep0 m1) by (vm_compute; reflexivity).
  exists rep0, m1. split; [exact E|].
  destruct (dedup_changes_planned_files_only apply_args twice_fs rep0 m1) as [_ H].
  - apply no_links_check. vm_compute. reflexivity.
  - apply wfb_wf. vm_compute. reflexivity.
  - exact E.
  - apply H.
    assert (Ek : Dedup.kept rep0 = [["r"; "b"; "x.txt"]]) by (vm_compute; reflexivity).
    rewrite Ek. by left.
Defined.

(** ** The destination of a move *)

(** X24: the destination that either script computes does not
    exist when it is computed; it is the wanted path when that is free, and
    otherwise the wanted name with [ (n)] put between stem and suffix, for
    the least [n ≥ 1] whose name is free in the same directory. *)
Theorem unique_destination_first_unused m dest_path base_dir filename :
  (exists_ m (Mover.unique_destination_path m dest_path) = false ∧
   (exists_ m dest_path = false →
      Mover.unique_destination_path m dest_path = dest_path) ∧
   (exists_ m dest_path = true →
      first_unused m (parent dest_path) (name dest_path)
        (Mover.unique_destination_path m dest_path))) ∧
  (exists_ m (Dedup.unique_destination m base_dir filename) = false ∧
   (exists_ m (base_dir ++ [filename]) = false →
      Dedup.unique_destination m base_dir filename = base_dir ++ [filename]) ∧
   (exists_ m (base_dir ++ [filename]) = true →
      first_unused m base_dir filename
        (Dedup.unique_destination m base_dir filename))) ∧
  stem filename +:+ suffix filename = filename.
Proof.
  split; [|split]; [| |apply stem_suffix].
  - split; [apply unique_destination_path_free|apply unique_destination_path_cases].
  - split; [apply unique_destination_free|apply unique_destination_cases].
Qed.

Lemma unique_destination_first_unused_witness :
  Mover.unique_destination_path collide_fs ["dst"; "a.txt"] = ["dst"; "a (1).txt"] ∧
  exists_ collide_fs ["dst"; "a (1).txt"] = false.
Proof.
  destruct (unique_destination_first_unused collide_fs ["dst"; "a.txt"] ["dst"] "a.txt")
    as ((Hfree & _ & Hnum) & _).
  assert (E : Mover.unique_destination_path collide_fs ["dst"; "a.txt"]
              = ["dst"; "a (1).txt"]) by (vm_compute; reflexivity).
  split; [exact E|]. rewrite <- E. exact Hfree.
Defined.
